(** * HyperLiquid order book and trade reconstruction

    A shallow embedding of the two static methods of [HyperLiquidAPI]
    (lib/hyperliquid-api.ts): [convertOrderBook] and
    [processCompletedTrades]; of its WebSocket connection ([connectWebSocket],
    [reconnect], [disconnect], [isConnectedTo]), as a transition system over
    the events of the page and of the browser; and of what the two pages do
    with the results: the rows the order-book page lists, and the state of
    the trades page around [handleSubmit].

    JavaScript numbers are IEEE-754 binary64 values: they are modelled by
    Rocq's primitive floats, whose operations are the hardware ones and whose
    meaning is given by [SpecFloat].  Millisecond timestamps ([fill.time]) are
    integral numbers far below 2^53, on which JavaScript's subtraction and
    comparison are exact: they are modelled by [Z]. *)

From Stdlib Require Import ZArith List String Ascii Bool Lia.
From Stdlib Require Import Permutation Sorted.
From Stdlib Require Import Floats.
Import ListNotations.

Local Open Scope Z_scope.

(** ** Numbers: the built-ins the source calls *)

Module JS.

(** *** [parseFloat] (ECMAScript, sec. parsefloat-string)

    Leading white space is dropped, the longest prefix that is a
    [StrDecimalLiteral] is read and its mathematical value is rounded to the
    nearest double (ties to even); without such a prefix the result is NaN.
    Strings are byte strings here, so the white space is the ASCII one. *)

Definition isWhiteSpace (c : ascii) : bool :=
  let n := N_of_ascii c in
  ((9 <=? n) && (n <=? 13) || (n =? 32))%N.

Definition digitOf (c : ascii) : option Z :=
  let n := Z.of_N (N_of_ascii c) in
  if (48 <=? n) && (n <=? 57) then Some (n - 48) else None.

Fixpoint trimStart (s : string) : string :=
  match s with
  | String c s' => if isWhiteSpace c then trimStart s' else s
  | EmptyString => s
  end.

(** [readDigits acc n s]: the digits at the front of [s], folded into [acc];
    [n] counts them. *)
Fixpoint readDigits (acc : Z) (n : Z) (s : string) : Z * Z * string :=
  match s with
  | String c s' =>
      match digitOf c with
      | Some d => readDigits (10 * acc + d) (n + 1) s'
      | None => (acc, n, s)
      end
  | EmptyString => (acc, n, s)
  end.

(** The optional [ExponentPart]: it is part of the prefix only when a digit
    follows the indicator and its sign. *)
Definition readExponent (s : string) : Z :=
  match s with
  | String c s' =>
      if (Ascii.eqb c "e" || Ascii.eqb c "E")%bool then
        match s' with
        | String "+"%char s'' =>
            let '(e, n, _) := readDigits 0 0 s'' in if 0 <? n then e else 0
        | String "-" s'' =>
            let '(e, n, _) := readDigits 0 0 s'' in if 0 <? n then - e else 0
        | _ =>
            let '(e, n, _) := readDigits 0 0 s' in if 0 <? n then e else 0
        end
      else 0
  | EmptyString => 0
  end.

(** The value [(-1)^sign * m * 10^e], rounded to binary64. *)
Definition roundDecimal (sign : bool) (m e : Z) : spec_float :=
  match m with
  | Zpos p =>
      match e with
      | Zneg _ =>
          SFdiv prec emax (S754_finite sign p 0)
                (S754_finite false (Z.to_pos (10 ^ (- e))) 0)
      | _ => binary_normalize prec emax (cond_Zopp sign (m * 10 ^ e)) 0 false
      end
  | _ => S754_zero sign
  end.

Definition readUnsigned (sign : bool) (s : string) : spec_float :=
  if String.prefix "Infinity" s then S754_infinity sign else
  let '(i, ni, s1) := readDigits 0 0 s in
  match s1 with
  | String "." s2 =>
      let '(m, nf, s3) := readDigits i 0 s2 in
      if (0 <? ni) || (0 <? nf)
      then roundDecimal sign m (readExponent s3 - nf)
      else S754_nan
  | _ => if 0 <? ni then roundDecimal sign i (readExponent s1) else S754_nan
  end.

Definition parseFloat (s : string) : float :=
  SF2Prim
    match trimStart s with
    | String "+" s' => readUnsigned false s'
    | String "-" s' => readUnsigned true s'
    | s' => readUnsigned false s'
    end.

(** *** Number to string, for the integers (below 10^21) a template literal
    prints in decimal *)

Definition digitChar (d : Z) : ascii := ascii_of_N (Z.to_N (48 + d)).

Fixpoint natDigits (fuel : nat) (n : Z) (acc : string) : string :=
  match fuel with
  | O => acc
  | S fuel' =>
      let acc' := String (digitChar (n mod 10)) acc in
      if n <? 10 then acc' else natDigits fuel' (n / 10) acc'
  end.

Definition numberToString (n : Z) : string :=
  if n <? 0
  then String "-" (natDigits (S (Z.to_nat (Z.log2 (- n)))) (- n) "")
  else natDigits (S (Z.to_nat (Z.log2 n))) n "".

End JS.

Import JS.

(** ** The order book: [convertOrderBook] *)

Module Level.
(** [interface HyperLiquidOrder] *)
Record HyperLiquidOrder := mk { px : string; sz : string }.
End Level.

Module Book.
(** [interface HyperLiquidOrderBook]; [levels] is the pair [[bids, asks]]. *)
Record HyperLiquidOrderBook := mk {
  coin : string;
  levels : list Level.HyperLiquidOrder * list Level.HyperLiquidOrder;
  time : Z
}.
End Book.

Module Row.
(** The rows [formatOrders] builds ([interface Order] of the page). *)
Record Order := mk { price : float; size : float; total : float }.
End Row.

Module View.
(** The object [convertOrderBook] returns. *)
Record OrderBook := mk {
  bids : list Row.Order;
  asks : list Row.Order;
  midPrice : float
}.
End View.

Module OrderBook.

(** [orders.map(order => { runningTotal += parseFloat(order.sz); ... })]:
    the closure's [runningTotal] is the accumulator. *)
Fixpoint formatOrdersFrom (runningTotal : float)
    (orders : list Level.HyperLiquidOrder) : list Row.Order :=
  match orders with
  | [] => []
  | order :: rest =>
      let runningTotal' := (runningTotal + parseFloat (Level.sz order))%float in
      Row.mk (parseFloat (Level.px order)) (parseFloat (Level.sz order))
             runningTotal'
      :: formatOrdersFrom runningTotal' rest
  end.

Definition formatOrders (orders : list Level.HyperLiquidOrder) : list Row.Order :=
  formatOrdersFrom 0%float orders.

(** [formatOrder] is declared next to it and never called. *)
Definition formatOrder (order : Level.HyperLiquidOrder) : Row.Order :=
  Row.mk (parseFloat (Level.px order)) (parseFloat (Level.sz order))
         (parseFloat (Level.sz order)).

(** [precision] (default 3) is accepted and never read. *)
Definition convertOrderBook (hyperliquidOrderBook : Book.HyperLiquidOrderBook)
    (precision : float) : View.OrderBook :=
  let '(bids, asks) := Book.levels hyperliquidOrderBook in
  View.mk (formatOrders bids) (formatOrders asks)
    match bids, asks with
    | bid0 :: _, ask0 :: _ =>
        ((parseFloat (Level.px bid0) + parseFloat (Level.px ask0)) / 2)%float
    | _, _ => 0%float
    end.

(** The running sum of the sizes of the first [n] levels, as the scan
    computes it: from 0, left to right. *)
Definition runningSum (n : nat) (orders : list Level.HyperLiquidOrder) : float :=
  fold_left (fun acc order => (acc + parseFloat (Level.sz order))%float)
            (firstn n orders) 0%float.

End OrderBook.

(** ** Trade reconstruction: [processCompletedTrades] *)

Module Fill.
(** ['B' | 'A']: B = Buy (long), A = Sell (short). *)
Inductive Side := B | A.

(** [interface HyperLiquidUserFill] *)
Record HyperLiquidUserFill := mk {
  coin : string;
  px : string;
  sz : string;
  side : Side;
  time : Z;
  startPosition : string;
  dir : string;
  closedPnl : string;
  hash : string;
  oid : Z;
  crossed : bool;
  fee : string
}.
End Fill.

Module Trade.
Inductive Direction := long | short.

(** The element type of [completedTrades]. *)
Record CompletedTrade := mk {
  coin : string;
  direction : Direction;
  openingTime : string;
  duration : string;
  realizedPnL : float
}.
End Trade.

(** [Array.prototype.sort(compareFn)]: the sort is stable, and a comparator
    result that is NaN counts as 0; the comparator's result is kept by its
    sign.  For a consistent comparator every stable sort gives this list. *)
Section Sort.
Context {T : Type}.
Variable compareFn : T -> T -> Z.

Fixpoint insert (x : T) (l : list T) : list T :=
  match l with
  | [] => [x]
  | y :: l' => if compareFn x y <=? 0 then x :: l else y :: insert x l'
  end.

Definition sort (l : list T) : list T := fold_right insert [] l.
End Sort.

Module Reconstructor.

(** The four [let] variables of the per-coin scan. *)
Record Position := mkPosition {
  positionSize : float;
  openTime : option Z;
  totalPnL : float;
  positionDirection : option Trade.Direction
}.

Definition flat : Position := mkPosition 0%float None 0%float None.

(** [fills.forEach(fill => { if (!coinMap.has(fill.coin)) coinMap.set(fill.coin, []);
    coinMap.get(fill.coin)!.push(fill) })]: a [Map] iterates in insertion
    order, so it is an association list, a new coin going last. *)
Fixpoint mapPush (coinMap : list (string * list Fill.HyperLiquidUserFill))
    (fill : Fill.HyperLiquidUserFill) : list (string * list Fill.HyperLiquidUserFill) :=
  match coinMap with
  | [] => [(Fill.coin fill, [fill])]
  | (coin, coinFills) :: rest =>
      if String.eqb coin (Fill.coin fill)
      then (coin, coinFills ++ [fill]) :: rest
      else (coin, coinFills) :: mapPush rest fill
  end.

Definition groupByCoin (fills : list Fill.HyperLiquidUserFill) :=
  fold_left mapPush fills [].

(** [(a, b) => a.time - b.time] *)
Definition byTime (a b : Fill.HyperLiquidUserFill) : Z := Fill.time a - Fill.time b.

(** [fill.closedPnl || '0']: the empty string is falsy. *)
Definition closedPnlText (fill : Fill.HyperLiquidUserFill) : string :=
  if String.eqb (Fill.closedPnl fill) "" then "0"%string else Fill.closedPnl fill.

(** [`${durationHours}h ${durationMinutes}m`], with
    [Math.floor(duration / (1000 * 60 * 60))] and
    [Math.floor((duration % (1000 * 60 * 60)) / (1000 * 60))]; [%] takes the
    sign of the dividend. *)
Definition formatDuration (duration : Z) : string :=
  let durationHours := duration / (1000 * 60 * 60) in
  let durationMinutes := Z.rem duration (1000 * 60 * 60) / (1000 * 60) in
  (numberToString durationHours ++ "h " ++ numberToString durationMinutes ++ "m")%string.

(** [Math.abs(positionSize) < 0.0001] *)
Definition epsilon : float := parseFloat "0.0001".

Definition nearZero (positionSize : float) : bool :=
  (abs positionSize <? epsilon)%float.

Section Environment.

(** The host's locale and time zone decide what
    [new Date(t).toLocaleString()] prints and what [new Date(s).getTime()]
    reads back ([None] for NaN, an invalid date). *)
Variable toLocaleString : Z -> string.
Variable getTime : string -> option Z.

(** The position after the updates of one fill, before the closing test. *)
Definition applyFill (p : Position) (fill : Fill.HyperLiquidUserFill) : Position :=
  let fillSize := parseFloat (Fill.sz fill) in
  let closedPnl := parseFloat (closedPnlText fill) in
  let isLong := match Fill.side fill with Fill.B => true | Fill.A => false end in
  let positionDirection' :=
    match positionDirection p with
    | None => Some (if isLong then Trade.long else Trade.short)
    | Some d => Some d
    end in
  let positionSize' :=
    if isLong then (positionSize p + fillSize)%float
    else (positionSize p - fillSize)%float in
  let openTime' :=
    match openTime p with
    | None => if negb (positionSize' =? 0)%float then Some (Fill.time fill) else None
    | Some t => Some t
    end in
  mkPosition positionSize' openTime' (totalPnL p + closedPnl)%float positionDirection'.

(** The trade pushed when the position closes on [fill];
    [positionDirection!] is not null there, the fill has set it. *)
Definition closedTrade (coin : string) (p : Position) (openT : Z)
    (fill : Fill.HyperLiquidUserFill) : Trade.CompletedTrade :=
  Trade.mk coin
    match positionDirection p with Some d => d | None => Trade.long end
    (toLocaleString openT)
    (formatDuration (Fill.time fill - openT))
    (totalPnL p).

(** Whether the position closes: [openTime !== null && Math.abs(positionSize) < 0.0001]. *)
Definition closes (p : Position) : bool :=
  match openTime p with
  | Some _ => nearZero (positionSize p)
  | None => false
  end.

(** One iteration of [coinFills.forEach]: the state is the scan's variables
    and the shared [completedTrades] array. *)
Definition scanFill (coin : string) (st : Position * list Trade.CompletedTrade)
    (fill : Fill.HyperLiquidUserFill) : Position * list Trade.CompletedTrade :=
  let '(p0, completedTrades) := st in
  let p := applyFill p0 fill in
  match openTime p with
  | Some openT =>
      if nearZero (positionSize p)
      then (mkPosition (positionSize p) None 0%float None,
            completedTrades ++ [closedTrade coin p openT fill])
      else (p, completedTrades)
  | None => (p, completedTrades)
  end.

(** One iteration of [coinMap.forEach]. *)
Definition scanCoin (completedTrades : list Trade.CompletedTrade)
    (entry : string * list Fill.HyperLiquidUserFill) : list Trade.CompletedTrade :=
  let '(coin, coinFills) := entry in
  snd (fold_left (scanFill coin) (sort byTime coinFills) (flat, completedTrades)).

(** [(a, b) => new Date(b.openingTime).getTime() - new Date(a.openingTime).getTime()] *)
Definition byOpeningTimeDesc (a b : Trade.CompletedTrade) : Z :=
  match getTime (Trade.openingTime b), getTime (Trade.openingTime a) with
  | Some tb, Some ta => tb - ta
  | _, _ => 0
  end.

Definition processCompletedTrades (fills : list Fill.HyperLiquidUserFill)
    : list Trade.CompletedTrade :=
  match fills with
  | [] => []
  | _ => sort byOpeningTimeDesc (fold_left scanCoin (groupByCoin fills) [])
  end.

End Environment.

End Reconstructor.

(** ** One host environment: locale en-US, time zone UTC

    [new Date(0).toLocaleString()] is ["1/1/1970, 12:00:00 AM"] there, and
    [new Date("1/1/1970, 12:00:00 AM").getTime()] is 0.  The printed form has
    no milliseconds.  The model covers the years 1000 to 9999, prints a plain
    space before AM and PM, and reads back the printed form only. *)

Module EnUS.

Definition msPerDay : Z := 86400000.

(** The proleptic Gregorian date [(year, month, day)] of a day number
    counted from 1970-01-01. *)
Definition civilFromDays (days : Z) : Z * Z * Z :=
  let z := days + 719468 in
  let era := z / 146097 in
  let doe := z - era * 146097 in
  let yoe := (doe - doe / 1460 + doe / 36524 - doe / 146096) / 365 in
  let doy := doe - (365 * yoe + yoe / 4 - yoe / 100) in
  let mp := (5 * doy + 2) / 153 in
  let d := doy - (153 * mp + 2) / 5 + 1 in
  let m := if mp <? 10 then mp + 3 else mp - 9 in
  (yoe + era * 400 + (if m <=? 2 then 1 else 0), m, d).

Definition daysFromCivil (y m d : Z) : Z :=
  let y' := if m <=? 2 then y - 1 else y in
  let era := y' / 400 in
  let yoe := y' - era * 400 in
  let doy := (153 * (if 2 <? m then m - 3 else m + 9) + 2) / 5 + d - 1 in
  let doe := yoe * 365 + yoe / 4 - yoe / 100 + doy in
  era * 146097 + doe - 719468.

Definition pad2 (n : Z) : string :=
  if n <? 10 then ("0" ++ numberToString n)%string else numberToString n.

Definition toLocaleString (t : Z) : string :=
  if (t <? -8640000000000000) || (8640000000000000 <? t) then "Invalid Date"%string
  else
    let '(y, m, d) := civilFromDays (t / msPerDay) in
    let secs := (t mod msPerDay) / 1000 in
    let h := secs / 3600 in
    let h12 := if h mod 12 =? 0 then 12 else h mod 12 in
    (numberToString m ++ "/" ++ numberToString d ++ "/" ++ numberToString y
       ++ ", " ++ numberToString h12 ++ ":" ++ pad2 ((secs / 60) mod 60)%Z
       ++ ":" ++ pad2 (secs mod 60)%Z ++ (if (h <? 12)%Z then " AM" else " PM"))%string.

(** A number of at least one digit, then the separator [sep]. *)
Definition field (sep : string) (s : string) : option (Z * string) :=
  let '(v, n, rest) := readDigits 0 0 s in
  if (0 <? n) && String.prefix sep rest
  then Some (v, String.substring (String.length sep)
                                 (String.length rest - String.length sep) rest)
  else None.

Definition getTime (s : string) : option Z :=
  match field "/" s with
  | Some (m, s) =>
  match field "/" s with
  | Some (d, s) =>
  match field ", " s with
  | Some (y, s) =>
  match field ":" s with
  | Some (h12, s) =>
  match field ":" s with
  | Some (mi, s) =>
  match field " " s with
  | Some (sec, s) =>
      let valid :=
        (1 <=? m) && (m <=? 12) && (1 <=? d) && (d <=? 31)
        && (1 <=? h12) && (h12 <=? 12) && (mi <=? 59) && (sec <=? 59) in
      let at_ (h : Z) :=
        Some (daysFromCivil y m d * msPerDay + ((h * 60 + mi) * 60 + sec) * 1000) in
      if negb valid then None
      else if String.eqb s "AM" then at_ (h12 mod 12)
      else if String.eqb s "PM" then at_ (h12 mod 12 + 12)
      else None
  | None => None end
  | None => None end
  | None => None end
  | None => None end
  | None => None end
  | None => None end.

Definition processCompletedTrades :=
  Reconstructor.processCompletedTrades toLocaleString getTime.

End EnUS.

(** ** The order-book page: the rows it lists *)

Module BookPage.

(** [(a, b) => b.price - a.price] as [sort] reads it: only the sign of the
    difference counts, and NaN counts as zero. *)
Definition byPriceDesc (a b : Row.Order) : Z :=
  let d := (Row.price b - Row.price a)%float in
  if (0 <? d)%float then 1 else if (d <? 0)%float then -1 else 0.

(** [orderBook.asks.slice(0, 10).sort((a, b) => b.price - a.price)]: the
    slice is a copy, the state is not reordered. *)
Definition displayedAsks (orderBook : View.OrderBook) : list Row.Order :=
  sort byPriceDesc (firstn 10 (View.asks orderBook)).

(** [orderBook.bids.slice(0, 10)]. *)
Definition displayedBids (orderBook : View.OrderBook) : list Row.Order :=
  firstn 10 (View.bids orderBook).

(** The position of a double on the number line, as an integer that grows
    with it; both zeros are at 0. *)
Definition rank (x : spec_float) : Z :=
  match x with
  | S754_zero _ | S754_nan => 0
  | S754_infinity s => cond_Zopp s (2 ^ 64)
  | S754_finite s m e => cond_Zopp s ((e + 1074) * 2 ^ 53 + Zpos m)
  end.

Definition priceKey (row : Row.Order) : Z := - rank (Prim2SF (Row.price row)).

End BookPage.

(** ** The streaming connection: [connectWebSocket], [reconnect],
    [disconnect], [isConnectedTo]

    The instance holds [ws], [reconnectAttempts] and [currentCoin].  Each
    call of [connectWebSocket] creates a socket and attaches four handlers
    that keep the [coin] and the callbacks of that call.  Handlers and timer
    callbacks run one at a time, to completion; when they run is the
    browser's choice, given here as a list of events.  The constructor
    [new WebSocket(url)] is taken to return a socket in state CONNECTING. *)

Module Connection.

Inductive ReadyState := CONNECTING | OPEN | CLOSING | CLOSED.

(** The callbacks passed to one call of [connectWebSocket], named by a
    number; [onError] is optional. *)
Record Callbacks := mkCallbacks { onOrderBookUpdate : nat; onError : option nat }.

(** A socket, with what its handlers have captured. *)
Record Socket := mkSocket {
  readyState : ReadyState;
  coin : string;
  callbacks : Callbacks
}.

(** [setTimeout(() => this.connectWebSocket(coin, ...), delay)] and
    [setTimeout(sendSubscription, 50)]. *)
Inductive Timer :=
| Reconnect (coin : string) (cb : Callbacks) (delay : Z)
| Resubscribe (coin : string) (delay : Z).

(** The parsed [event.data]: [data.channel] and [data.data], the latter
    absent when falsy. *)
Record Message := mkMessage {
  channel : string;
  data : option Book.HyperLiquidOrderBook
}.

(** What the instance does to the outside. *)
Inductive Effect :=
| Sent (socket : nat) (coin : string)
| Updated (cb : Callbacks) (orderBook : Book.HyperLiquidOrderBook)
| Errored (handler : nat)
| Scheduled (t : Timer).

(** The private fields of [HyperLiquidAPI]. *)
Record Api := mkApi {
  ws : option nat;
  reconnectAttempts : Z;
  currentCoin : option string
}.

Definition maxReconnectAttempts : Z := 5.

Record World := mkWorld {
  api : Api;
  sockets : list Socket;
  timers : list (option Timer);
  log : list Effect
}.

(** A new instance, before any call. *)
Definition initial : World := mkWorld (mkApi None 0 None) [] [] [].

Definition readyStateOf (w : World) (s : nat) : option ReadyState :=
  option_map readyState (nth_error (sockets w) s).

Fixpoint update {T} (l : list T) (n : nat) (f : T -> T) : list T :=
  match l, n with
  | [], _ => []
  | x :: l', O => f x :: l'
  | x :: l', S n' => x :: update l' n' f
  end.

Definition setReadyState (r : ReadyState) (s : Socket) : Socket :=
  mkSocket r (coin s) (callbacks s).

(** [socket.close()]: a socket that is connecting or open starts closing;
    otherwise nothing happens. *)
Definition close (s : Socket) : Socket :=
  match readyState s with
  | CONNECTING | OPEN => setReadyState CLOSING s
  | CLOSING | CLOSED => s
  end.

Definition isCurrentCoin (a : Api) (c : string) : bool :=
  match currentCoin a with
  | Some c' => String.eqb c' c
  | None => false
  end.

Definition schedule (t : Timer) (w : World) : World :=
  mkWorld (api w) (sockets w) (timers w ++ [Some t]) (log w ++ [Scheduled t]).

Definition emit (e : Effect) (w : World) : World :=
  mkWorld (api w) (sockets w) (timers w) (log w ++ [e]).

(** [if (this.ws) { this.ws.close(); this.ws = null; }] *)
Definition closeCurrent (w : World) : World :=
  match ws (api w) with
  | Some s =>
      mkWorld (mkApi None (reconnectAttempts (api w)) (currentCoin (api w)))
              (update (sockets w) s close) (timers w) (log w)
  | None => w
  end.

Definition connectWebSocket (c : string) (cb : Callbacks) (w : World) : World :=
  let w1 := mkWorld (mkApi (ws (api w)) (reconnectAttempts (api w)) (Some c))
                    (sockets w) (timers w) (log w) in
  let w2 := closeCurrent w1 in
  mkWorld (mkApi (Some (List.length (sockets w2))) (reconnectAttempts (api w2))
                 (currentCoin (api w2)))
          (sockets w2 ++ [mkSocket CONNECTING c cb]) (timers w2) (log w2).

Definition reconnect (c : string) (cb : Callbacks) (w : World) : World :=
  if reconnectAttempts (api w) <? maxReconnectAttempts then
    let attempts := reconnectAttempts (api w) + 1 in
    schedule (Reconnect c cb (1000 * attempts))
      (mkWorld (mkApi (ws (api w)) attempts (currentCoin (api w)))
               (sockets w) (timers w) (log w))
  else w.

Definition disconnect (w : World) : World :=
  let w1 := closeCurrent w in
  mkWorld (mkApi (ws (api w1)) (reconnectAttempts (api w1)) None)
          (sockets w1) (timers w1) (log w1).

Definition isConnectedTo (c : string) (w : World) : bool :=
  match ws (api w) with
  | Some s =>
      match readyStateOf w s with
      | Some OPEN => isCurrentCoin (api w) c
      | _ => false
      end
  | None => false
  end.

(** The closure [sendSubscription] of the [onopen] handler for [coin]. *)
Definition sendSubscription (c : string) (w : World) : World :=
  match ws (api w) with
  | Some s =>
      match readyStateOf w s with
      | Some OPEN =>
          if isCurrentCoin (api w) c then emit (Sent s c) w
          else w
      | _ => if isCurrentCoin (api w) c then schedule (Resubscribe c 50) w else w
      end
  | None => if isCurrentCoin (api w) c then schedule (Resubscribe c 50) w else w
  end.

Definition onopen (s : Socket) (w : World) : World :=
  sendSubscription (coin s)
    (mkWorld (mkApi (ws (api w)) 0 (currentCoin (api w)))
             (sockets w) (timers w) (log w)).

(** [None] stands for an [event.data] on which [JSON.parse] or the read of
    [data.channel] throws: the handler catches and does nothing. *)
Definition onmessage (s : Socket) (m : option Message) (w : World) : World :=
  match m with
  | Some (mkMessage ch (Some orderBook)) =>
      if String.eqb ch "l2Book" && isCurrentCoin (api w) (coin s)
      then emit (Updated (callbacks s) orderBook) w
      else w
  | _ => w
  end.

Definition onerror (s : Socket) (w : World) : World :=
  match onError (callbacks s) with
  | Some handler => emit (Errored handler) w
  | None => w
  end.

Definition onclose (s : Socket) (w : World) : World :=
  reconnect (coin s) (callbacks s) w.

(** What the page and the browser do. *)
Inductive Event :=
| CallConnect (coin : string) (cb : Callbacks)
| CallDisconnect
| Opened (socket : nat)
| Received (socket : nat) (m : option Message)
| Failed (socket : nat)
| Closed (socket : nat)
| Fired (timer : nat).

Definition setSocketState (s : nat) (r : ReadyState) (w : World) : World :=
  mkWorld (api w) (update (sockets w) s (setReadyState r)) (timers w) (log w).

Definition clearTimer (k : nat) (w : World) : World :=
  mkWorld (api w) (sockets w) (update (timers w) k (fun _ => None)) (log w).

(** One event.  The browser opens a socket that is connecting, delivers
    messages on an open socket, closes a socket that is not yet closed and
    fires a pending timer once; an event that cannot happen changes
    nothing. *)
Definition step (w : World) (e : Event) : World :=
  match e with
  | CallConnect c cb => connectWebSocket c cb w
  | CallDisconnect => disconnect w
  | Opened s =>
      match nth_error (sockets w) s with
      | Some sock =>
          match readyState sock with
          | CONNECTING => onopen sock (setSocketState s OPEN w)
          | _ => w
          end
      | None => w
      end
  | Received s m =>
      match nth_error (sockets w) s with
      | Some sock =>
          match readyState sock with
          | OPEN => onmessage sock m w
          | _ => w
          end
      | None => w
      end
  | Failed s =>
      match nth_error (sockets w) s with
      | Some sock => onerror sock w
      | None => w
      end
  | Closed s =>
      match nth_error (sockets w) s with
      | Some sock =>
          match readyState sock with
          | CLOSED => w
          | _ => onclose sock (setSocketState s CLOSED w)
          end
      | None => w
      end
  | Fired k =>
      match nth_error (timers w) k with
      | Some (Some (Reconnect c cb _)) => connectWebSocket c cb (clearTimer k w)
      | Some (Some (Resubscribe c _)) => sendSubscription c (clearTimer k w)
      | _ => w
      end
  end.

Definition run (w : World) (events : list Event) : World := fold_left step events w.

(** A socket that is connecting or open. *)
Definition live (s : Socket) : bool :=
  match readyState s with
  | CONNECTING | OPEN => true
  | CLOSING | CLOSED => false
  end.

(** What holds of the instance and the sockets after any events:
    the attempts stay between 0 and the maximum; a socket that is connecting
    or open is the one [ws] holds; and [currentCoin] is the coin of the
    socket [ws] holds. *)
Definition invariant (w : World) : Prop :=
  0 <= reconnectAttempts (api w) <= maxReconnectAttempts /\
  (forall s sock, nth_error (sockets w) s = Some sock -> live sock = true ->
                  ws (api w) = Some s) /\
  (forall s, ws (api w) = Some s ->
             exists sock, nth_error (sockets w) s = Some sock /\
                          currentCoin (api w) = Some (coin sock)).

Definition isReconnect (e : Effect) : bool :=
  match e with
  | Scheduled (Reconnect _ _ _) => true
  | _ => false
  end.

Definition isOpened (e : Event) : bool :=
  match e with
  | Opened _ => true
  | _ => false
  end.

End Connection.

(** ** The trades page: [handleSubmit] and what the page shows

    The component holds five state variables.  [handleSubmit] runs in two
    parts, before and after [await api.getUserFills(userAddress)]; each part
    is the list of the setter calls it makes, in order.  A render may see the
    state after any of them. *)

Module TradesPage.

Record State := mkState {
  userAddress : string;
  trades : list Trade.CompletedTrade;
  loading : bool;
  error : option string;
  hasSearched : bool
}.

(** [useState('')], [useState([])], [useState(false)], [useState(null)],
    [useState(false)]. *)
Definition initial : State := mkState "" [] false None false.

Inductive Setter :=
| SetUserAddress (value : string)
| SetTrades (value : list Trade.CompletedTrade)
| SetLoading (value : bool)
| SetError (value : option string)
| SetHasSearched (value : bool).

Definition set (st : State) (s : Setter) : State :=
  match s with
  | SetUserAddress v => mkState v (trades st) (loading st) (error st) (hasSearched st)
  | SetTrades v => mkState (userAddress st) v (loading st) (error st) (hasSearched st)
  | SetLoading v => mkState (userAddress st) (trades st) v (error st) (hasSearched st)
  | SetError v => mkState (userAddress st) (trades st) (loading st) v (hasSearched st)
  | SetHasSearched v => mkState (userAddress st) (trades st) (loading st) (error st) v
  end.

(** [!userAddress.trim()]: the trimmed text is empty when every character
    is white space. *)
Fixpoint isBlank (s : string) : bool :=
  match s with
  | EmptyString => true
  | String c s' => isWhiteSpace c && isBlank s'
  end.

(** A string in a condition: the empty string is falsy. *)
Definition truthy (s : option string) : bool :=
  match s with
  | Some text => negb (String.eqb text "")
  | None => false
  end.

(** How the awaited fetch ends: with the fills, or with an exception, whose
    message is absent when it is not an [Error]. *)
Inductive Outcome :=
| Fetched (fills : list Fill.HyperLiquidUserFill)
| Threw (message : option string).

Section Environment.
Variable toLocaleString : Z -> string.
Variable getTime : string -> option Z.

(** [handleSubmit] up to the [await]. *)
Definition submitted (st : State) : list Setter :=
  if isBlank (userAddress st)
  then [SetError (Some "Please enter a user address"%string)]
  else [SetLoading true; SetError None; SetTrades []; SetHasSearched true].

(** [handleSubmit] after the [await]. *)
Definition settled (o : Outcome) : list Setter :=
  match o with
  | Fetched fills =>
      let completedTrades :=
        Reconstructor.processCompletedTrades toLocaleString getTime fills in
      match completedTrades with
      | [] =>
          [SetError (Some "No completed trades found for this user address. The user may not have any closed positions."%string);
           SetLoading false]
      | _ => [SetTrades completedTrades; SetLoading false]
      end
  | Threw message =>
      [SetError
         (Some ("Failed to fetch trades data: "
                ++ match message with Some m => m | None => "Unknown error" end
                ++ ". Please check the user address and try again.")%string);
       SetLoading false]
  end.

(** The states a render can see: the initial one; after the input changes;
    after any number of the setter calls of either part of [handleSubmit]. *)
Inductive reachable : State -> Prop :=
| reach_initial : reachable initial
| reach_typed st value : reachable st -> reachable (set st (SetUserAddress value))
| reach_submitted st k :
    reachable st -> reachable (fold_left set (firstn k (submitted st)) st)
| reach_settled st o k :
    reachable st -> reachable (fold_left set (firstn k (settled o)) st).

End Environment.

(** The four conditional blocks of the page: [{error && ...}],
    [{loading && ...}], [{trades.length > 0 && ...}] and
    [{!loading && !error && trades.length === 0 && hasSearched && ...}]. *)
Definition showsError (st : State) : bool := truthy (error st).
Definition showsLoading (st : State) : bool := loading st.
Definition showsTrades (st : State) : bool := (0 <? List.length (trades st))%nat.
Definition showsNoTradesFound (st : State) : bool :=
  negb (loading st) && negb (truthy (error st))
  && (List.length (trades st) =? 0)%nat && hasSearched st.

End TradesPage.

(** ** Vocabulary of the properties *)

Module Props.

Import Reconstructor.

(** A fill given by the fields the spec's examples list; the other fields
    hold fixed placeholder values. *)
Definition fill (coin sz : string) (side : Fill.Side) (time : Z)
    (closedPnl : string) : Fill.HyperLiquidUserFill :=
  Fill.mk coin "1" sz side time "0" "" closedPnl "0x0" 0 false "0".

(** The fields of a fill that [processCompletedTrades] reads. *)
Definition agree (f g : Fill.HyperLiquidUserFill) : Prop :=
  Fill.coin f = Fill.coin g /\ Fill.sz f = Fill.sz g /\
  Fill.side f = Fill.side g /\ Fill.time f = Fill.time g /\
  Fill.closedPnl f = Fill.closedPnl g.

(** A fill with every other field blanked. *)
Definition relevant (f : Fill.HyperLiquidUserFill) : Fill.HyperLiquidUserFill :=
  Fill.mk (Fill.coin f) "" (Fill.sz f) (Fill.side f) (Fill.time f) "" ""
          (Fill.closedPnl f) "" 0 false "".

(** An entry of the coin map with its fills blanked likewise. *)
Definition relevantEntry (entry : string * list Fill.HyperLiquidUserFill) :=
  (fst entry, map relevant (snd entry)).

(** The scan's variables once the fills of [l] are applied with no closing
    test in between. *)
Definition positionAfter (p : Position) (l : list Fill.HyperLiquidUserFill) : Position :=
  fold_left applyFill l p.

(** No fill of [l], scanned from [p], closes the position. *)
Fixpoint staysOpen (p : Position) (l : list Fill.HyperLiquidUserFill) : bool :=
  match l with
  | [] => true
  | f :: l' => negb (closes (applyFill p f)) && staysOpen (applyFill p f) l'
  end.

(** The variables as an emission leaves them: [openTime], [totalPnL] and
    [positionDirection] are reset, [positionSize] is kept. *)
Definition cleared (p : Position) : Position :=
  mkPosition (positionSize p) None 0%float None.

(** [cycle p body last]: scanned from [p], the fills [body ++ [last]] are one
    round trip: the position closes on [last] and not before. *)
Definition cycle (p : Position) (body : list Fill.HyperLiquidUserFill)
    (last : Fill.HyperLiquidUserFill) : Prop :=
  staysOpen p body = true /\ closes (applyFill (positionAfter p body) last) = true.


Definition directionOf (f : Fill.HyperLiquidUserFill) : Trade.Direction :=
  match Fill.side f with Fill.B => Trade.long | Fill.A => Trade.short end.

(** The fills of one coin, in input order. *)
Definition coinFillsOf (coin : string) (fills : list Fill.HyperLiquidUserFill)
    : list Fill.HyperLiquidUserFill :=
  filter (fun f => String.eqb coin (Fill.coin f)) fills.

(** The fills of the coins other than [coin], in input order. *)
Definition otherCoinFills (coin : string) (fills : list Fill.HyperLiquidUserFill)
    : list Fill.HyperLiquidUserFill :=
  filter (fun f => negb (String.eqb coin (Fill.coin f))) fills.

(** [coinMap.get(coin)], the empty array standing for [undefined]. *)
Fixpoint mapGet (coinMap : list (string * list Fill.HyperLiquidUserFill))
    (coin : string) : list Fill.HyperLiquidUserFill :=
  match coinMap with
  | [] => []
  | (c, coinFills) :: rest => if String.eqb c coin then coinFills else mapGet rest coin
  end.

(** The key of a fill in the permutation claim: its coin and timestamp. *)
Definition coinTime (f : Fill.HyperLiquidUserFill) : string * Z :=
  (Fill.coin f, Fill.time f).

(** The trades one coin contributes: the scan of its fills, sorted by time,
    from an empty array. *)
Definition tradesOf (toLocaleString : Z -> string) (coin : string)
    (coinFills : list Fill.HyperLiquidUserFill) : list Trade.CompletedTrade :=
  snd (fold_left (scanFill toLocaleString coin) (sort byTime coinFills) (flat, [])).

(** The coins of [fills], each once, in order of first appearance. *)
Definition coinsOf (fills : list Fill.HyperLiquidUserFill) : list string :=
  map fst (groupByCoin fills).

(** [orders] is one side of [book] and [rows] the rows returned for it. *)
Definition isSide (book : Book.HyperLiquidOrderBook) (precision : float)
    (orders : list Level.HyperLiquidOrder) (rows : list Row.Order) : Prop :=
  (orders = fst (Book.levels book) /\
   rows = View.bids (OrderBook.convertOrderBook book precision)) \/
  (orders = snd (Book.levels book) /\
   rows = View.asks (OrderBook.convertOrderBook book precision)).

(** The sort key of the final sort. *)
Definition openingKey (getTime : string -> option Z) (t : Trade.CompletedTrade) : option Z :=
  getTime (Trade.openingTime t).

(** The same key as an integer that grows as the opening time decreases, so
    that the final sort is ascending in it. *)
Definition descKey (getTime : string -> option Z) (t : Trade.CompletedTrade) : Z :=
  match openingKey getTime t with Some k => - k | None => 0 end.

End Props.

Import Props.

(** * Properties *)

(** ** Facts about binary64 arithmetic

    Derived from the specification of the primitive operations
    ([FloatAxioms]) and the reference implementation in [SpecFloat]. *)

Module FloatFacts.

Lemma digits2_pos_bounds p :
  2 ^ (Zpos (digits2_pos p) - 1) <= Zpos p < 2 ^ Zpos (digits2_pos p).
Proof.
  induction p as [p IH|p IH|]; cbn [digits2_pos].
  - rewrite Pos2Z.inj_succ.
    replace (Z.succ (Zpos (digits2_pos p)) - 1) with (Z.succ (Zpos (digits2_pos p) - 1)) by lia.
    rewrite !Z.pow_succ_r by lia. lia.
  - rewrite Pos2Z.inj_succ.
    replace (Z.succ (Zpos (digits2_pos p)) - 1) with (Z.succ (Zpos (digits2_pos p) - 1)) by lia.
    rewrite !Z.pow_succ_r by lia. lia.
  - simpl. lia.
Qed.

Lemma digits2_pos_mono p q :
  (p <= q)%positive -> Zpos (digits2_pos p) <= Zpos (digits2_pos q).
Proof.
  intros Hpq.
  pose proof (digits2_pos_bounds p) as [Hp _].
  pose proof (digits2_pos_bounds q) as [_ Hq].
  assert (H : 2 ^ (Zpos (digits2_pos p) - 1) < 2 ^ Zpos (digits2_pos q)) by lia.
  apply Z.pow_lt_mono_r_iff in H; lia.
Qed.

(** A mantissa of [d] digits shifted left by [k] has [d + k] digits. *)
Lemma digits2_pos_iter_xO p k :
  Zpos (digits2_pos (Pos.iter xO p k)) = Zpos (digits2_pos p) + Zpos k.
Proof.
  revert p. induction k as [|k IH] using Pos.peano_ind; intros p.
  - cbn [Pos.iter digits2_pos]. lia.
  - rewrite Pos.iter_succ. cbn [digits2_pos]. rewrite !Pos2Z.inj_succ, IH. lia.
Qed.

Lemma iter_xO_value p k : Zpos (Pos.iter xO p k) = Zpos p * 2 ^ Zpos k.
Proof.
  induction k as [|k IH] using Pos.peano_ind.
  - cbn [Pos.iter]. lia.
  - rewrite Pos.iter_succ, Pos2Z.inj_succ, Z.pow_succ_r by lia.
    rewrite Pos2Z.inj_xO, IH. lia.
Qed.

Lemma shr_1_m mrs : 0 <= shr_m mrs -> shr_m (shr_1 mrs) = shr_m mrs / 2.
Proof.
  destruct mrs as [m r s]; cbn [shr_m]. intros Hm.
  rewrite <- Z.div2_div.
  destruct m as [|[p|p|]|p]; cbn [shr_1 shr_m]; try reflexivity; lia.
Qed.

Lemma iter_pos_shr_1_m n : forall mrs,
  0 <= shr_m mrs ->
  shr_m (iter_pos shr_1 n mrs) = shr_m mrs / 2 ^ Zpos n.
Proof.
  assert (Hnn : forall mrs, 0 <= shr_m mrs -> 0 <= shr_m (shr_1 mrs)).
  { intros mrs H. rewrite shr_1_m by assumption. apply Z.div_pos; lia. }
  induction n as [n IH|n IH|]; intros mrs Hm; cbn [iter_pos].
  - assert (H1 := Hnn _ Hm).
    assert (H2 : 0 <= shr_m (iter_pos shr_1 n (shr_1 mrs))).
    { rewrite IH by assumption. apply Z.div_pos; [assumption|]. apply Z.pow_pos_nonneg; lia. }
    rewrite IH, IH, shr_1_m by assumption.
    rewrite !Z.div_div by (try apply Z.pow_pos_nonneg; lia).
    f_equal.
    replace (Zpos n~1) with (Zpos n + Zpos n + 1) by lia.
    rewrite !Z.pow_add_r, Z.pow_1_r by lia. ring.
  - assert (H2 : 0 <= shr_m (iter_pos shr_1 n mrs)).
    { rewrite IH by assumption. apply Z.div_pos; [assumption|]. apply Z.pow_pos_nonneg; lia. }
    rewrite IH, IH by assumption.
    rewrite !Z.div_div by (try apply Z.pow_pos_nonneg; lia).
    f_equal.
    replace (Zpos n~0) with (Zpos n + Zpos n) by lia.
    rewrite !Z.pow_add_r by lia. ring.
  - rewrite shr_1_m by assumption. reflexivity.
Qed.


Local Abbreviation fexp64 := (fexp prec emax).
Local Abbreviation emin64 := (SpecFloat.emin prec emax).

Lemma fexp64_eq e : fexp64 e = Z.max (e - 53) (-1074).
Proof. reflexivity. Qed.

Lemma round_nearest_even_bounds m l :
  m <= round_nearest_even m l <= m + 1.
Proof.
  unfold round_nearest_even.
  destruct l as [|[| |]]; try destruct (Z.even m); lia.
Qed.

(** What [shr_fexp] leaves of a non-negative mantissa: the quotient by the
    power of two that brings the exponent up to [fexp]. *)
Lemma shr_fexp_exact m e :
  0 <= m ->
  let n := fexp64 (Zdigits2 m + e) - e in
  shr_m (fst (shr_fexp prec emax m e loc_Exact)) = m / 2 ^ Z.max n 0 /\
  snd (shr_fexp prec emax m e loc_Exact) = e + Z.max n 0.
Proof.
  intros Hm n. unfold shr_fexp, shr. fold n.
  destruct n as [|p|p]; cbn [fst snd shr_record_of_loc shr_m].
  - rewrite Z.div_1_r. lia.
  - rewrite iter_pos_shr_1_m by assumption. cbn [shr_m]. split; [reflexivity|lia].
  - rewrite Z.div_1_r. lia.
Qed.

(** Rounding to 53 digits leaves at least one digit. *)
Lemma shifted_mantissa_pos q e :
  -1074 <= e ->
  0 < Zpos q / 2 ^ Z.max (fexp64 (Zpos (digits2_pos q) + e) - e) 0.
Proof.
  intros He. rewrite fexp64_eq.
  pose proof (digits2_pos_bounds q) as [Hq _].
  set (d := Zpos (digits2_pos q)) in *.
  assert (Hd : 1 <= d) by (unfold d; lia).
  set (n := Z.max (Z.max (d + e - 53) (-1074) - e) 0).
  assert (Hn : 0 <= n <= d - 1) by lia.
  apply Z.div_str_pos. split; [apply Z.pow_pos_nonneg; lia|].
  apply Z.le_trans with (2 ^ (d - 1)); [|assumption].
  apply Z.pow_le_mono_r; lia.
Qed.

(** The result of rounding a positive mantissa at exponent [e1]: infinity,
    or a positive number whose exponent is at least the target [fexp], and
    whose mantissa at that exponent is at least the truncated one. *)
Lemma binary_round_aux_lower mz e1 :
  let e' := fexp64 (Zpos (digits2_pos mz) + e1) in
  -1074 <= e1 -> e1 <= e' ->
  binary_round_aux prec emax false (Zpos mz) e1 loc_Exact = S754_infinity false \/
  exists mr er,
    binary_round_aux prec emax false (Zpos mz) e1 loc_Exact = S754_finite false mr er /\
    (e' < er \/ (er = e' /\ Zpos mz / 2 ^ (e' - e1) <= Zpos mr)).
Proof.
  intros e' He1 He'. unfold binary_round_aux.
  pose proof (shr_fexp_exact (Zpos mz) e1 ltac:(lia)) as [Hm1 Hx1].
  pose proof (shifted_mantissa_pos mz e1 He1) as Hpos1.
  cbn [Zdigits2] in Hm1, Hx1. fold e' in Hm1, Hx1, Hpos1.
  replace (Z.max (e' - e1) 0) with (e' - e1) in * by lia.
  destruct (shr_fexp prec emax (Zpos mz) e1 loc_Exact) as [mrs' e'0].
  cbn [fst snd] in Hm1, Hx1. subst e'0.
  replace (e1 + (e' - e1)) with e' by lia.
  pose proof (round_nearest_even_bounds (shr_m mrs') (loc_of_shr_record mrs')) as Hr.
  set (m'' := round_nearest_even (shr_m mrs') (loc_of_shr_record mrs')) in *.
  assert (He'min : -1074 <= e') by (unfold e'; rewrite fexp64_eq; lia).
  destruct m'' as [|q|q] eqn:Eq; try lia.
  pose proof (shr_fexp_exact (Zpos q) e' ltac:(lia)) as [Hm2 Hx2].
  pose proof (shifted_mantissa_pos q e' He'min) as Hpos2.
  cbn [Zdigits2] in Hm2, Hx2.
  set (n2 := Z.max (fexp64 (Zpos (digits2_pos q) + e') - e') 0) in *.
  destruct (shr_fexp prec emax (Zpos q) e' loc_Exact) as [mrs'' e''].
  cbn [fst snd] in Hm2, Hx2. rewrite Hm2. subst e''.
  destruct (Zpos q / 2 ^ n2) as [|mr|mr] eqn:Emr; try lia.
  destruct (e' + n2 <=? emax - prec); [right|left; reflexivity].
  exists mr, (e' + n2). split; [reflexivity|].
  assert (Hn2 : 0 <= n2) by (unfold n2; lia).
  destruct (Z.eq_dec n2 0) as [Hz|Hz]; [right|left; lia].
  split; [lia|]. rewrite Hz in Emr. rewrite Z.div_1_r in Emr. lia.
Qed.

Lemma shl_align_spec p e t :
  snd (shl_align p e t) = Z.min e t /\
  Zpos (fst (shl_align p e t)) = Zpos p * 2 ^ (e - Z.min e t) /\
  Zpos (digits2_pos (fst (shl_align p e t))) + snd (shl_align p e t)
  = Zpos (digits2_pos p) + e.
Proof.
  unfold shl_align. destruct (t - e) as [|d|d] eqn:E; cbn [fst snd].
  - replace (Z.min e t) with e by lia. rewrite Z.sub_diag. lia.
  - replace (Z.min e t) with e by lia. rewrite Z.sub_diag. lia.
  - replace (Z.min e t) with t by lia.
    replace (e - t) with (Zpos d) by lia.
    rewrite iter_xO_value, digits2_pos_iter_xO. lia.
Qed.

Lemma valid_finite_inv s m e :
  valid_binary (S754_finite s m e) = true ->
  fexp64 (Zpos (digits2_pos m) + e) = e /\ e <= 971.
Proof.
  cbn [SpecFloat.valid_binary]. unfold bounded, canonical_mantissa.
  intros H. apply andb_prop in H as [H1 H2].
  apply Z.eqb_eq in H1. apply Z.leb_le in H2. split; [assumption|].
  exact H2.
Qed.

(** Adding two positive finite doubles gives at least the first. *)
Lemma SFadd_finite_lower mx ex my ey :
  valid_binary (S754_finite false mx ex) = true ->
  valid_binary (S754_finite false my ey) = true ->
  SFleb (S754_finite false mx ex)
        (SF64add (S754_finite false mx ex) (S754_finite false my ey)) = true /\
  SFleb (S754_zero false)
        (SF64add (S754_finite false mx ex) (S754_finite false my ey)) = true.
Proof.
  intros Vx Vy.
  apply valid_finite_inv in Vx as [Cx _]. apply valid_finite_inv in Vy as [Cy _].
  rewrite fexp64_eq in Cx, Cy.
  unfold SF64add, SFadd. cbn [cond_Zopp].
  set (ez := Z.min ex ey).
  pose proof (shl_align_spec mx ex ez) as (_ & Hvx & Hdx).
  pose proof (shl_align_spec my ey ez) as (_ & Hvy & _).
  replace (Z.min ex ez) with ez in Hvx by lia.
  set (mx' := fst (shl_align mx ex ez)) in *.
  set (my' := fst (shl_align my ey ez)) in *.
  assert (Hsx : snd (shl_align mx ex ez) = ez).
  { pose proof (shl_align_spec mx ex ez) as (H & _). lia. }
  rewrite Hsx in Hdx.
  change (Zpos mx' + Zpos my') with (Zpos (mx' + my')).
  cbn [binary_normalize]. unfold binary_round.
  set (p := (mx' + my')%positive).
  set (t := fexp64 (Zpos (digits2_pos p) + ez)).
  pose proof (shl_align_spec p ez t) as (Hs & Hv & Hd).
  destruct (shl_align p ez t) as [mz e1]. cbn [fst snd] in Hs, Hv, Hd.
  assert (Hdp : Zpos (digits2_pos mx') <= Zpos (digits2_pos p)).
  { apply digits2_pos_mono. unfold p. lia. }
  assert (Ht : t = Z.max (Zpos (digits2_pos p) + ez - 53) (-1074)) by reflexivity.
  assert (He1 : -1074 <= e1) by lia.
  pose proof (binary_round_aux_lower mz e1 He1) as Hround.
  rewrite Hd in Hround. fold t in Hround.
  destruct (Hround ltac:(lia)) as [-> | (mr & er & -> & Hcmp)].
  - split; reflexivity.
  - split; [|reflexivity].
    unfold SFleb, SFcompare.
    destruct (Z.compare_spec ex er) as [Heq|Hlt|Hgt]; [|reflexivity|exfalso; lia].
    assert (Hmr : Zpos mx <= Zpos mr).
    { destruct Hcmp as [Hc|[Hc Hq]]; [lia|].
      apply Z.le_trans with (Zpos mz / 2 ^ (t - e1)); [|assumption].
      apply Z.div_le_lower_bound; [apply Z.pow_pos_nonneg; lia|].
      rewrite <- Hs in Hv. rewrite Hv.
      assert (Hpx : Zpos mx * 2 ^ (ex - ez) <= Zpos p) by (unfold p; lia).
      replace (t - e1) with ((ex - ez) + (ez - e1)) by lia.
      rewrite Z.pow_add_r by lia.
      assert (0 < 2 ^ (ez - e1)) by (apply Z.pow_pos_nonneg; lia).
      nia. }
    rewrite Pos.compare_cont_spec. cbn [Pos.switch_Eq].
    destruct (Pos.compare_spec mx mr); try reflexivity. lia.
Qed.


Lemma SFleb_refl_finite s m e : SFleb (S754_finite s m e) (S754_finite s m e) = true.
Proof.
  unfold SFleb, SFcompare. rewrite Z.compare_refl, Pos.compare_cont_refl.
  now destruct s.
Qed.

(** On doubles: adding a non-negative number to a non-negative number gives
    a non-negative number that is at least the first.  Neither is NaN, which
    fails every comparison. *)
Lemma add_nonneg_mono (x s : float) :
  (0 <=? x)%float = true -> (0 <=? s)%float = true ->
  (x <=? x + s)%float = true /\ (0 <=? x + s)%float = true.
Proof.
  rewrite !leb_spec, add_spec.
  change (Prim2SF 0) with (S754_zero false).
  pose proof (Prim2SF_valid x) as Vx. pose proof (Prim2SF_valid s) as Vs.
  destruct (Prim2SF x) as [sx|sx| |sx mx ex]; try discriminate;
    destruct (Prim2SF s) as [sy|sy| |sy my ey]; try discriminate;
    try destruct sx; try destruct sy; try discriminate; intros _ _;
    try (split; reflexivity).
  - split; [apply SFleb_refl_finite|reflexivity].
  - split; [apply SFleb_refl_finite|reflexivity].
  - apply SFadd_finite_lower; assumption.
Qed.

Lemma SFcompare_antisym x y :
  SFcompare y x = option_map CompOpp (SFcompare x y).
Proof.
  destruct x as [sx|sx| |sx mx ex], y as [sy|sy| |sy my ey]; cbn [SFcompare option_map];
    try reflexivity;
    try (destruct sx; reflexivity); try (destruct sy; reflexivity);
    try (destruct sx, sy; reflexivity).
  rewrite (Z.compare_antisym ex ey), !Pos.compare_cont_spec.
  cbn [Pos.switch_Eq]. rewrite (Pos.compare_antisym mx my).
  destruct sx, sy; cbn [CompOpp]; try reflexivity;
    destruct (ex ?= ey); cbn [CompOpp]; try reflexivity;
    destruct (mx ?= my)%positive; reflexivity.
Qed.

(** [a <= b] excludes [b < a]. *)
Lemma leb_not_ltb (a b : float) :
  (a <=? b)%float = true -> (b <? a)%float = false.
Proof.
  rewrite leb_spec, ltb_spec. unfold SFleb, SFltb.
  rewrite (SFcompare_antisym (Prim2SF a) (Prim2SF b)).
  destruct (SFcompare (Prim2SF a) (Prim2SF b)) as [[| |]|]; cbn; congruence.
Qed.

(** NaN absorbs addition and subtraction. *)
Lemma add_nan_r (x : float) : (x + nan)%float = nan.
Proof.
  apply Prim2SF_inj. rewrite add_spec.
  change (Prim2SF nan) with S754_nan.
  now destruct (Prim2SF x).
Qed.

Lemma sub_nan_r (x : float) : (x - nan)%float = nan.
Proof.
  apply Prim2SF_inj. rewrite sub_spec.
  change (Prim2SF nan) with S754_nan.
  now destruct (Prim2SF x).
Qed.

Lemma add_nan_l (x : float) : (nan + x)%float = nan.
Proof.
  apply Prim2SF_inj. rewrite add_spec.
  change (Prim2SF nan) with S754_nan. reflexivity.
Qed.

Lemma sub_nan_l (x : float) : (nan - x)%float = nan.
Proof.
  apply Prim2SF_inj. rewrite sub_spec.
  change (Prim2SF nan) with S754_nan. reflexivity.
Qed.

End FloatFacts.

Import FloatFacts.

(** ** The order book *)

Lemma formatOrdersFrom_length runningTotal orders :
  List.length (OrderBook.formatOrdersFrom runningTotal orders) = List.length orders.
Proof.
  revert runningTotal.
  induction orders as [|order rest IH]; intros; simpl; [reflexivity|].
  now rewrite IH.
Qed.

Lemma formatOrdersFrom_nth orders : forall runningTotal i level,
  nth_error orders i = Some level ->
  nth_error (OrderBook.formatOrdersFrom runningTotal orders) i =
  Some (Row.mk (parseFloat (Level.px level)) (parseFloat (Level.sz level))
          (fold_left (fun acc order => (acc + parseFloat (Level.sz order))%float)
                     (firstn (S i) orders) runningTotal)).
Proof.
  induction orders as [|order rest IH]; intros runningTotal i level Hi.
  - destruct i; discriminate.
  - destruct i as [|i]; simpl in Hi.
    + injection Hi as ->. reflexivity.
    + cbn [OrderBook.formatOrdersFrom nth_error].
      rewrite (IH _ _ _ Hi). reflexivity.
Qed.

(** The decimal texts the claims use, as doubles (written in hexadecimal,
    which is exact). *)
Lemma parseFloat_samples :
  parseFloat "29.40" = 0x1.d666666666666p+4%float /\
  parseFloat "29.50" = 29.5%float /\
  parseFloat "29.45" = 0x1.d733333333333p+4%float /\
  parseFloat "0.0001" = 0x1.a36e2eb1c432dp-14%float /\
  parseFloat "5.0" = 5%float /\
  parseFloat "-1" = (-1)%float /\
  parseFloat "abc" = nan /\
  parseFloat "" = nan.
Proof. repeat split; vm_compute; reflexivity. Qed.

(** C7. With both sides non-empty the mid price is the sum of the two best
    prices halved; for a best bid at 29.40 and a best ask at 29.50 it is the
    double nearest to 29.45, the value of the literal [29.45]. *)
Theorem convertOrderBook_midPrice :
  (forall coin time precision bid0 bids ask0 asks,
     View.midPrice
       (OrderBook.convertOrderBook
          (Book.mk coin (bid0 :: bids, ask0 :: asks) time) precision)
     = ((parseFloat (Level.px bid0) + parseFloat (Level.px ask0)) / 2)%float)
  /\
  (forall coin time precision bidSz askSz,
     let midPrice :=
       View.midPrice
         (OrderBook.convertOrderBook
            (Book.mk coin ([Level.mk "29.40" bidSz], [Level.mk "29.50" askSz]) time)
            precision) in
     midPrice = parseFloat "29.45" /\ midPrice = 0x1.d733333333333p+4%float).
Proof.
  split; intros; unfold OrderBook.convertOrderBook; cbn [Book.levels View.midPrice].
  - reflexivity.
  - cbn [Level.px]. split; vm_compute; reflexivity.
Qed.

(** C8 (as amended). With an empty side the mid price is the number 0: the
    function returns and the value is a plain zero. *)
Theorem convertOrderBook_midPrice_empty_side book precision :
  fst (Book.levels book) = [] \/ snd (Book.levels book) = [] ->
  View.midPrice (OrderBook.convertOrderBook book precision) = 0%float.
Proof.
  unfold OrderBook.convertOrderBook.
  destruct (Book.levels book) as [bids asks]; cbn [fst snd View.midPrice].
  intros [-> | ->]; [reflexivity|].
  now destruct bids.
Qed.

Lemma convertOrderBook_midPrice_empty_side_witness :
  View.midPrice
    (OrderBook.convertOrderBook
       (Book.mk "AVAX" ([], [Level.mk "29.50" "100"]) 0) 3%float) = 0%float.
Proof.
  apply (convertOrderBook_midPrice_empty_side
           (Book.mk "AVAX" ([], [Level.mk "29.50" "100"]) 0) 3%float).
  left. reflexivity.
Defined.

(** C8, the claim as stated fails: the mid price of a book with an empty
    side is the mid price of a book whose best bid and best ask are both
    priced 0, so the sentinel cannot be told from a real zero price. *)
Lemma convertOrderBook_sentinel_is_zero_price :
  View.midPrice
    (OrderBook.convertOrderBook (Book.mk "AVAX" ([], [Level.mk "0" "1"]) 0) 3%float)
  = View.midPrice
      (OrderBook.convertOrderBook
         (Book.mk "AVAX" ([Level.mk "0" "1"], [Level.mk "0" "1"]) 0) 3%float).
Proof. vm_compute. reflexivity. Qed.

Lemma firstn_S_snoc {T} (l : list T) : forall n x,
  nth_error l n = Some x -> firstn (S n) l = firstn n l ++ [x].
Proof.
  induction l as [|y l IH]; intros [|n] x H; try discriminate.
  - injection H as ->. reflexivity.
  - cbn [nth_error] in H. change (firstn (S (S n)) (y :: l)) with (y :: firstn (S n) l).
    rewrite (IH _ _ H). reflexivity.
Qed.

Lemma runningSum_S orders n level :
  nth_error orders n = Some level ->
  OrderBook.runningSum (S n) orders
  = (OrderBook.runningSum n orders + parseFloat (Level.sz level))%float.
Proof.
  intros H. unfold OrderBook.runningSum.
  rewrite (firstn_S_snoc _ _ _ H), fold_left_app. reflexivity.
Qed.

Lemma runningSum_nonneg orders :
  (forall level, In level orders -> (0 <=? parseFloat (Level.sz level))%float = true) ->
  forall n, (0 <=? OrderBook.runningSum n orders)%float = true.
Proof.
  intros Hpos n. induction n as [|n IH].
  - reflexivity.
  - destruct (nth_error orders n) as [level|] eqn:E.
    + rewrite (runningSum_S _ _ _ E).
      apply add_nonneg_mono; [assumption|].
      apply Hpos. eapply nth_error_In; eassumption.
    + unfold OrderBook.runningSum in *.
      apply nth_error_None in E.
      rewrite firstn_all2 by lia. rewrite firstn_all2 in IH by assumption.
      assumption.
Qed.

Lemma formatOrders_rows orders :
  List.length (OrderBook.formatOrders orders) = List.length orders /\
  (forall i level,
     nth_error orders i = Some level ->
     nth_error (OrderBook.formatOrders orders) i =
     Some (Row.mk (parseFloat (Level.px level)) (parseFloat (Level.sz level))
                  (OrderBook.runningSum (S i) orders))) /\
  ((forall level, In level orders ->
      (0 <=? parseFloat (Level.sz level))%float = true) ->
   forall i r r',
     nth_error (OrderBook.formatOrders orders) i = Some r ->
     nth_error (OrderBook.formatOrders orders) (S i) = Some r' ->
     (Row.total r <=? Row.total r')%float = true).
Proof.
  assert (Hnth : forall i level,
     nth_error orders i = Some level ->
     nth_error (OrderBook.formatOrders orders) i =
     Some (Row.mk (parseFloat (Level.px level)) (parseFloat (Level.sz level))
                  (OrderBook.runningSum (S i) orders))).
  { intros i level H. apply formatOrdersFrom_nth. assumption. }
  split; [apply formatOrdersFrom_length|]. split; [exact Hnth|].
  intros Hpos i r r' Hr Hr'.
  destruct (nth_error orders i) as [level|] eqn:E.
  2:{ apply nth_error_None in E.
      assert (Hsome : nth_error (OrderBook.formatOrders orders) i <> None) by congruence.
      apply nth_error_Some in Hsome.
      unfold OrderBook.formatOrders in Hsome.
      rewrite formatOrdersFrom_length in Hsome. lia. }
  destruct (nth_error orders (S i)) as [level'|] eqn:E'.
  2:{ apply nth_error_None in E'.
      assert (Hsome : nth_error (OrderBook.formatOrders orders) (S i) <> None) by congruence.
      apply nth_error_Some in Hsome.
      unfold OrderBook.formatOrders in Hsome.
      rewrite formatOrdersFrom_length in Hsome. lia. }
  rewrite (Hnth _ _ E) in Hr. rewrite (Hnth _ _ E') in Hr'.
  injection Hr as <-. injection Hr' as <-. cbn [Row.total].
  rewrite (runningSum_S _ _ _ E').
  apply add_nonneg_mono.
  - apply runningSum_nonneg. assumption.
  - apply Hpos. eapply nth_error_In; eassumption.
Qed.

(** C9. On each side of the book there is one row per level, in the order
    given; the row of level [i] carries the parsed price and size of that
    level and, as [total], the running sum of the sizes of levels 0 to [i].
    When no size is negative, [total] never decreases from a row to the
    next. *)
Theorem convertOrderBook_cumulative book precision orders rows :
  isSide book precision orders rows ->
  List.length rows = List.length orders /\
  (forall i level,
     nth_error orders i = Some level ->
     nth_error rows i =
     Some (Row.mk (parseFloat (Level.px level)) (parseFloat (Level.sz level))
                  (OrderBook.runningSum (S i) orders))) /\
  ((forall level, In level orders ->
      (0 <=? parseFloat (Level.sz level))%float = true) ->
   forall i r r',
     nth_error rows i = Some r -> nth_error rows (S i) = Some r' ->
     (Row.total r <=? Row.total r')%float = true).
Proof.
  unfold isSide, OrderBook.convertOrderBook.
  destruct (Book.levels book) as [bids asks]; cbn [fst snd View.bids View.asks].
  intros [[-> ->] | [-> ->]]; apply formatOrders_rows.
Qed.

(** The book the page falls back to: sizes 100, 150 and 200 on each side. *)
Lemma convertOrderBook_cumulative_witness :
  let bids := [Level.mk "29.400" "100.00"; Level.mk "29.399" "150.00";
               Level.mk "29.398" "200.00"] in
  let asks := [Level.mk "29.500" "100.00"; Level.mk "29.501" "150.00";
               Level.mk "29.502" "200.00"] in
  let rows := View.asks (OrderBook.convertOrderBook (Book.mk "AVAX" (bids, asks) 0) 3%float) in
  List.length rows = 3%nat /\
  map Row.total rows = [100; 250; 450]%float /\
  forall i r r',
    nth_error rows i = Some r -> nth_error rows (S i) = Some r' ->
    (Row.total r <=? Row.total r')%float = true.
Proof.
  intros bids asks rows.
  destruct (convertOrderBook_cumulative (Book.mk "AVAX" (bids, asks) 0) 3%float asks rows)
    as (Hlen & _ & Hmono).
  - right. split; reflexivity.
  - split; [exact Hlen|]. split; [vm_compute; reflexivity|].
    apply Hmono. intros level Hin.
    repeat (destruct Hin as [<- | Hin]; [vm_compute; reflexivity|]).
    destruct Hin.
Defined.

(** ** The stable sort *)

Section SortFacts.
Context {T : Type}.
Variable compareFn : T -> T -> Z.

Lemma insert_perm x l : Permutation (insert compareFn x l) (x :: l).
Proof.
  induction l as [|y l IH]; cbn [insert]; [reflexivity|].
  destruct (compareFn x y <=? 0); [reflexivity|].
  rewrite IH. apply perm_swap.
Qed.

Lemma sort_perm l : Permutation (sort compareFn l) l.
Proof.
  induction l as [|x l IH]; cbn [sort fold_right]; [reflexivity|].
  fold (sort compareFn l). rewrite insert_perm. now constructor.
Qed.

(** A comparator that only looks at [g x] sorts [map g l] as it sorts [l]. *)
Lemma sort_map (g : T -> T) :
  (forall a b, compareFn (g a) (g b) = compareFn a b) ->
  forall l, sort compareFn (map g l) = map g (sort compareFn l).
Proof.
  intros Hg.
  assert (Hins : forall x l,
    insert compareFn (g x) (map g l) = map g (insert compareFn x l)).
  { intros x l. induction l as [|y l IH]; cbn [insert map]; [reflexivity|].
    rewrite Hg. destruct (compareFn x y <=? 0); cbn [map]; [reflexivity|].
    now rewrite IH. }
  induction l as [|x l IH]; [reflexivity|].
  cbn [map sort fold_right]. fold (sort compareFn (map g l)) (sort compareFn l).
  now rewrite IH, Hins.
Qed.
End SortFacts.

(** ** The reconstructor reads five fields of a fill *)

Lemma agree_relevant f g : agree f g -> relevant f = relevant g.
Proof.
  intros (Hc & Hs & Hd & Ht & Hp). unfold relevant. congruence.
Qed.

Lemma mapPush_relevant coinMap f :
  Reconstructor.mapPush (map relevantEntry coinMap) (relevant f)
  = map relevantEntry (Reconstructor.mapPush coinMap f).
Proof.
  induction coinMap as [|[coin coinFills] rest IH]; cbn [Reconstructor.mapPush map].
  - reflexivity.
  - cbn [relevantEntry fst snd]. change (Fill.coin (relevant f)) with (Fill.coin f).
    destruct (String.eqb coin (Fill.coin f)); cbn [map].
    + unfold relevantEntry at 2; cbn [fst snd]. now rewrite map_app.
    + now rewrite IH.
Qed.

Lemma groupByCoin_relevant fills :
  Reconstructor.groupByCoin (map relevant fills)
  = map relevantEntry (Reconstructor.groupByCoin fills).
Proof.
  unfold Reconstructor.groupByCoin.
  change (@nil (string * list Fill.HyperLiquidUserFill)) with (map relevantEntry []) at 1.
  generalize (@nil (string * list Fill.HyperLiquidUserFill)) as coinMap.
  induction fills as [|f fills IH]; intros coinMap; cbn [map fold_left]; [reflexivity|].
  rewrite mapPush_relevant. apply IH.
Qed.

Section ReadFields.
Variable toLocaleString : Z -> string.
Variable getTime : string -> option Z.

Lemma applyFill_relevant p f :
  Reconstructor.applyFill p (relevant f) = Reconstructor.applyFill p f.
Proof. reflexivity. Qed.

Lemma scanFill_relevant coin st f :
  Reconstructor.scanFill toLocaleString coin st (relevant f)
  = Reconstructor.scanFill toLocaleString coin st f.
Proof. reflexivity. Qed.

Lemma scan_relevant coin l : forall st,
  fold_left (Reconstructor.scanFill toLocaleString coin) (map relevant l) st
  = fold_left (Reconstructor.scanFill toLocaleString coin) l st.
Proof.
  induction l as [|f l IH]; intros st; cbn [map fold_left]; [reflexivity|].
  rewrite scanFill_relevant. apply IH.
Qed.

Lemma scanCoin_relevant completedTrades entry :
  Reconstructor.scanCoin toLocaleString completedTrades (relevantEntry entry)
  = Reconstructor.scanCoin toLocaleString completedTrades entry.
Proof.
  destruct entry as [coin coinFills].
  unfold Reconstructor.scanCoin, relevantEntry; cbn [fst snd].
  rewrite sort_map by reflexivity. now rewrite scan_relevant.
Qed.

Lemma processCompletedTrades_relevant fills :
  Reconstructor.processCompletedTrades toLocaleString getTime (map relevant fills)
  = Reconstructor.processCompletedTrades toLocaleString getTime fills.
Proof.
  unfold Reconstructor.processCompletedTrades.
  destruct fills as [|f fills]; [reflexivity|].
  cbn [map]. change (relevant f :: map relevant fills) with (map relevant (f :: fills)).
  rewrite groupByCoin_relevant. f_equal.
  generalize (@nil Trade.CompletedTrade) as completedTrades.
  induction (Reconstructor.groupByCoin (f :: fills)) as [|entry rest IH];
    intros completedTrades; cbn [map fold_left]; [reflexivity|].
  rewrite scanCoin_relevant. apply IH.
Qed.

Lemma processCompletedTrades_agree fills fills' :
  Forall2 agree fills fills' ->
  Reconstructor.processCompletedTrades toLocaleString getTime fills
  = Reconstructor.processCompletedTrades toLocaleString getTime fills'.
Proof.
  intros H.
  rewrite <- (processCompletedTrades_relevant fills),
          <- (processCompletedTrades_relevant fills').
  f_equal. induction H as [|f g l l' Hfg _ IH]; [reflexivity|].
  cbn [map]. now rewrite (agree_relevant _ _ Hfg), IH.
Qed.
End ReadFields.

(** C10. Two fill lists of equal length whose fills agree, position by
    position, on [coin], [sz], [side], [time] and [closedPnl] give the same
    trades: [px], [fee], [oid], [hash], [dir], [crossed] and [startPosition]
    are never read. *)
Theorem processCompletedTrades_reads_five_fields
    (toLocaleString : Z -> string) (getTime : string -> option Z) fills fills' :
  List.length fills = List.length fills' ->
  Forall2 agree fills fills' ->
  Reconstructor.processCompletedTrades toLocaleString getTime fills
  = Reconstructor.processCompletedTrades toLocaleString getTime fills'.
Proof. intros _. apply processCompletedTrades_agree. Qed.

Lemma processCompletedTrades_reads_five_fields_witness :
  EnUS.processCompletedTrades
    [Fill.mk "X" "10.5" "1" Fill.B 0 "0.0" "Open Long" "0" "0xabc" 7 true "0.01";
     Fill.mk "X" "11.5" "1" Fill.A 1000 "1.0" "Close Long" "5.0" "0xdef" 8 false "0.02"]
  = EnUS.processCompletedTrades
      [fill "X" "1" Fill.B 0 "0"; fill "X" "1" Fill.A 1000 "5.0"].
Proof.
  apply (processCompletedTrades_reads_five_fields EnUS.toLocaleString EnUS.getTime).
  - reflexivity.
  - repeat constructor.
Defined.

(** ** Grouping by coin *)

Lemma mapPush_keys coinMap f :
  In (Fill.coin f) (map fst (Reconstructor.mapPush coinMap f)) /\
  (forall c, In c (map fst (Reconstructor.mapPush coinMap f)) <->
             In c (map fst coinMap) \/ c = Fill.coin f) /\
  (NoDup (map fst coinMap) -> NoDup (map fst (Reconstructor.mapPush coinMap f))).
Proof.
  induction coinMap as [|[c coinFills] rest (IHin & IHiff & IHnd)];
    cbn [Reconstructor.mapPush map fst].
  - split; [now left|]. split.
    + intros c; cbn [In]. intuition congruence.
    + intros _. repeat constructor. intros [].
  - destruct (String.eqb_spec c (Fill.coin f)) as [->|Hne]; cbn [map fst].
    + split; [now left|]. split; [|trivial].
      intros c'; cbn [In]. intuition congruence.
    + split; [now right|]. split.
      * intros c'; cbn [In]. rewrite IHiff. tauto.
      * intros Hnd. inversion Hnd as [|? ? Hnotin Hnd']; subst.
        constructor; [|auto].
        rewrite IHiff. intros [H|H]; [contradiction|congruence].
Qed.

Lemma mapPush_get coinMap f c :
  mapGet (Reconstructor.mapPush coinMap f) c
  = if String.eqb c (Fill.coin f) then mapGet coinMap c ++ [f] else mapGet coinMap c.
Proof.
  induction coinMap as [|[k coinFills] rest IH]; cbn [Reconstructor.mapPush mapGet].
  - rewrite (String.eqb_sym (Fill.coin f) c).
    now destruct (String.eqb c (Fill.coin f)).
  - destruct (String.eqb_spec k (Fill.coin f)) as [->|Hne]; cbn [mapGet].
    + rewrite (String.eqb_sym (Fill.coin f) c).
      now destruct (String.eqb c (Fill.coin f)).
    + destruct (String.eqb_spec k c) as [Hkc|Hkc]; [|apply IH].
      destruct (String.eqb_spec c (Fill.coin f)); [congruence|reflexivity].
Qed.

Lemma fold_mapPush fills : forall coinMap,
  let coinMap' := fold_left Reconstructor.mapPush fills coinMap in
  (NoDup (map fst coinMap) -> NoDup (map fst coinMap')) /\
  (forall c, In c (map fst coinMap') <->
             In c (map fst coinMap) \/ exists f, In f fills /\ Fill.coin f = c) /\
  (forall c, mapGet coinMap' c = mapGet coinMap c ++ coinFillsOf c fills).
Proof.
  induction fills as [|f fills IH]; intros coinMap; cbn [fold_left].
  - split; [trivial|]. split.
    + intros c. split; [now left|]. intros [H|(f & [] & _)]. exact H.
    + intros c. cbn. now rewrite app_nil_r.
  - destruct (IH (Reconstructor.mapPush coinMap f)) as (Hnd & Hiff & Hget).
    destruct (mapPush_keys coinMap f) as (_ & Hkeys & Hnd0).
    split; [auto|]. split.
    + intros c. rewrite Hiff, Hkeys. cbn [In]. split.
      * intros [[H | Hc] | (g & Hg & Hc)];
          [now left | right; exists f; auto | right; exists g; auto].
      * intros [H | (g & [Hg | Hg] & Hc)];
          [now left; left | left; right; congruence | right; exists g; auto].
    + intros c. rewrite Hget, mapPush_get. unfold coinFillsOf. cbn [filter].
      destruct (String.eqb c (Fill.coin f)); [|reflexivity].
      now rewrite <- app_assoc.
Qed.

Lemma coinMap_entries coinMap :
  NoDup (map fst coinMap) ->
  coinMap = map (fun c => (c, mapGet coinMap c)) (map fst coinMap).
Proof.
  induction coinMap as [|[k coinFills] rest IH]; cbn [map fst mapGet]; [reflexivity|].
  intros Hnd. inversion Hnd as [|? ? Hnotin Hnd']; subst.
  rewrite String.eqb_refl. f_equal.
  rewrite (IH Hnd') at 1. apply map_ext_in.
  intros c Hc. destruct (String.eqb_spec k c) as [->|_]; [contradiction|reflexivity].
Qed.

Lemma coinsOf_NoDup fills : NoDup (coinsOf fills).
Proof.
  unfold coinsOf, Reconstructor.groupByCoin.
  apply (fold_mapPush fills []). constructor.
Qed.

Lemma coinsOf_In fills c :
  In c (coinsOf fills) <-> exists f, In f fills /\ Fill.coin f = c.
Proof.
  unfold coinsOf, Reconstructor.groupByCoin.
  destruct (fold_mapPush fills []) as (_ & Hiff & _).
  rewrite Hiff. cbn. tauto.
Qed.

Lemma groupByCoin_entries fills :
  Reconstructor.groupByCoin fills
  = map (fun c => (c, coinFillsOf c fills)) (coinsOf fills).
Proof.
  rewrite (coinMap_entries _ (coinsOf_NoDup fills)) at 1.
  apply map_ext. intros c. f_equal.
  unfold Reconstructor.groupByCoin.
  destruct (fold_mapPush fills []) as (_ & _ & Hget). apply Hget.
Qed.

(** ** The scan of one coin *)

Section Scan.
Variable toLocaleString : Z -> string.
Variable getTime : string -> option Z.

Local Abbreviation scanFill := (Reconstructor.scanFill toLocaleString).
Local Abbreviation closedTrade := (Reconstructor.closedTrade toLocaleString).

Lemma scanFill_open coin p completedTrades f :
  Reconstructor.closes (Reconstructor.applyFill p f) = false ->
  scanFill coin (p, completedTrades) f = (Reconstructor.applyFill p f, completedTrades).
Proof.
  unfold Reconstructor.scanFill, Reconstructor.closes.
  destruct (Reconstructor.openTime (Reconstructor.applyFill p f)); [|reflexivity].
  now intros ->.
Qed.

Lemma scanFill_close coin p completedTrades f :
  Reconstructor.closes (Reconstructor.applyFill p f) = true ->
  exists openT,
    Reconstructor.openTime (Reconstructor.applyFill p f) = Some openT /\
    scanFill coin (p, completedTrades) f
    = (cleared (Reconstructor.applyFill p f),
       completedTrades ++ [closedTrade coin (Reconstructor.applyFill p f) openT f]).
Proof.
  unfold Reconstructor.scanFill, Reconstructor.closes.
  destruct (Reconstructor.openTime (Reconstructor.applyFill p f)) as [openT|];
    [|discriminate].
  intros ->. exists openT. split; reflexivity.
Qed.

(** The position a fill leaves has the size [applyFill] computes, whether
    or not it closes. *)
Lemma scanFill_positionSize coin st f :
  Reconstructor.positionSize (fst (scanFill coin st f))
  = Reconstructor.positionSize (Reconstructor.applyFill (fst st) f).
Proof.
  destruct st as [p completedTrades]; cbn [fst].
  destruct (Reconstructor.closes (Reconstructor.applyFill p f)) eqn:E.
  - destruct (scanFill_close coin p completedTrades f E) as (openT & _ & ->).
    reflexivity.
  - now rewrite scanFill_open.
Qed.

(** The scan only appends to [completedTrades]. *)
Lemma scanFill_appends coin p completedTrades f :
  scanFill coin (p, completedTrades) f
  = (fst (scanFill coin (p, []) f), completedTrades ++ snd (scanFill coin (p, []) f)).
Proof.
  destruct (Reconstructor.closes (Reconstructor.applyFill p f)) eqn:E.
  - destruct (scanFill_close coin p completedTrades f E) as (openT & Ho & ->).
    destruct (scanFill_close coin p [] f E) as (openT' & Ho' & ->).
    cbn [fst snd app]. congruence.
  - rewrite !scanFill_open by assumption. cbn [fst snd]. now rewrite app_nil_r.
Qed.

Lemma scan_appends coin l : forall p completedTrades,
  fold_left (scanFill coin) l (p, completedTrades)
  = (fst (fold_left (scanFill coin) l (p, [])),
     completedTrades ++ snd (fold_left (scanFill coin) l (p, []))).
Proof.
  induction l as [|f l IH]; intros p completedTrades; cbn [fold_left].
  - cbn [fst snd]. now rewrite app_nil_r.
  - rewrite (scanFill_appends coin p completedTrades f).
    rewrite IH.
    destruct (scanFill coin (p, []) f) as [p' ts] eqn:E. cbn [fst snd].
    rewrite (IH p' ts). cbn [fst snd]. now rewrite app_assoc.
Qed.

Lemma scanCoin_appends completedTrades coin coinFills :
  Reconstructor.scanCoin toLocaleString completedTrades (coin, coinFills)
  = completedTrades ++ tradesOf toLocaleString coin coinFills.
Proof.
  unfold Reconstructor.scanCoin, tradesOf. now rewrite scan_appends.
Qed.

Lemma fold_scanCoin coinMap : forall completedTrades,
  fold_left (Reconstructor.scanCoin toLocaleString) coinMap completedTrades
  = completedTrades
    ++ flat_map (fun entry => tradesOf toLocaleString (fst entry) (snd entry)) coinMap.
Proof.
  induction coinMap as [|[coin coinFills] rest IH]; intros completedTrades;
    cbn [fold_left flat_map fst snd].
  - now rewrite app_nil_r.
  - now rewrite scanCoin_appends, IH, app_assoc.
Qed.

(** The result: per coin, in order of first appearance, the trades of its
    fills; then the final sort. *)
Lemma processCompletedTrades_by_coin fills :
  Reconstructor.processCompletedTrades toLocaleString getTime fills
  = sort (Reconstructor.byOpeningTimeDesc getTime)
      (flat_map (fun c => tradesOf toLocaleString c (coinFillsOf c fills))
                (coinsOf fills)).
Proof.
  unfold Reconstructor.processCompletedTrades.
  destruct fills as [|f fills]; [reflexivity|].
  rewrite fold_scanCoin, groupByCoin_entries. cbn [app].
  now rewrite flat_map_concat_map, map_map, <- flat_map_concat_map.
Qed.

(** Every trade of a coin's scan carries that coin. *)
Lemma scan_coin coin l : forall p t,
  In t (snd (fold_left (scanFill coin) l (p, []))) -> Trade.coin t = coin.
Proof.
  induction l as [|f l IH]; intros p t; cbn [fold_left]; [intros []|].
  destruct (scanFill coin (p, []) f) as [p' ts] eqn:Ef.
  rewrite scan_appends. cbn [snd]. intros Hin.
  apply in_app_or in Hin as [Hin|Hin].
  - destruct (Reconstructor.closes (Reconstructor.applyFill p f)) eqn:E.
    + destruct (scanFill_close coin p [] f E) as (openT & _ & Hs).
      rewrite Hs in Ef. injection Ef as _ <-.
      destruct Hin as [<-|[]]. reflexivity.
    + rewrite scanFill_open in Ef by assumption. injection Ef as _ <-.
      destruct Hin.
  - eapply IH. eassumption.
Qed.

Lemma tradesOf_coin coin coinFills t :
  In t (tradesOf toLocaleString coin coinFills) -> Trade.coin t = coin.
Proof. apply scan_coin. Qed.

End Scan.

(** ** Sorting by a key *)

Section SortByKey.
Context {T : Type}.
Variable compareFn : T -> T -> Z.
Variable key : T -> Z.

Local Abbreviation keyLe := (fun a b : T => key a <= key b).
Local Abbreviation keyLt := (fun a b : T => key a < key b).

(** On the elements of [l] the comparator orders by [key]. *)
Local Abbreviation ordersByKey l :=
  (forall a b : T, In a l -> In b l -> (compareFn a b <=? 0) = (key a <=? key b)).

Lemma insert_sorted x l :
  ordersByKey (x :: l) ->
  StronglySorted keyLe l -> StronglySorted keyLe (insert compareFn x l).
Proof.
  intros Hord Hs. induction Hs as [|y l Hs IH Hall]; cbn [insert].
  - repeat constructor.
  - rewrite Hord by (cbn; auto).
    destruct (Z.leb_spec (key x) (key y)) as [Hle|Hgt].
    + constructor; [now constructor|]. constructor; [assumption|].
      eapply Forall_impl; [|exact Hall]. cbn. intros; lia.
    + constructor.
      * apply IH. intros a b Ha Hb. apply Hord; cbn in *; tauto.
      * apply Forall_forall. intros z Hz.
        apply (Permutation_in _ (insert_perm compareFn x l)) in Hz.
        destruct Hz as [<-|Hz]; [lia|].
        rewrite Forall_forall in Hall. now apply Hall.
Qed.

Lemma sort_sorted l :
  ordersByKey l -> StronglySorted keyLe (sort compareFn l).
Proof.
  induction l as [|x l IH]; intros Hord; cbn [sort fold_right]; [constructor|].
  fold (sort compareFn l). apply insert_sorted.
  - intros a b Ha Hb. apply Hord.
    + destruct Ha as [<-|Ha]; [now left|right].
      now apply (Permutation_in _ (sort_perm compareFn l)).
    + destruct Hb as [<-|Hb]; [now left|right].
      now apply (Permutation_in _ (sort_perm compareFn l)).
  - apply IH. intros a b Ha Hb. apply Hord; now right.
Qed.

Lemma sorted_strict l :
  StronglySorted keyLe l -> NoDup (map key l) -> StronglySorted keyLt l.
Proof.
  induction 1 as [|x l Hs IH Hall]; cbn [map]; intros Hnd; constructor.
  - apply IH. now inversion Hnd.
  - inversion Hnd as [|? ? Hnotin _]; subst.
    rewrite Forall_forall in *. intros y Hy.
    assert (key x <> key y) by (intros E; apply Hnotin; rewrite E; now apply in_map).
    specialize (Hall y Hy). cbn in Hall. lia.
Qed.

(** Two strictly sorted lists with the same elements are the same list. *)
Lemma sorted_strict_unique l : forall l',
  Permutation l l' -> StronglySorted keyLt l -> StronglySorted keyLt l' -> l = l'.
Proof.
  induction l as [|a l IH]; intros l' Hp Hs Hs'.
  - apply Permutation_nil in Hp. now subst.
  - destruct l' as [|b l'].
    { apply Permutation_sym, Permutation_nil in Hp. discriminate. }
    inversion Hs as [|? ? Hs1 Hall]; subst.
    inversion Hs' as [|? ? Hs1' Hall']; subst.
    rewrite Forall_forall in Hall, Hall'.
    assert (Hab : a = b).
    { assert (Ha : In a (b :: l')) by (eapply Permutation_in; [exact Hp|now left]).
      assert (Hb : In b (a :: l))
        by (eapply Permutation_in; [apply Permutation_sym; exact Hp|now left]).
      destruct Ha as [Ha|Ha]; [now symmetry|].
      destruct Hb as [Hb|Hb]; [assumption|].
      specialize (Hall _ Hb). specialize (Hall' _ Ha). cbn in *. lia. }
    subst b. f_equal. apply IH; try assumption.
    eapply Permutation_cons_inv. exact Hp.
Qed.

Lemma sort_unique l l' :
  Permutation l l' -> ordersByKey l -> NoDup (map key l) ->
  sort compareFn l = sort compareFn l'.
Proof.
  intros Hp Hord Hnd.
  assert (Hord' : ordersByKey l').
  { intros a b Ha Hb.
    apply Hord; eapply Permutation_in; try eassumption; now apply Permutation_sym. }
  apply sorted_strict_unique.
  - rewrite (sort_perm compareFn l), (sort_perm compareFn l'). exact Hp.
  - apply sorted_strict; [now apply sort_sorted|].
    eapply Permutation_NoDup; [|exact Hnd].
    apply Permutation_map, Permutation_sym, sort_perm.
  - apply sorted_strict; [now apply sort_sorted|].
    eapply Permutation_NoDup; [|exact Hnd].
    apply Permutation_map.
    rewrite (sort_perm compareFn l'). exact Hp.
Qed.

(** A list already in order is left as it is. *)
Lemma sort_sorted_id l :
  ordersByKey l -> StronglySorted keyLe l -> sort compareFn l = l.
Proof.
  intros Hord Hs. induction Hs as [|x l Hs IH Hall]; [reflexivity|].
  cbn [sort fold_right]. fold (sort compareFn l).
  rewrite IH by (intros a b Ha Hb; apply Hord; now right).
  destruct l as [|y l]; [reflexivity|]. cbn [insert].
  rewrite Hord by (cbn; auto).
  inversion Hall as [|? ? Hxy _]; subst. cbn in Hxy.
  destruct (Z.leb_spec (key x) (key y)); [reflexivity|lia].
Qed.
End SortByKey.

Lemma byTime_orders (a b : Fill.HyperLiquidUserFill) :
  (Reconstructor.byTime a b <=? 0) = (Fill.time a <=? Fill.time b).
Proof.
  unfold Reconstructor.byTime.
  destruct (Z.leb_spec (Fill.time a - Fill.time b) 0),
           (Z.leb_spec (Fill.time a) (Fill.time b)); lia || reflexivity.
Qed.

Lemma filter_perm {T} (P : T -> bool) l l' :
  Permutation l l' -> Permutation (filter P l) (filter P l').
Proof.
  induction 1 as [|x l l' _ IH|x y l|l l' l'' _ IH1 _ IH2]; cbn [filter].
  - constructor.
  - destruct (P x); [now constructor|assumption].
  - destruct (P x), (P y); try reflexivity. apply perm_swap.
  - now transitivity (filter P l').
Qed.

Lemma coinFillsOf_In c fills f :
  In f (coinFillsOf c fills) <-> In f fills /\ Fill.coin f = c.
Proof.
  unfold coinFillsOf. rewrite filter_In.
  split; intros [H1 H2]; split; try assumption.
  - symmetry. now apply String.eqb_eq.
  - apply String.eqb_eq. now symmetry.
Qed.

Lemma coinFillsOf_times_NoDup c fills :
  NoDup (map coinTime fills) -> NoDup (map Fill.time (coinFillsOf c fills)).
Proof.
  induction fills as [|f fills IH]; cbn [map]; intros Hnd; [constructor|].
  inversion Hnd as [|? ? Hnotin Hnd']; subst.
  unfold coinFillsOf. cbn [filter]. fold (coinFillsOf c fills).
  destruct (String.eqb_spec c (Fill.coin f)) as [Hc|Hc]; [|auto].
  cbn [map]. constructor; [|auto].
  intros Hin. apply in_map_iff in Hin as (g & Ht & Hg).
  apply coinFillsOf_In in Hg as [Hg Hgc].
  apply Hnotin. apply in_map_iff. exists g. split; [|assumption].
  unfold coinTime. congruence.
Qed.

Lemma coinsOf_perm fills fills' :
  Permutation fills fills' -> Permutation (coinsOf fills) (coinsOf fills').
Proof.
  intros Hp. apply NoDup_Permutation; try apply coinsOf_NoDup.
  intros c. rewrite !coinsOf_In.
  split; intros (f & Hf & Hc); exists f; split; try assumption;
    eapply Permutation_in; try eassumption. now apply Permutation_sym.
Qed.

(** [NoDup] of a list of distinct closed values. *)
Ltac nodup_closed :=
  vm_compute;
  repeat (apply NoDup_cons;
          [ let H := fresh in
            cbn; intros H;
            repeat (destruct H as [H|H]; [discriminate H|]); exact H
          | ]);
  apply NoDup_nil.

(** ** Permuting the input *)

Section Permuting.
Variable toLocaleString : Z -> string.
Variable getTime : string -> option Z.

Lemma tradesOf_perm c fills fills' :
  Permutation fills fills' -> NoDup (map coinTime fills) ->
  tradesOf toLocaleString c (coinFillsOf c fills)
  = tradesOf toLocaleString c (coinFillsOf c fills').
Proof.
  intros Hp Hnd. unfold tradesOf.
  rewrite (sort_unique Reconstructor.byTime Fill.time
             (coinFillsOf c fills) (coinFillsOf c fills')); [reflexivity| | |].
  - now apply filter_perm.
  - intros a b _ _. apply byTime_orders.
  - now apply coinFillsOf_times_NoDup.
Qed.

Lemma unsorted_trades_perm fills fills' :
  Permutation fills fills' -> NoDup (map coinTime fills) ->
  Permutation
    (flat_map (fun c => tradesOf toLocaleString c (coinFillsOf c fills)) (coinsOf fills))
    (flat_map (fun c => tradesOf toLocaleString c (coinFillsOf c fills')) (coinsOf fills')).
Proof.
  intros Hp Hnd.
  rewrite (flat_map_ext _ (fun c => tradesOf toLocaleString c (coinFillsOf c fills')))
    by (intros c; now apply tradesOf_perm).
  apply Permutation_flat_map. now apply coinsOf_perm.
Qed.

Lemma byOpeningTimeDesc_orders a b :
  openingKey getTime a <> None -> openingKey getTime b <> None ->
  (Reconstructor.byOpeningTimeDesc getTime a b <=? 0)
  = (descKey getTime a <=? descKey getTime b).
Proof.
  unfold Reconstructor.byOpeningTimeDesc, descKey, openingKey.
  destruct (getTime (Trade.openingTime a)) as [ka|]; [|congruence].
  destruct (getTime (Trade.openingTime b)) as [kb|]; [|congruence].
  intros _ _.
  destruct (Z.leb_spec (kb - ka) 0), (Z.leb_spec (- ka) (- kb)); lia || reflexivity.
Qed.

Lemma descKey_NoDup l :
  (forall t, In t l -> openingKey getTime t <> None) ->
  NoDup (map (openingKey getTime) l) -> NoDup (map (descKey getTime) l).
Proof.
  induction l as [|x l IH]; cbn [map]; intros Hsome Hnd; [constructor|].
  inversion Hnd as [|? ? Hnotin Hnd']; subst.
  constructor; [|apply IH; cbn in *; auto].
  intros Hin. apply in_map_iff in Hin as (y & Hy & Hyin).
  apply Hnotin. apply in_map_iff. exists y. split; [|assumption].
  assert (Hx := Hsome x (or_introl eq_refl)).
  assert (Hy' := Hsome y (or_intror Hyin)).
  unfold descKey in Hy.
  destruct (openingKey getTime x), (openingKey getTime y); try congruence.
  f_equal. lia.
Qed.

End Permuting.

(** C2 (as amended). When no two fills of one coin share a timestamp, every
    permutation of the input gives the same trades, as a multiset.  The
    returned order is the same too when, in addition, every [openingTime]
    reads back as a date and no two of them read back as the same date. *)
Theorem processCompletedTrades_permutation
    (toLocaleString : Z -> string) (getTime : string -> option Z) fills fills' :
  Permutation fills fills' ->
  NoDup (map coinTime fills) ->
  let out := Reconstructor.processCompletedTrades toLocaleString getTime fills in
  let out' := Reconstructor.processCompletedTrades toLocaleString getTime fills' in
  Permutation out out' /\
  ((forall t, In t out -> openingKey getTime t <> None) ->
   NoDup (map (openingKey getTime) out) ->
   out = out').
Proof.
  intros Hp Hnd out out'. subst out out'.
  rewrite !processCompletedTrades_by_coin.
  pose proof (unsorted_trades_perm toLocaleString fills fills' Hp Hnd) as Hl.
  set (l := flat_map _ (coinsOf fills)) in *.
  set (l' := flat_map _ (coinsOf fills')) in *.
  split.
  - now rewrite !sort_perm.
  - intros Hsome Hkeys.
    assert (Hsome' : forall t, In t l -> openingKey getTime t <> None).
    { intros t Ht. apply Hsome.
      eapply Permutation_in; [apply Permutation_sym, sort_perm|exact Ht]. }
    apply (sort_unique _ (descKey getTime)); [assumption| |].
    + intros a b Ha Hb. apply byOpeningTimeDesc_orders; auto.
    + apply descKey_NoDup; [assumption|].
      eapply Permutation_NoDup; [|exact Hkeys].
      apply Permutation_map, sort_perm.
Qed.

Lemma processCompletedTrades_permutation_witness :
  let fills := [fill "X" "1" Fill.B 0 "0"; fill "Y" "2" Fill.A 5000 "0";
                fill "X" "1" Fill.A 1000 "5.0"; fill "Y" "2" Fill.B 20000 "-3"] in
  let fills' := [fill "Y" "2" Fill.B 20000 "-3"; fill "X" "1" Fill.A 1000 "5.0";
                 fill "Y" "2" Fill.A 5000 "0"; fill "X" "1" Fill.B 0 "0"] in
  EnUS.processCompletedTrades fills = EnUS.processCompletedTrades fills'.
Proof.
  intros fills fills'.
  assert (Hp : Permutation fills fills')
    by (change fills' with (rev fills); apply Permutation_rev).
  assert (Hnd : NoDup (map coinTime fills)) by nodup_closed.
  destruct (processCompletedTrades_permutation
              EnUS.toLocaleString EnUS.getTime fills fills' Hp Hnd) as [_ Heq].
  apply Heq.
  - intros t Ht. vm_compute in Ht.
    repeat (destruct Ht as [<-|Ht]; [vm_compute; discriminate|]). destruct Ht.
  - nodup_closed.
Defined.

(** C2, the claim as stated fails: two fills of one coin with the same
    timestamp, given in the two possible orders, give a long trade and a
    short trade. *)
Lemma processCompletedTrades_depends_on_order :
  let fills := [fill "X" "1" Fill.B 0 "0"; fill "X" "1" Fill.A 0 "5.0"] in
  let fills' := [fill "X" "1" Fill.A 0 "5.0"; fill "X" "1" Fill.B 0 "0"] in
  Permutation fills fills' /\
  map Trade.direction (EnUS.processCompletedTrades fills) = [Trade.long] /\
  map Trade.direction (EnUS.processCompletedTrades fills') = [Trade.short] /\
  EnUS.processCompletedTrades fills <> EnUS.processCompletedTrades fills'.
Proof.
  cbv zeta. split; [apply perm_swap|].
  split; [vm_compute; reflexivity|]. split; [vm_compute; reflexivity|].
  intros H. apply (f_equal (map Trade.direction)) in H.
  vm_compute in H. discriminate.
Qed.

(** ** Round trips *)

Section Cycles.
Variable toLocaleString : Z -> string.
Variable getTime : string -> option Z.

Local Abbreviation scanFill := (Reconstructor.scanFill toLocaleString).
Local Abbreviation closedTrade := (Reconstructor.closedTrade toLocaleString).

Lemma positionAfter_snoc p l f :
  positionAfter p (l ++ [f]) = Reconstructor.applyFill (positionAfter p l) f.
Proof. unfold positionAfter. now rewrite fold_left_app. Qed.

Lemma scan_staysOpen coin l : forall p completedTrades,
  staysOpen p l = true ->
  fold_left (scanFill coin) l (p, completedTrades) = (positionAfter p l, completedTrades).
Proof.
  induction l as [|f l IH]; intros p completedTrades; cbn [staysOpen fold_left].
  - reflexivity.
  - intros H. apply andb_prop in H as [Hf Hl]. apply negb_true_iff in Hf.
    rewrite scanFill_open by assumption. now apply IH.
Qed.

(** A round trip pushes one trade, built from the variables as its fills
    leave them, and resets the variables. *)
Lemma scan_cycle coin p completedTrades body last :
  cycle p body last ->
  exists openT,
    Reconstructor.openTime (positionAfter p (body ++ [last])) = Some openT /\
    fold_left (scanFill coin) (body ++ [last]) (p, completedTrades)
    = (cleared (positionAfter p (body ++ [last])),
       completedTrades
         ++ [closedTrade coin (positionAfter p (body ++ [last])) openT last]).
Proof.
  intros [Hopen Hclose].
  rewrite fold_left_app, (scan_staysOpen coin body p completedTrades Hopen).
  rewrite positionAfter_snoc. cbn [fold_left].
  destruct (scanFill_close toLocaleString coin _ completedTrades last Hclose)
    as (openT & Ho & Hs).
  exists openT. split; assumption.
Qed.

Lemma positionAfter_totalPnL l : forall p,
  Reconstructor.totalPnL (positionAfter p l)
  = fold_left (fun acc f => (acc + parseFloat (Reconstructor.closedPnlText f))%float)
              l (Reconstructor.totalPnL p).
Proof.
  induction l as [|f l IH]; intros p; [reflexivity|].
  unfold positionAfter in *. cbn [fold_left]. now rewrite IH.
Qed.





(** Once the position is NaN it stays NaN and never closes. *)
Lemma applyFill_nan p f :
  Reconstructor.positionSize p = nan ->
  Reconstructor.positionSize (Reconstructor.applyFill p f) = nan.
Proof.
  intros H. unfold Reconstructor.applyFill; cbn [Reconstructor.positionSize].
  rewrite H. destruct (Fill.side f); [apply add_nan_l|apply sub_nan_l].
Qed.

Lemma applyFill_nan_size p f :
  parseFloat (Fill.sz f) = nan ->
  Reconstructor.positionSize (Reconstructor.applyFill p f) = nan.
Proof.
  intros H. unfold Reconstructor.applyFill; cbn [Reconstructor.positionSize].
  rewrite H. destruct (Fill.side f); [apply add_nan_r|apply sub_nan_r].
Qed.

Lemma closes_nan p :
  Reconstructor.positionSize p = nan -> Reconstructor.closes p = false.
Proof.
  intros H. unfold Reconstructor.closes, Reconstructor.nearZero. rewrite H.
  now destruct (Reconstructor.openTime p).
Qed.

Lemma scan_nan coin l : forall st,
  Reconstructor.positionSize (fst st) = nan ->
  snd (fold_left (scanFill coin) l st) = snd st.
Proof.
  induction l as [|f l IH]; intros [p completedTrades] Hnan; [reflexivity|].
  cbn [fold_left fst snd] in *.
  rewrite scanFill_open by (apply closes_nan, applyFill_nan; assumption).
  rewrite IH; [reflexivity|]. cbn [fst]. now apply applyFill_nan.
Qed.

Lemma filter_none {T} (P : T -> bool) l :
  (forall x, In x l -> P x = false) -> filter P l = [].
Proof.
  induction l as [|x l IH]; intros H; [reflexivity|].
  cbn [filter]. rewrite (H x (or_introl eq_refl)).
  apply IH. intros y Hy. apply H. now right.
Qed.

(** The trades of one coin among those of all coins. *)
Lemma filter_coin_flat_map (g : string -> list Trade.CompletedTrade) c keys :
  (forall k t, In t (g k) -> Trade.coin t = k) ->
  NoDup keys -> In c keys ->
  filter (fun t => String.eqb (Trade.coin t) c) (flat_map g keys) = g c.
Proof.
  intros Hg.
  assert (Hsame : filter (fun t => String.eqb (Trade.coin t) c) (g c) = g c).
  { apply forallb_filter_id. apply forallb_forall. intros t Ht.
    apply String.eqb_eq. now apply Hg. }
  assert (Hother : forall k, k <> c ->
            filter (fun t => String.eqb (Trade.coin t) c) (g k) = []).
  { intros k Hk. apply filter_none. intros t Ht.
    rewrite (Hg k t Ht). now apply String.eqb_neq. }
  induction keys as [|k keys IH]; intros Hnd Hin; [destruct Hin|].
  inversion Hnd as [|? ? Hnotin Hnd']; subst.
  cbn [flat_map]. rewrite filter_app.
  destruct Hin as [->|Hin].
  - rewrite Hsame.
    assert (Hrest : filter (fun t => String.eqb (Trade.coin t) c) (flat_map g keys) = []).
    { clear IH Hnd Hnd'. induction keys as [|k keys IH]; [reflexivity|].
      cbn [flat_map]. rewrite filter_app, Hother, IH; [reflexivity| |].
      - intros H. apply Hnotin. now right.
      - intros ->. apply Hnotin. now left. }
    now rewrite Hrest, app_nil_r.
  - rewrite Hother by (intros ->; contradiction). now apply IH.
Qed.

End Cycles.

(** ** The claims on the reconstructor *)

(** C1 (as amended). A buy of 1 at time 0 and a sell of 1 at time 1000 with
    closedPnl 5.0, both of coin "X", give exactly one trade: coin "X",
    direction long, [openingTime] the host's rendering of timestamp 0,
    [duration] the text "0h 0m", realizedPnL 5.  The trade has no close
    timestamp and no duration in milliseconds. *)
Theorem processCompletedTrades_single_round_trip
    (toLocaleString : Z -> string) (getTime : string -> option Z) buy sell :
  agree buy (fill "X" "1" Fill.B 0 "0") ->
  agree sell (fill "X" "1" Fill.A 1000 "5.0") ->
  Reconstructor.processCompletedTrades toLocaleString getTime [buy; sell]
  = [Trade.mk "X" Trade.long (toLocaleString 0) "0h 0m" 5%float].
Proof.
  intros Hbuy Hsell.
  rewrite (processCompletedTrades_agree toLocaleString getTime [buy; sell]
             [fill "X" "1" Fill.B 0 "0"; fill "X" "1" Fill.A 1000 "5.0"])
    by (constructor; [assumption|constructor; [assumption|constructor]]).
  vm_compute. reflexivity.
Qed.

Lemma processCompletedTrades_single_round_trip_witness :
  EnUS.processCompletedTrades
    [Fill.mk "X" "10.5" "1" Fill.B 0 "0.0" "Open Long" "0" "0xabc" 7 true "0.01";
     Fill.mk "X" "11.5" "1" Fill.A 1000 "1.0" "Close Long" "5.0" "0xdef" 8 false "0.02"]
  = [Trade.mk "X" Trade.long "1/1/1970, 12:00:00 AM" "0h 0m" 5%float].
Proof.
  apply (processCompletedTrades_single_round_trip EnUS.toLocaleString EnUS.getTime);
    repeat split.
Defined.

(** C1, the claim as stated fails: the trade returned for a close at time
    1000 is the trade returned for a close at time 59999, and its [duration]
    is the text "0h 0m"; so nothing read off the result is the close
    timestamp, or the duration in milliseconds, of both inputs. *)
Lemma processCompletedTrades_close_time_not_returned :
  let closedAt close := [fill "X" "1" Fill.B 0 "0"; fill "X" "1" Fill.A close "5.0"] in
  EnUS.processCompletedTrades (closedAt 1000) = EnUS.processCompletedTrades (closedAt 59999) /\
  map Trade.duration (EnUS.processCompletedTrades (closedAt 1000)) = ["0h 0m"%string] /\
  ~ exists closeTimestamp : list Trade.CompletedTrade -> Z,
      closeTimestamp (EnUS.processCompletedTrades (closedAt 1000)) = 1000 /\
      closeTimestamp (EnUS.processCompletedTrades (closedAt 59999)) = 59999.
Proof.
  intros closedAt.
  assert (E : EnUS.processCompletedTrades (closedAt 1000)
              = EnUS.processCompletedTrades (closedAt 59999))
    by (vm_compute; reflexivity).
  split; [exact E|]. split; [vm_compute; reflexivity|].
  intros (closeTimestamp & H1 & H2). rewrite E in H1. lia.
Qed.

(** C3, the claim as stated fails: inputs holding a fill of non-numeric,
    zero or negative size return a list of trades.  With the non-numeric size
    on coin "Y" the trade of coin "X" is returned; the zero-size buy fixes
    the direction of a position that is then short; the negative-size buy
    opens a position that a second buy closes. *)
Lemma processCompletedTrades_accepts_invalid_sizes :
  EnUS.processCompletedTrades
    [fill "X" "1" Fill.B 0 "0"; fill "Y" "abc" Fill.B 500 "0";
     fill "X" "1" Fill.A 1000 "5.0"]
  = [Trade.mk "X" Trade.long "1/1/1970, 12:00:00 AM" "0h 0m" 5%float]
  /\
  EnUS.processCompletedTrades
    [fill "X" "0" Fill.B 0 "0"; fill "X" "1" Fill.A 1000 "0";
     fill "X" "1" Fill.B 2000 "7"]
  = [Trade.mk "X" Trade.long "1/1/1970, 12:00:01 AM" "0h 0m" 7%float]
  /\
  EnUS.processCompletedTrades
    [fill "X" "-1" Fill.B 0 "0"; fill "X" "1" Fill.B 1000 "3"]
  = [Trade.mk "X" Trade.long "1/1/1970, 12:00:00 AM" "0h 0m" 3%float].
Proof. repeat split; vm_compute; reflexivity. Qed.

(** C4, evaluated where the order is wrong (locale en-US, time zone UTC):
    coin "X" is bought at 1700000000000 and sold 100 ms later, bought again
    200 ms after the first buy and sold at 300 ms.  The second trade opens
    later than the first and is returned second: both opening times print as
    "11/14/2023, 10:13:20 PM", the comparator reads the same date back from
    both and the stable sort leaves them in the order they were pushed. *)
Theorem processCompletedTrades_same_second_ascending :
  let fills := [fill "X" "1" Fill.B 1700000000000 "0";
                fill "X" "1" Fill.A 1700000000100 "1";
                fill "X" "1" Fill.B 1700000000200 "0";
                fill "X" "1" Fill.A 1700000000300 "2"] in
  EnUS.processCompletedTrades fills
  = [Trade.mk "X" Trade.long (EnUS.toLocaleString 1700000000000) "0h 0m" 1%float;
     Trade.mk "X" Trade.long (EnUS.toLocaleString 1700000000200) "0h 0m" 2%float]
  /\ EnUS.toLocaleString 1700000000000 = "11/14/2023, 10:13:20 PM"%string
  /\ EnUS.toLocaleString 1700000000200 = "11/14/2023, 10:13:20 PM"%string
  /\ Reconstructor.openTime (positionAfter Reconstructor.flat (firstn 1 fills))
     = Some 1700000000000
  /\ Reconstructor.openTime
       (positionAfter (cleared (positionAfter Reconstructor.flat (firstn 2 fills)))
                      (firstn 1 (skipn 2 fills))) = Some 1700000000200.
Proof. cbv zeta. repeat split; vm_compute; reflexivity. Qed.



(** ** More facts about binary64 arithmetic *)

Module FloatZero.

Lemma finite_cases x :
  is_finite x = true ->
  (exists s, Prim2SF x = S754_zero s) \/ (exists s m e, Prim2SF x = S754_finite s m e).
Proof.
  unfold is_finite, is_nan, is_infinity. rewrite !eqb_spec, abs_spec.
  change (Prim2SF infinity) with (S754_infinity false).
  destruct (Prim2SF x) as [s|s| |s m e]; intros H.
  - left. now exists s.
  - destruct s; discriminate H.
  - discriminate H.
  - right. now exists s, m, e.
Qed.

Lemma nonzero_cases x :
  (x =? 0)%float = false ->
  Prim2SF x = S754_nan \/ (exists s, Prim2SF x = S754_infinity s)
  \/ (exists s m e, Prim2SF x = S754_finite s m e).
Proof.
  rewrite eqb_spec. change (Prim2SF 0) with (S754_zero false).
  destruct (Prim2SF x) as [s|s| |s m e]; intros H.
  - destruct s; discriminate H.
  - right. left. now exists s.
  - now left.
  - right. right. now exists s, m, e.
Qed.

(** Adding to zero changes nothing, unless the sum is a zero. *)
Lemma add_zero_l x : (x =? 0)%float = false -> (0 + x)%float = x.
Proof.
  intros H. apply Prim2SF_inj. rewrite add_spec.
  change (Prim2SF 0) with (S754_zero false).
  destruct (nonzero_cases x H) as [-> | [(s & ->) | (s & m & e & ->)]]; reflexivity.
Qed.

Lemma sub_zero_l x : (x =? 0)%float = false -> (0 - x)%float = (- x)%float.
Proof.
  intros H. apply Prim2SF_inj. rewrite sub_spec, opp_spec.
  change (Prim2SF 0) with (S754_zero false).
  destruct (nonzero_cases x H) as [-> | [(s & ->) | (s & m & e & ->)]]; reflexivity.
Qed.

Lemma abs_opp x : abs (- x) = abs x.
Proof.
  apply Prim2SF_inj. rewrite !abs_spec, opp_spec.
  now destruct (Prim2SF x).
Qed.

Lemma eqb_opp_zero x : (- x =? 0)%float = (x =? 0)%float.
Proof.
  rewrite !eqb_spec, opp_spec. change (Prim2SF 0) with (S754_zero false).
  destruct (Prim2SF x) as [s|s| |s m e]; try reflexivity; now destruct s.
Qed.

(** A zero added to or taken from zero is zero. *)
Lemma add_zero_zero x : (x =? 0)%float = true -> ((0 + x) =? 0)%float = true.
Proof.
  rewrite !eqb_spec, add_spec. change (Prim2SF 0) with (S754_zero false).
  destruct (Prim2SF x) as [s|s| |s m e]; try destruct s; cbn; intros H;
    try discriminate H; reflexivity.
Qed.

Lemma sub_zero_zero x : (x =? 0)%float = true -> ((0 - x) =? 0)%float = true.
Proof.
  rewrite !eqb_spec, sub_spec. change (Prim2SF 0) with (S754_zero false).
  destruct (Prim2SF x) as [s|s| |s m e]; try destruct s; cbn; intros H;
    try discriminate H; reflexivity.
Qed.

Lemma shl_align_same m e : shl_align m e (Z.min e e) = (m, e).
Proof. unfold shl_align. rewrite Z.min_id, Z.sub_diag. reflexivity. Qed.

(** A finite number taken from itself leaves the zero +0. *)
Lemma sub_diag x : is_finite x = true -> (x - x)%float = 0%float.
Proof.
  intros H. apply Prim2SF_inj. rewrite sub_spec.
  change (Prim2SF 0) with (S754_zero false).
  destruct (finite_cases x H) as [(s & ->) | (s & m & e & ->)].
  - now destruct s.
  - unfold SF64sub, SFsub. rewrite shl_align_same. cbn [fst].
    rewrite Z.sub_diag. reflexivity.
Qed.

Lemma add_opp_diag x : is_finite x = true -> (- x + x)%float = 0%float.
Proof.
  intros H. apply Prim2SF_inj. rewrite add_spec, opp_spec.
  change (Prim2SF 0) with (S754_zero false).
  destruct (finite_cases x H) as [(s & ->) | (s & m & e & ->)].
  - now destruct s.
  - unfold SF64add, SFadd, SFopp. rewrite shl_align_same. cbn [fst].
    replace (cond_Zopp (negb s) (Zpos m) + cond_Zopp s (Zpos m)) with 0
      by (destruct s; cbn [negb cond_Zopp]; lia).
    reflexivity.
Qed.

End FloatZero.

Import FloatZero.

(** ** More on the scan of one coin *)

Section ScanMore.
Variable toLocaleString : Z -> string.
Variable getTime : string -> option Z.

Local Abbreviation scanFill := (Reconstructor.scanFill toLocaleString).

(** A fill pushes at most one trade. *)
Lemma scanFill_pushes_at_most_one coin p f :
  (List.length (snd (scanFill coin (p, []) f)) <= 1)%nat.
Proof.
  destruct (Reconstructor.closes (Reconstructor.applyFill p f)) eqn:E.
  - destruct (scanFill_close toLocaleString coin p [] f E) as (openT & _ & ->).
    cbn. lia.
  - rewrite scanFill_open by assumption. cbn. lia.
Qed.

Lemma scan_length coin l : forall p,
  (List.length (snd (fold_left (scanFill coin) l (p, []))) <= List.length l)%nat.
Proof.
  induction l as [|f l IH]; intros p; cbn [fold_left]; [cbn; lia|].
  pose proof (scanFill_pushes_at_most_one coin p f) as H1.
  destruct (scanFill coin (p, []) f) as [p' ts]. cbn [snd] in H1.
  rewrite scan_appends. cbn [snd]. rewrite length_app.
  specialize (IH p'). cbn [List.length]. lia.
Qed.

Lemma tradesOf_length coin coinFills :
  (List.length (tradesOf toLocaleString coin coinFills) <= List.length coinFills)%nat.
Proof.
  unfold tradesOf. etransitivity; [apply scan_length|].
  now rewrite (Permutation_length (sort_perm Reconstructor.byTime coinFills)).
Qed.

Lemma coinFillsOf_cons c f fills :
  coinFillsOf c (f :: fills)
  = if String.eqb c (Fill.coin f) then f :: coinFillsOf c fills else coinFillsOf c fills.
Proof. reflexivity. Qed.

(** Each fill belongs to one coin. *)
Lemma coinFills_total_length fills : forall keys,
  NoDup keys ->
  (List.length (flat_map (fun c => coinFillsOf c fills) keys) <= List.length fills)%nat.
Proof.
  induction fills as [|f fills IH]; intros keys Hnd.
  - induction keys as [|k keys IHk]; [cbn; lia|].
    cbn [flat_map coinFillsOf filter app]. apply IHk. now inversion Hnd.
  - specialize (IH keys Hnd). cbn [List.length].
    enough (H : (List.length (flat_map (fun c => coinFillsOf c (f :: fills)) keys)
                 <= (if in_dec string_dec (Fill.coin f) keys then 1 else 0)
                    + List.length (flat_map (fun c => coinFillsOf c fills) keys))%nat)
      by (destruct (in_dec string_dec (Fill.coin f) keys); lia).
    clear IH. induction keys as [|k keys IHk]; [cbn; lia|].
    inversion Hnd as [|? ? Hnotin Hnd']; subst. specialize (IHk Hnd').
    cbn [flat_map]. rewrite !length_app, coinFillsOf_cons.
    destruct (String.eqb_spec k (Fill.coin f)) as [Hk|Hk].
    + subst k. cbn [List.length].
      destruct (in_dec string_dec (Fill.coin f) keys) as [Hin|_]; [contradiction|].
      destruct (in_dec string_dec (Fill.coin f) (Fill.coin f :: keys)) as [_|Hn];
        [lia|exfalso; apply Hn; now left].
    + destruct (in_dec string_dec (Fill.coin f) keys) as [Hin|Hn];
        destruct (in_dec string_dec (Fill.coin f) (k :: keys)) as [Hin'|Hn']; try lia.
      exfalso. apply Hn'. now right.
Qed.

(** Where the scan of a list sorted by time takes the opening time and the
    duration of a trade from. *)
Lemma scan_provenance coin (P : Fill.HyperLiquidUserFill -> Prop) l : forall p,
  StronglySorted (fun a b => Fill.time a <= Fill.time b) l ->
  (forall f, In f l -> P f) ->
  (forall openT, Reconstructor.openTime p = Some openT ->
     exists opening, P opening /\ openT = Fill.time opening /\
                     Forall (fun f => Fill.time opening <= Fill.time f) l) ->
  forall t, In t (snd (fold_left (scanFill coin) l (p, []))) ->
  exists opening closing,
    P opening /\ P closing /\ Fill.time opening <= Fill.time closing /\
    Trade.coin t = coin /\
    Trade.openingTime t = toLocaleString (Fill.time opening) /\
    Trade.duration t
    = Reconstructor.formatDuration (Fill.time closing - Fill.time opening).
Proof.
  induction l as [|f l IH]; intros p Hs HP Hopen t; cbn [fold_left]; [intros []|].
  inversion Hs as [|? ? Hs' Hall]; subst.
  assert (Hopen' : forall openT,
            Reconstructor.openTime (Reconstructor.applyFill p f) = Some openT ->
            exists opening, P opening /\ openT = Fill.time opening /\
                            Forall (fun g => Fill.time opening <= Fill.time g) (f :: l)).
  { intros openT Ho.
    unfold Reconstructor.applyFill in Ho; cbn [Reconstructor.openTime] in Ho.
    destruct (Reconstructor.openTime p) as [o|] eqn:Ep.
    - injection Ho as <-. destruct (Hopen o eq_refl) as (opening & HPo & -> & Hle).
      exists opening. auto.
    - destruct (negb _) in Ho; [|discriminate]. injection Ho as <-.
      exists f. split; [apply HP; now left|]. split; [reflexivity|].
      constructor; [lia|exact Hall]. }
  destruct (Reconstructor.closes (Reconstructor.applyFill p f)) eqn:E.
  - destruct (scanFill_close toLocaleString coin p [] f E) as (openT & Ho & ->).
    rewrite scan_appends. cbn [snd]. intros Hin.
    apply in_app_or in Hin as [[<-|[]]|Hin].
    + destruct (Hopen' openT Ho) as (opening & HPo & -> & Hle).
      exists opening, f. inversion Hle; subst.
      repeat split; try assumption. apply HP. now left.
    + apply (IH (cleared (Reconstructor.applyFill p f))); try assumption.
      * intros g Hg. apply HP. now right.
      * cbn. discriminate.
  - rewrite scanFill_open by assumption. intros Hin.
    apply (IH (Reconstructor.applyFill p f)); try assumption.
    + intros g Hg. apply HP. now right.
    + intros openT Ho. destruct (Hopen' openT Ho) as (opening & HPo & -> & Hle).
      exists opening. inversion Hle; subst. auto.
Qed.

End ScanMore.

Lemma formatDuration_shape d :
  0 <= d ->
  exists h m,
    0 <= h /\ 0 <= m <= 59 /\
    h * 3600000 + m * 60000 <= d < h * 3600000 + (m + 1) * 60000 /\
    Reconstructor.formatDuration d
    = (numberToString h ++ "h " ++ numberToString m ++ "m")%string.
Proof.
  intros Hd. unfold Reconstructor.formatDuration.
  change (1000 * 60 * 60) with 3600000. change (1000 * 60) with 60000.
  rewrite Z.rem_mod_nonneg by lia.
  exists (d / 3600000), (d mod 3600000 / 60000).
  pose proof (Z.div_mod d 3600000 ltac:(lia)) as H1.
  pose proof (Z.mod_pos_bound d 3600000 ltac:(lia)) as H2.
  pose proof (Z.div_mod (d mod 3600000) 60000 ltac:(lia)) as H3.
  pose proof (Z.mod_pos_bound (d mod 3600000) 60000 ltac:(lia)) as H4.
  assert (0 <= d / 3600000) by (apply Z.div_pos; lia).
  assert (0 <= d mod 3600000 / 60000) by (apply Z.div_pos; lia).
  assert (d mod 3600000 / 60000 <= 59).
  { apply Z.lt_succ_r. apply Z.div_lt_upper_bound; lia. }
  repeat split; try lia.
Qed.

(** ** Further properties of [processCompletedTrades] *)

(** X1. There are never more trades than fills: each trade is pushed by a
    fill of its own. *)
Theorem processCompletedTrades_length
    (toLocaleString : Z -> string) (getTime : string -> option Z) fills :
  (List.length (Reconstructor.processCompletedTrades toLocaleString getTime fills)
   <= List.length fills)%nat.
Proof.
  rewrite processCompletedTrades_by_coin.
  rewrite (Permutation_length (sort_perm _ _)).
  pose proof (coinFills_total_length fills (coinsOf fills) (coinsOf_NoDup fills)) as Hall.
  enough (H : (List.length
                 (flat_map (fun c => tradesOf toLocaleString c (coinFillsOf c fills))
                           (coinsOf fills))
               <= List.length (flat_map (fun c => coinFillsOf c fills) (coinsOf fills)))%nat)
    by lia.
  clear Hall. induction (coinsOf fills) as [|c keys IH]; cbn [flat_map]; [reflexivity|].
  rewrite !length_app.
  pose proof (tradesOf_length toLocaleString c (coinFillsOf c fills)). lia.
Qed.

(** X2. Every returned trade comes from two fills of its coin, the one that
    opened the position and the one that closed it, the first not later than
    the second: [openingTime] is the rendering of the time of the first, and
    [duration] is the time between them in whole hours and minutes, the hours
    not negative and the minutes between 0 and 59. *)
Theorem processCompletedTrades_provenance
    (toLocaleString : Z -> string) (getTime : string -> option Z) fills t :
  In t (Reconstructor.processCompletedTrades toLocaleString getTime fills) ->
  exists opening closing h m,
    In opening fills /\ In closing fills /\
    Fill.coin opening = Trade.coin t /\ Fill.coin closing = Trade.coin t /\
    Fill.time opening <= Fill.time closing /\
    Trade.openingTime t = toLocaleString (Fill.time opening) /\
    0 <= h /\ 0 <= m <= 59 /\
    h * 3600000 + m * 60000 <= Fill.time closing - Fill.time opening
      < h * 3600000 + (m + 1) * 60000 /\
    Trade.duration t = (numberToString h ++ "h " ++ numberToString m ++ "m")%string.
Proof.
  rewrite processCompletedTrades_by_coin. intros Hin.
  apply (Permutation_in _ (sort_perm _ _)) in Hin.
  apply in_flat_map in Hin as (c & _ & Hin). unfold tradesOf in Hin.
  destruct (scan_provenance toLocaleString c
              (fun f => In f fills /\ Fill.coin f = c)
              (sort Reconstructor.byTime (coinFillsOf c fills)) Reconstructor.flat)
    with (t := t) as (opening & closing & [Ho Hco] & [Hc Hcc] & Hle & Hcoin & Hopen & Hdur).
  - apply (sort_sorted Reconstructor.byTime Fill.time).
    intros a b _ _. apply byTime_orders.
  - intros f Hf. apply (Permutation_in _ (sort_perm _ _)) in Hf.
    now apply coinFillsOf_In.
  - cbn. discriminate.
  - exact Hin.
  - destruct (formatDuration_shape (Fill.time closing - Fill.time opening) ltac:(lia))
      as (h & m & Hh & Hm & Hbound & Hshape).
    exists opening, closing, h, m. rewrite Hdur, Hshape.
    repeat split; try assumption; try lia; congruence.
Qed.

Lemma processCompletedTrades_provenance_witness :
  let fills := [fill "X" "1" Fill.A 7384000 "5.0"; fill "X" "1" Fill.B 1000 "0"] in
  exists t opening closing,
    In t (EnUS.processCompletedTrades fills) /\
    In opening fills /\ In closing fills /\
    Fill.time opening <= Fill.time closing /\
    Trade.openingTime t = EnUS.toLocaleString (Fill.time opening) /\
    Trade.duration t = "2h 3m"%string.
Proof.
  intros fills.
  set (t := Trade.mk "X" Trade.long "1/1/1970, 12:00:01 AM" "2h 3m" 5%float).
  assert (Hin : In t (EnUS.processCompletedTrades fills)) by (vm_compute; now left).
  destruct (processCompletedTrades_provenance EnUS.toLocaleString EnUS.getTime fills t Hin)
    as (opening & closing & h & m & Ho & Hc & _ & _ & Hle & Hopen & _).
  exists t, opening, closing. repeat split; assumption.
Defined.

(** X3. The trades of one coin in the result are, as a multiset, the result
    for the fills of that coin alone: fills of other coins add and remove
    nothing. *)
Theorem processCompletedTrades_coin_alone
    (toLocaleString : Z -> string) (getTime : string -> option Z) fills c :
  Permutation
    (filter (fun t => String.eqb (Trade.coin t) c)
            (Reconstructor.processCompletedTrades toLocaleString getTime fills))
    (Reconstructor.processCompletedTrades toLocaleString getTime (coinFillsOf c fills)).
Proof.
  assert (Hidem : coinFillsOf c (coinFillsOf c fills) = coinFillsOf c fills).
  { unfold coinFillsOf. apply forallb_filter_id. apply forallb_forall.
    intros f Hf. now apply filter_In in Hf. }
  assert (Hone : forall l, (forall f, In f l -> Fill.coin f = c) -> l <> [] ->
                           coinsOf l = [c]).
  { intros l Hall Hne.
    pose proof (coinsOf_NoDup l) as Hnd.
    assert (Hk : forall k, In k (coinsOf l) -> k = c).
    { intros k Hk. apply coinsOf_In in Hk as (f & Hf & <-). now apply Hall. }
    destruct (coinsOf l) as [|k [|k' ks]] eqn:E.
    - destruct l as [|f l]; [contradiction|].
      assert (Hin : In (Fill.coin f) (coinsOf (f :: l)))
        by (apply coinsOf_In; exists f; split; [now left|reflexivity]).
      rewrite E in Hin. destruct Hin.
    - f_equal. apply Hk. now left.
    - exfalso. inversion Hnd as [|? ? Hnotin _]; subst. apply Hnotin.
      left. rewrite (Hk k) by now left. apply Hk. right. now left. }
  rewrite !processCompletedTrades_by_coin.
  rewrite (filter_perm _ _ _ (sort_perm _ _)), (sort_perm _ _).
  assert (Hcases : coinFillsOf c fills = [] \/ exists f0, In f0 (coinFillsOf c fills)).
  { destruct (coinFillsOf c fills) as [|f0 l0]; [now left|right].
    exists f0. now left. }
  destruct Hcases as [Ec | (f0 & Hf0)].
  - rewrite Ec. cbn [coinsOf Reconstructor.groupByCoin fold_left map flat_map].
    rewrite filter_none; [reflexivity|].
    intros t Ht. apply in_flat_map in Ht as (k & Hk & Ht).
    apply tradesOf_coin in Ht. rewrite Ht. apply String.eqb_neq. intros ->.
    apply coinsOf_In in Hk as (f & Hf & Hfc).
    assert (Hin : In f (coinFillsOf c fills)) by now apply coinFillsOf_In.
    rewrite Ec in Hin. destruct Hin.
  - rewrite (Hone (coinFillsOf c fills)).
    + cbn [flat_map]. rewrite app_nil_r, Hidem.
      rewrite (filter_coin_flat_map
                 (fun k => tradesOf toLocaleString k (coinFillsOf k fills)) c);
        [reflexivity| | |].
      * intros k t. apply tradesOf_coin.
      * apply coinsOf_NoDup.
      * apply coinsOf_In. exists f0. now apply coinFillsOf_In.
    + intros f Hf. now apply coinFillsOf_In in Hf.
    + intros E. rewrite E in Hf0. destruct Hf0.
Qed.

Lemma StronglySorted_impl_in {T} (R R' : T -> T -> Prop) l :
  (forall a b, In a l -> In b l -> R a b -> R' a b) ->
  StronglySorted R l -> StronglySorted R' l.
Proof.
  intros Himp Hs. induction Hs as [|x l Hs IH Hall]; constructor.
  - apply IH. intros a b Ha Hb. apply Himp; now right.
  - rewrite Forall_forall in *. intros y Hy.
    apply Himp; [now left|now right|now apply Hall].
Qed.

(** A comparator that finds every two elements equal leaves the list alone. *)
Lemma sort_all_equal {T} (compareFn : T -> T -> Z) l :
  (forall a b, In a l -> In b l -> compareFn a b = 0) -> sort compareFn l = l.
Proof.
  induction l as [|x l IH]; intros H; [reflexivity|].
  cbn [sort fold_right]. fold (sort compareFn l).
  rewrite IH by (intros a b Ha Hb; apply H; now right).
  destruct l as [|y l]; [reflexivity|]. cbn [insert].
  rewrite H by (cbn; auto). reflexivity.
Qed.

(** X4. When every returned [openingTime] reads back as a date, the result
    is in descending order of the dates read back: of two trades, the one
    listed first has the later date, or the same. *)
Theorem processCompletedTrades_sorted_by_read_back_date
    (toLocaleString : Z -> string) (getTime : string -> option Z) fills :
  let out := Reconstructor.processCompletedTrades toLocaleString getTime fills in
  (forall t, In t out -> openingKey getTime t <> None) ->
  StronglySorted
    (fun a b => exists ka kb,
       openingKey getTime a = Some ka /\ openingKey getTime b = Some kb /\ kb <= ka)
    out.
Proof.
  intros out Hsome. subst out.
  rewrite processCompletedTrades_by_coin in *.
  set (l := flat_map _ (coinsOf fills)) in *.
  assert (Hsome' : forall t, In t l -> openingKey getTime t <> None).
  { intros t Ht. apply Hsome.
    eapply Permutation_in; [apply Permutation_sym, sort_perm|exact Ht]. }
  apply (StronglySorted_impl_in
           (fun a b => descKey getTime a <= descKey getTime b)).
  - intros a b Ha Hb. pose proof (Hsome a Ha) as Hka. pose proof (Hsome b Hb) as Hkb.
    unfold descKey.
    destruct (openingKey getTime a) as [ka|]; [|congruence].
    destruct (openingKey getTime b) as [kb|]; [|congruence].
    intros Hle. exists ka, kb. repeat split; lia.
  - apply sort_sorted. intros a b Ha Hb. apply byOpeningTimeDesc_orders; auto.
Qed.

Lemma processCompletedTrades_sorted_by_read_back_date_witness :
  map (openingKey EnUS.getTime)
      (EnUS.processCompletedTrades
         [fill "X" "1" Fill.B 0 "0"; fill "Y" "2" Fill.A 5000 "0";
          fill "X" "1" Fill.A 1000 "5.0"; fill "Y" "2" Fill.B 20000 "-3"])
  = [Some 5000; Some 0] /\
  StronglySorted
    (fun a b => exists ka kb,
       openingKey EnUS.getTime a = Some ka /\ openingKey EnUS.getTime b = Some kb /\
       kb <= ka)
    (EnUS.processCompletedTrades
       [fill "X" "1" Fill.B 0 "0"; fill "Y" "2" Fill.A 5000 "0";
        fill "X" "1" Fill.A 1000 "5.0"; fill "Y" "2" Fill.B 20000 "-3"]).
Proof.
  split; [vm_compute; reflexivity|].
  apply (processCompletedTrades_sorted_by_read_back_date EnUS.toLocaleString EnUS.getTime).
  intros t Ht. vm_compute in Ht.
  repeat (destruct Ht as [<-|Ht]; [vm_compute; discriminate|]). destruct Ht.
Defined.

(** X5. When no returned [openingTime] reads back as a date, the final sort
    moves nothing: the trades come coin by coin, the coins in the order of
    their first fill in the input, and the trades of a coin oldest first. *)
Theorem processCompletedTrades_push_order
    (toLocaleString : Z -> string) (getTime : string -> option Z) fills :
  (forall t, In t (Reconstructor.processCompletedTrades toLocaleString getTime fills) ->
             openingKey getTime t = None) ->
  Reconstructor.processCompletedTrades toLocaleString getTime fills
  = flat_map (fun c => tradesOf toLocaleString c (coinFillsOf c fills)) (coinsOf fills).
Proof.
  rewrite processCompletedTrades_by_coin. intros Hnone.
  apply sort_all_equal. intros a b Ha Hb.
  unfold Reconstructor.byOpeningTimeDesc.
  assert (Hb' : openingKey getTime b = None).
  { apply Hnone. eapply Permutation_in; [apply Permutation_sym, sort_perm|exact Hb]. }
  unfold openingKey in Hb'. now rewrite Hb'.
Qed.

Lemma processCompletedTrades_push_order_witness :
  map Trade.realizedPnL
    (Reconstructor.processCompletedTrades EnUS.toLocaleString (fun _ => None)
       [fill "X" "1" Fill.B 0 "0"; fill "Y" "2" Fill.A 5000 "0";
        fill "X" "1" Fill.A 1000 "5.0"; fill "Y" "2" Fill.B 20000 "-3"])
  = [5; -3]%float.
Proof.
  rewrite (processCompletedTrades_push_order EnUS.toLocaleString (fun _ => None)).
  - vm_compute. reflexivity.
  - reflexivity.
Defined.

Lemma fold_add_nan {T} (g : T -> float) l : forall acc,
  (exists x, In x l /\ g x = nan) ->
  fold_left (fun acc x => (acc + g x)%float) l acc = nan.
Proof.
  assert (Hstay : forall l', fold_left (fun acc x => (acc + g x)%float) l' nan = nan).
  { induction l' as [|y l' IH]; [reflexivity|]. cbn [fold_left].
    now rewrite add_nan_l. }
  induction l as [|y l IH]; intros acc (x & Hx & Hnan); [destruct Hx|].
  cbn [fold_left]. destruct Hx as [->|Hx].
  - rewrite Hnan, add_nan_r. apply Hstay.
  - apply IH. eauto.
Qed.

(** X6. A [closedPnl] that is neither empty nor numeric makes the
    [realizedPnL] of the trade of its round trip NaN. *)
Theorem scan_non_numeric_closedPnl
    (toLocaleString : Z -> string) coin p completedTrades body last :
  cycle p body last ->
  (exists f, In f (body ++ [last]) /\ parseFloat (Reconstructor.closedPnlText f) = nan) ->
  exists t,
    snd (fold_left (Reconstructor.scanFill toLocaleString coin) (body ++ [last])
                   (p, completedTrades))
    = completedTrades ++ [t] /\
    Trade.realizedPnL t = nan.
Proof.
  intros Hc Hnan.
  destruct (scan_cycle toLocaleString coin p completedTrades body last Hc)
    as (openT & _ & ->).
  eexists. split; [reflexivity|].
  unfold Reconstructor.closedTrade; cbn [Trade.realizedPnL].
  rewrite positionAfter_totalPnL. now apply fold_add_nan.
Qed.

Lemma scan_non_numeric_closedPnl_witness :
  exists t,
    snd (fold_left (Reconstructor.scanFill EnUS.toLocaleString "X")
           ([fill "X" "1" Fill.B 0 "n/a"] ++ [fill "X" "1" Fill.A 1000 "5.0"])
           (Reconstructor.flat, []))
    = [] ++ [t] /\
    Trade.realizedPnL t = nan.
Proof.
  apply (scan_non_numeric_closedPnl EnUS.toLocaleString "X" Reconstructor.flat []
           [fill "X" "1" Fill.B 0 "n/a"] (fill "X" "1" Fill.A 1000 "5.0")).
  - split; vm_compute; reflexivity.
  - exists (fill "X" "1" Fill.B 0 "n/a"). split; [now left|vm_compute; reflexivity].
Defined.

(** ** One and two fills *)

Lemma nearZero_zero x : (x =? 0)%float = true -> Reconstructor.nearZero x = true.
Proof.
  unfold Reconstructor.nearZero. rewrite eqb_spec, ltb_spec, abs_spec.
  change (Prim2SF 0) with (S754_zero false).
  replace (Prim2SF Reconstructor.epsilon)
    with (S754_finite false 7378697629483821 (-66)) by (vm_compute; reflexivity).
  destruct (Prim2SF x) as [s|s| |s m e]; intros H;
    [reflexivity | destruct s; discriminate H | discriminate H
    | destruct s; discriminate H].
Qed.

Lemma nearZero_opp x : Reconstructor.nearZero (- x) = Reconstructor.nearZero x.
Proof. unfold Reconstructor.nearZero. now rewrite abs_opp. Qed.

(** The signed size of a fill: its size on a buy, the opposite on a sell. *)
Lemma applyFill_flat f :
  (parseFloat (Fill.sz f) =? 0)%float = false ->
  Reconstructor.applyFill Reconstructor.flat f
  = Reconstructor.mkPosition
      match Fill.side f with
      | Fill.B => parseFloat (Fill.sz f)
      | Fill.A => (- parseFloat (Fill.sz f))%float
      end
      (Some (Fill.time f))
      (0 + parseFloat (Reconstructor.closedPnlText f))%float
      (Some (directionOf f)).
Proof.
  intros Hnz. unfold Reconstructor.applyFill, Reconstructor.flat, directionOf.
  cbn [Reconstructor.positionSize Reconstructor.openTime Reconstructor.totalPnL
       Reconstructor.positionDirection].
  destruct (Fill.side f).
  - rewrite add_zero_l by assumption. now rewrite Hnz.
  - rewrite sub_zero_l by assumption. now rewrite eqb_opp_zero, Hnz.
Qed.

Lemma processCompletedTrades_one
    (toLocaleString : Z -> string) (getTime : string -> option Z) f :
  Reconstructor.processCompletedTrades toLocaleString getTime [f]
  = snd (Reconstructor.scanFill toLocaleString (Fill.coin f) (Reconstructor.flat, []) f).
Proof.
  unfold Reconstructor.processCompletedTrades, Reconstructor.groupByCoin.
  cbn [fold_left Reconstructor.mapPush Reconstructor.scanCoin sort fold_right insert].
  destruct (Reconstructor.closes (Reconstructor.applyFill Reconstructor.flat f)) eqn:E.
  - destruct (scanFill_close toLocaleString (Fill.coin f) Reconstructor.flat [] f E)
      as (openT & _ & ->). reflexivity.
  - now rewrite scanFill_open.
Qed.

(** X7. A single fill whose size is not zero but below 0.0001 in absolute
    value is returned as a completed trade of its own, of duration
    "0h 0m": the position opens and counts as closed on the same fill. *)
Theorem processCompletedTrades_tiny_fill
    (toLocaleString : Z -> string) (getTime : string -> option Z) f :
  (parseFloat (Fill.sz f) =? 0)%float = false ->
  (abs (parseFloat (Fill.sz f)) <? Reconstructor.epsilon)%float = true ->
  Reconstructor.processCompletedTrades toLocaleString getTime [f]
  = [Trade.mk (Fill.coin f) (directionOf f) (toLocaleString (Fill.time f)) "0h 0m"
              (0 + parseFloat (Reconstructor.closedPnlText f))%float].
Proof.
  intros Hnz Htiny. rewrite processCompletedTrades_one.
  assert (Hcl : Reconstructor.closes (Reconstructor.applyFill Reconstructor.flat f) = true).
  { rewrite applyFill_flat by assumption.
    unfold Reconstructor.closes; cbn [Reconstructor.openTime Reconstructor.positionSize].
    destruct (Fill.side f); [exact Htiny|]. rewrite nearZero_opp. exact Htiny. }
  destruct (scanFill_close toLocaleString (Fill.coin f) Reconstructor.flat [] f Hcl)
    as (openT & Ho & ->).
  rewrite applyFill_flat in * by assumption.
  cbn [Reconstructor.openTime] in Ho. injection Ho as <-.
  cbn [snd app]. unfold Reconstructor.closedTrade.
  cbn [Reconstructor.positionDirection Reconstructor.totalPnL].
  now rewrite Z.sub_diag.
Qed.

Lemma processCompletedTrades_tiny_fill_witness :
  EnUS.processCompletedTrades [fill "BTC" "0.00005" Fill.B 1700000000000 "0"]
  = [Trade.mk "BTC" Trade.long "11/14/2023, 10:13:20 PM" "0h 0m" 0%float].
Proof.
  apply (processCompletedTrades_tiny_fill EnUS.toLocaleString EnUS.getTime
           (fill "BTC" "0.00005" Fill.B 1700000000000 "0"));
    vm_compute; reflexivity.
Defined.

(** X8. A single fill whose size parses to zero gives no trade: the
    position never leaves zero. *)
Theorem processCompletedTrades_zero_size_fill
    (toLocaleString : Z -> string) (getTime : string -> option Z) f :
  (parseFloat (Fill.sz f) =? 0)%float = true ->
  Reconstructor.processCompletedTrades toLocaleString getTime [f] = [].
Proof.
  intros Hz. rewrite processCompletedTrades_one.
  rewrite scanFill_open; [reflexivity|].
  unfold Reconstructor.closes, Reconstructor.applyFill, Reconstructor.flat.
  cbn [Reconstructor.positionSize Reconstructor.openTime].
  destruct (Fill.side f).
  - now rewrite (add_zero_zero _ Hz).
  - now rewrite (sub_zero_zero _ Hz).
Qed.

Lemma processCompletedTrades_zero_size_fill_witness :
  EnUS.processCompletedTrades [fill "X" "-0.000" Fill.A 1700000000000 "12.5"] = [].
Proof.
  apply (processCompletedTrades_zero_size_fill EnUS.toLocaleString EnUS.getTime).
  vm_compute. reflexivity.
Defined.

(** X9. A fill followed, not earlier, by a fill of the same coin, the same
    size and the other side is one round trip, whatever the size (finite and
    at least 0.0001 in absolute value), the times and the closedPnl: exactly
    one trade, its direction given by the first fill, its opening time the
    time of the first fill, its duration the time between the two, its
    realizedPnL the two closedPnl added to 0 in order. *)
Theorem processCompletedTrades_round_trip
    (toLocaleString : Z -> string) (getTime : string -> option Z) f1 f2 :
  Fill.coin f1 = Fill.coin f2 ->
  Fill.side f1 <> Fill.side f2 ->
  parseFloat (Fill.sz f1) = parseFloat (Fill.sz f2) ->
  is_finite (parseFloat (Fill.sz f1)) = true ->
  (abs (parseFloat (Fill.sz f1)) <? Reconstructor.epsilon)%float = false ->
  Fill.time f1 <= Fill.time f2 ->
  Reconstructor.processCompletedTrades toLocaleString getTime [f1; f2]
  = [Trade.mk (Fill.coin f1) (directionOf f1) (toLocaleString (Fill.time f1))
              (Reconstructor.formatDuration (Fill.time f2 - Fill.time f1))
              (0 + parseFloat (Reconstructor.closedPnlText f1)
                 + parseFloat (Reconstructor.closedPnlText f2))%float].
Proof.
  intros Hcoin Hside Hsz Hfin Hbig Htime.
  assert (Hnz : (parseFloat (Fill.sz f1) =? 0)%float = false).
  { destruct (parseFloat (Fill.sz f1) =? 0)%float eqn:E; [|reflexivity].
    apply nearZero_zero in E. unfold Reconstructor.nearZero in E. congruence. }
  unfold Reconstructor.processCompletedTrades, Reconstructor.groupByCoin.
  cbn [fold_left Reconstructor.mapPush].
  rewrite Hcoin, String.eqb_refl. cbn [app fold_left Reconstructor.scanCoin].
  assert (Hsort : sort Reconstructor.byTime [f1; f2] = [f1; f2]).
  { cbn [sort fold_right insert]. rewrite byTime_orders.
    destruct (Z.leb_spec (Fill.time f1) (Fill.time f2)); [reflexivity|lia]. }
  rewrite Hsort. cbn [fold_left].
  assert (Hopen : Reconstructor.closes (Reconstructor.applyFill Reconstructor.flat f1)
                  = false).
  { rewrite applyFill_flat by assumption.
    unfold Reconstructor.closes; cbn [Reconstructor.openTime Reconstructor.positionSize].
    destruct (Fill.side f1); [exact Hbig|]. rewrite nearZero_opp. exact Hbig. }
  rewrite scanFill_open by assumption.
  rewrite applyFill_flat by assumption.
  set (p1 := Reconstructor.mkPosition _ _ _ _).
  assert (Hp2 : Reconstructor.applyFill p1 f2
                = Reconstructor.mkPosition 0%float (Some (Fill.time f1))
                    (0 + parseFloat (Reconstructor.closedPnlText f1)
                       + parseFloat (Reconstructor.closedPnlText f2))%float
                    (Some (directionOf f1))).
  { unfold Reconstructor.applyFill, p1.
    cbn [Reconstructor.positionSize Reconstructor.openTime Reconstructor.totalPnL
         Reconstructor.positionDirection].
    rewrite <- Hsz.
    destruct (Fill.side f1), (Fill.side f2); try congruence.
    - now rewrite sub_diag.
    - now rewrite add_opp_diag. }
  assert (Hcl : Reconstructor.closes (Reconstructor.applyFill p1 f2) = true)
    by (rewrite Hp2; reflexivity).
  destruct (scanFill_close toLocaleString (Fill.coin f2) p1 [] f2 Hcl)
    as (openT & Ho & ->).
  rewrite Hp2 in *. cbn [Reconstructor.openTime] in Ho. injection Ho as <-.
  reflexivity.
Qed.

Lemma processCompletedTrades_round_trip_witness :
  EnUS.processCompletedTrades
    [fill "ETH" "0.75" Fill.A 1700000000000 "-0.4";
     fill "ETH" "0.750" Fill.B 1700007384000 "12.9"]
  = [Trade.mk "ETH" Trade.short "11/14/2023, 10:13:20 PM" "2h 3m" 12.5%float].
Proof.
  unfold EnUS.processCompletedTrades.
  rewrite (processCompletedTrades_round_trip EnUS.toLocaleString EnUS.getTime
             (fill "ETH" "0.75" Fill.A 1700000000000 "-0.4")
             (fill "ETH" "0.750" Fill.B 1700007384000 "12.9")).
  - vm_compute. reflexivity.
  - reflexivity.
  - cbn. discriminate.
  - vm_compute. reflexivity.
  - vm_compute. reflexivity.
  - vm_compute. reflexivity.
  - cbn. lia.
Defined.

(** ** The trades of a coin, from the first fills of its scan *)

Lemma opp_involutive x : (- - x)%float = x.
Proof.
  apply Prim2SF_inj. rewrite !opp_spec.
  destruct (Prim2SF x) as [[]|[]| |[] m e]; reflexivity.
Qed.

Lemma StronglySorted_prefix {T} (R : T -> T -> Prop) a b :
  StronglySorted R (a ++ b) -> StronglySorted R a.
Proof.
  induction a as [|x a IH]; cbn [app]; intros H; [constructor|].
  inversion H as [|? ? Hs Hall]; subst. constructor; [now apply IH|].
  rewrite Forall_forall in *. intros y Hy. apply Hall. apply in_or_app. now left.
Qed.

(** The first fills of a list sorted by time are themselves sorted. *)
Lemma sort_byTime_prefix l a b :
  sort Reconstructor.byTime l = a ++ b -> sort Reconstructor.byTime a = a.
Proof.
  intros H.
  apply (sort_sorted_id Reconstructor.byTime Fill.time);
    [intros x y _ _; apply byTime_orders|].
  apply (StronglySorted_prefix _ a b). rewrite <- H.
  apply sort_sorted. intros x y _ _. apply byTime_orders.
Qed.

Section CoinTrades.
Variable toLocaleString : Z -> string.
Variable getTime : string -> option Z.

Local Abbreviation processCompletedTrades :=
  (Reconstructor.processCompletedTrades toLocaleString getTime).
Local Abbreviation scan coin l :=
  (fold_left (Reconstructor.scanFill toLocaleString coin) l (Reconstructor.flat, [])).
Local Abbreviation ofCoin c := (fun t => String.eqb (Trade.coin t) c).

(** The trades of one coin in the result are those its own scan pushes. *)
Lemma coin_trades fills c :
  Permutation (filter (ofCoin c) (processCompletedTrades fills))
              (tradesOf toLocaleString c (coinFillsOf c fills)).
Proof.
  rewrite processCompletedTrades_by_coin.
  rewrite (filter_perm _ _ _ (sort_perm _ _)).
  destruct (coinFillsOf c fills) as [|f0 l0] eqn:Ec.
  - rewrite filter_none; [reflexivity|].
    intros t Ht. apply in_flat_map in Ht as (k & Hk & Ht).
    apply tradesOf_coin in Ht. rewrite Ht. apply String.eqb_neq. intros ->.
    apply coinsOf_In in Hk as (f & Hf & Hfc).
    assert (Hin : In f (coinFillsOf c fills)) by now apply coinFillsOf_In.
    rewrite Ec in Hin. destruct Hin.
  - rewrite <- Ec.
    rewrite (filter_coin_flat_map
               (fun k => tradesOf toLocaleString k (coinFillsOf k fills)) c);
      [reflexivity| | |].
    + intros k t. apply tradesOf_coin.
    + apply coinsOf_NoDup.
    + apply coinsOf_In. exists f0. apply coinFillsOf_In. rewrite Ec. now left.
Qed.

(** The result for fills that are all of one coin is what the scan of that
    coin pushes. *)
Lemma one_coin_trades l c :
  (forall f, In f l -> Fill.coin f = c) ->
  Permutation (processCompletedTrades l) (tradesOf toLocaleString c l).
Proof.
  intros Hall.
  assert (Hid : coinFillsOf c l = l).
  { unfold coinFillsOf. apply forallb_filter_id. apply forallb_forall.
    intros f Hf. apply String.eqb_eq. symmetry. now apply Hall. }
  rewrite <- Hid at 2. rewrite <- coin_trades.
  rewrite forallb_filter_id; [reflexivity|].
  apply forallb_forall. intros t Ht. apply String.eqb_eq.
  rewrite processCompletedTrades_by_coin in Ht.
  apply (Permutation_in _ (sort_perm _ _)) in Ht.
  apply in_flat_map in Ht as (k & Hk & Ht).
  apply tradesOf_coin in Ht. rewrite Ht.
  apply coinsOf_In in Hk as (f & Hf & <-). now apply Hall.
Qed.

(** When the fills of a coin after the first few push nothing, the trades of
    that coin are the result for those first fills alone. *)
Lemma prefix_trades fills coin a b :
  sort Reconstructor.byTime (coinFillsOf coin fills) = a ++ b ->
  snd (scan coin (a ++ b)) = snd (scan coin a) ->
  Permutation (filter (ofCoin coin) (processCompletedTrades fills))
              (processCompletedTrades a).
Proof.
  intros Hsorted Hsame.
  rewrite coin_trades. unfold tradesOf at 1. rewrite Hsorted, Hsame.
  rewrite (one_coin_trades a coin).
  - unfold tradesOf. now rewrite (sort_byTime_prefix _ _ _ Hsorted).
  - intros f Hf.
    assert (Hin : In f (coinFillsOf coin fills)).
    { eapply Permutation_in; [apply sort_perm|].
      rewrite Hsorted. apply in_or_app. now left. }
    now apply coinFillsOf_In in Hin.
Qed.

Lemma staysOpen_snoc l : forall p f,
  staysOpen p (l ++ [f])
  = staysOpen p l && negb (Reconstructor.closes (Reconstructor.applyFill (positionAfter p l) f)).
Proof.
  induction l as [|g l IH]; intros p f; cbn [app staysOpen].
  - now rewrite andb_true_r.
  - rewrite IH. unfold positionAfter. cbn [fold_left]. now rewrite andb_assoc.
Qed.

(** Every scan splits into the fills up to the last one that closed a
    position and the fills after it, none of which closes. *)
Lemma scan_split coin l :
  exists closed dangling,
    l = closed ++ dangling /\
    Reconstructor.openTime (fst (scan coin closed)) = None /\
    staysOpen (fst (scan coin closed)) dangling = true.
Proof.
  induction l as [|f l IH] using rev_ind.
  - exists [], []. repeat split.
  - destruct IH as (closed & dangling & -> & Hflat & Hopen).
    set (p := Reconstructor.applyFill
                (positionAfter (fst (scan coin closed)) dangling) f).
    destruct (Reconstructor.closes p) eqn:Ec.
    + exists ((closed ++ dangling) ++ [f]), []. rewrite app_nil_r.
      split; [reflexivity|]. split; [|reflexivity].
      rewrite fold_left_app. cbn [fold_left].
      rewrite fold_left_app.
      destruct (scan coin closed) as [p0 ts0] eqn:E0. cbn [fst] in *.
      rewrite (scan_staysOpen toLocaleString coin dangling p0 ts0 Hopen).
      destruct (scanFill_close toLocaleString coin _ ts0 f Ec) as (openT & _ & ->).
      reflexivity.
    + exists closed, (dangling ++ [f]).
      split; [now rewrite app_assoc|]. split; [assumption|].
      rewrite staysOpen_snoc, Hopen. fold p. now rewrite Ec.
Qed.

End CoinTrades.

Lemma filter_split {T} (P : T -> bool) l :
  Permutation l (filter P l ++ filter (fun x => negb (P x)) l).
Proof.
  induction l as [|x l IH]; [reflexivity|]. cbn [filter].
  destruct (P x); cbn [negb app].
  - now constructor.
  - now apply Permutation_cons_app.
Qed.

Lemma filter_filter_implied {T} (P Q : T -> bool) l :
  (forall x, P x = true -> Q x = true) -> filter P (filter Q l) = filter P l.
Proof.
  intros H. induction l as [|x l IH]; [reflexivity|]. cbn [filter].
  destruct (Q x) eqn:Eq; cbn [filter]; rewrite IH; [reflexivity|].
  destruct (P x) eqn:Ep; [|reflexivity]. apply H in Ep. congruence.
Qed.

Lemma flat_map_ext_in {A B} (g g' : A -> list B) l :
  (forall a, In a l -> g a = g' a) -> flat_map g l = flat_map g' l.
Proof.
  induction l as [|a l IH]; intros H; [reflexivity|]. cbn [flat_map].
  rewrite (H a) by now left. rewrite IH; [reflexivity|].
  intros b Hb. apply H. now right.
Qed.

Section OtherCoins.
Variable toLocaleString : Z -> string.
Variable getTime : string -> option Z.

Local Abbreviation processCompletedTrades :=
  (Reconstructor.processCompletedTrades toLocaleString getTime).

(** The trades of the coins other than [c] are the result for the fills of
    those coins. *)
Lemma other_coins_trades fills c :
  Permutation
    (filter (fun t => negb (String.eqb (Trade.coin t) c)) (processCompletedTrades fills))
    (processCompletedTrades (otherCoinFills c fills)).
Proof.
  set (others := otherCoinFills c fills).
  set (G := fun k => tradesOf toLocaleString k (coinFillsOf k fills)).
  rewrite !processCompletedTrades_by_coin.
  rewrite (filter_perm _ _ _ (sort_perm _ _)), (sort_perm _ _). fold G.
  assert (Hkeys : forall keys,
            filter (fun t => negb (String.eqb (Trade.coin t) c)) (flat_map G keys)
            = flat_map G (filter (fun k => negb (String.eqb k c)) keys)).
  { induction keys as [|k keys IH]; [reflexivity|].
    cbn [flat_map filter]. rewrite filter_app, IH.
    destruct (String.eqb_spec k c) as [->|Hne]; cbn [negb flat_map].
    - rewrite filter_none; [reflexivity|].
      intros t Ht. apply tradesOf_coin in Ht. rewrite Ht, String.eqb_refl. reflexivity.
    - f_equal. apply forallb_filter_id, forallb_forall.
      intros t Ht. apply tradesOf_coin in Ht. rewrite Ht.
      apply negb_true_iff, String.eqb_neq. exact Hne. }
  rewrite Hkeys.
  assert (Hin : forall f, In f others <-> In f fills /\ Fill.coin f <> c).
  { intros f. unfold others, otherCoinFills. rewrite filter_In, negb_true_iff.
    rewrite String.eqb_neq. split; intros [H1 H2]; split; auto. }
  rewrite (flat_map_ext_in
             (fun k => tradesOf toLocaleString k (coinFillsOf k others)) G).
  - apply Permutation_flat_map. apply NoDup_Permutation.
    + apply NoDup_filter, coinsOf_NoDup.
    + apply coinsOf_NoDup.
    + intros k. rewrite filter_In, negb_true_iff, String.eqb_neq, !coinsOf_In.
      split.
      * intros [(f & Hf & <-) Hne]. exists f. split; [|reflexivity]. now apply Hin.
      * intros (f & Hf & <-). apply Hin in Hf as [Hf Hne]. split; [|assumption].
        now exists f.
  - intros k Hk. apply coinsOf_In in Hk as (f & Hf & <-).
    apply Hin in Hf as [_ Hne]. unfold G. f_equal.
    unfold coinFillsOf, others, otherCoinFills. apply filter_filter_implied.
    intros g Hg. apply String.eqb_eq in Hg. apply negb_true_iff, String.eqb_neq.
    congruence.
Qed.

End OtherCoins.

(** ** The claims on invalid sizes and on dangling positions *)

(** C3 (as amended). No size makes the reconstructor fail; every input
    gives a list of trades.
    - A fill whose size does not parse turns the position of its coin into
      NaN, and from that fill on the scan of that coin pushes no trade: the
      result is, as a multiset, the result for the fills of that coin that
      come before it in time order, together with the result for the fills
      of the other coins.
    - A negative size is added to the position like any other: two fills of
      one coin on the same side, the size of the first the opposite of the
      size of the second (finite, at least 0.0001 in absolute value), the
      second not earlier, are returned as one trade.
    - A fill of size zero is accepted as well: alone, it gives the empty
      list. *)
Theorem processCompletedTrades_invalid_sizes
    (toLocaleString : Z -> string) (getTime : string -> option Z) :
  (forall fills coin before f rest,
     sort Reconstructor.byTime (coinFillsOf coin fills) = before ++ f :: rest ->
     parseFloat (Fill.sz f) = nan ->
     Permutation
       (Reconstructor.processCompletedTrades toLocaleString getTime fills)
       (Reconstructor.processCompletedTrades toLocaleString getTime before
        ++ Reconstructor.processCompletedTrades toLocaleString getTime
             (otherCoinFills coin fills)))
  /\
  (forall f1 f2,
     Fill.coin f1 = Fill.coin f2 ->
     Fill.side f1 = Fill.side f2 ->
     parseFloat (Fill.sz f1) = (- parseFloat (Fill.sz f2))%float ->
     is_finite (parseFloat (Fill.sz f2)) = true ->
     (abs (parseFloat (Fill.sz f2)) <? Reconstructor.epsilon)%float = false ->
     Fill.time f1 <= Fill.time f2 ->
     Reconstructor.processCompletedTrades toLocaleString getTime [f1; f2]
     = [Trade.mk (Fill.coin f1) (directionOf f1) (toLocaleString (Fill.time f1))
                 (Reconstructor.formatDuration (Fill.time f2 - Fill.time f1))
                 (0 + parseFloat (Reconstructor.closedPnlText f1)
                    + parseFloat (Reconstructor.closedPnlText f2))%float])
  /\
  (forall f,
     (parseFloat (Fill.sz f) =? 0)%float = true ->
     Reconstructor.processCompletedTrades toLocaleString getTime [f] = []).
Proof.
  split; [|split].
  - intros fills coin before f rest Hsorted Hnan.
    rewrite (filter_split (fun t => String.eqb (Trade.coin t) coin)
               (Reconstructor.processCompletedTrades toLocaleString getTime fills)).
    apply Permutation_app.
    + apply (prefix_trades toLocaleString getTime fills coin before (f :: rest) Hsorted).
      rewrite fold_left_app. cbn [fold_left].
      destruct (fold_left _ before _) as [p completedTrades]. cbn [snd].
      assert (Hp : Reconstructor.positionSize (Reconstructor.applyFill p f) = nan)
        by now apply applyFill_nan_size.
      rewrite scanFill_open by now apply closes_nan.
      now rewrite scan_nan.
    + apply other_coins_trades.
  - intros f1 f2 Hcoin Hside Hsz Hfin Hbig Htime.
    set (x := parseFloat (Fill.sz f2)) in *.
    assert (Hnz2 : (x =? 0)%float = false).
    { destruct (x =? 0)%float eqn:E; [|reflexivity].
      apply nearZero_zero in E. unfold Reconstructor.nearZero in E. congruence. }
    assert (Hnz : (parseFloat (Fill.sz f1) =? 0)%float = false)
      by (rewrite Hsz, eqb_opp_zero; exact Hnz2).
    unfold Reconstructor.processCompletedTrades, Reconstructor.groupByCoin.
    cbn [fold_left Reconstructor.mapPush].
    rewrite Hcoin, String.eqb_refl. cbn [app fold_left Reconstructor.scanCoin].
    assert (Hsort : sort Reconstructor.byTime [f1; f2] = [f1; f2]).
    { cbn [sort fold_right insert]. rewrite byTime_orders.
      destruct (Z.leb_spec (Fill.time f1) (Fill.time f2)); [reflexivity|lia]. }
    rewrite Hsort. cbn [fold_left].
    assert (Hopen : Reconstructor.closes (Reconstructor.applyFill Reconstructor.flat f1)
                    = false).
    { rewrite applyFill_flat by assumption.
      unfold Reconstructor.closes; cbn [Reconstructor.openTime Reconstructor.positionSize].
      rewrite Hsz.
      destruct (Fill.side f1); rewrite ?nearZero_opp; exact Hbig. }
    rewrite scanFill_open by assumption.
    rewrite applyFill_flat by assumption.
    set (p1 := Reconstructor.mkPosition _ _ _ _).
    assert (Hp2 : Reconstructor.applyFill p1 f2
                  = Reconstructor.mkPosition 0%float (Some (Fill.time f1))
                      (0 + parseFloat (Reconstructor.closedPnlText f1)
                         + parseFloat (Reconstructor.closedPnlText f2))%float
                      (Some (directionOf f1))).
    { unfold Reconstructor.applyFill, p1.
      cbn [Reconstructor.positionSize Reconstructor.openTime Reconstructor.totalPnL
           Reconstructor.positionDirection].
      rewrite Hsz, <- Hside. fold x.
      destruct (Fill.side f1).
      - now rewrite add_opp_diag.
      - rewrite opp_involutive. now rewrite sub_diag. }
    assert (Hcl : Reconstructor.closes (Reconstructor.applyFill p1 f2) = true)
      by (rewrite Hp2; reflexivity).
    destruct (scanFill_close toLocaleString (Fill.coin f2) p1 [] f2 Hcl)
      as (openT & Ho & ->).
    rewrite Hp2 in *. cbn [Reconstructor.openTime] in Ho. injection Ho as <-.
    reflexivity.
  - intros f Hz. rewrite processCompletedTrades_one.
    rewrite scanFill_open; [reflexivity|].
    unfold Reconstructor.closes, Reconstructor.applyFill, Reconstructor.flat.
    cbn [Reconstructor.positionSize Reconstructor.openTime].
    destruct (Fill.side f).
    + now rewrite (add_zero_zero _ Hz).
    + now rewrite (sub_zero_zero _ Hz).
Qed.

Lemma processCompletedTrades_invalid_sizes_witness :
  let fills := [fill "X" "1" Fill.B 3000 "0"; fill "Y" "2" Fill.A 500 "0";
                fill "X" "abc" Fill.B 2000 "0"; fill "X" "1" Fill.A 1000 "5.0";
                fill "Y" "2" Fill.B 800 "1.5"; fill "X" "1" Fill.A 4000 "2";
                fill "X" "1" Fill.B 0 "0"] in
  Permutation
    (EnUS.processCompletedTrades fills)
    (EnUS.processCompletedTrades
       [fill "X" "1" Fill.B 0 "0"; fill "X" "1" Fill.A 1000 "5.0"]
     ++ EnUS.processCompletedTrades
          [fill "Y" "2" Fill.A 500 "0"; fill "Y" "2" Fill.B 800 "1.5"])
  /\
  EnUS.processCompletedTrades [fill "X" "-1" Fill.B 0 "0"; fill "X" "1" Fill.B 1000 "3"]
  = [Trade.mk "X" Trade.long "1/1/1970, 12:00:00 AM" "0h 0m" 3%float]
  /\
  EnUS.processCompletedTrades [fill "X" "0" Fill.B 0 "0"] = [].
Proof.
  intros fills.
  destruct (processCompletedTrades_invalid_sizes EnUS.toLocaleString EnUS.getTime)
    as (Hnan & Hneg & Hzero).
  split; [|split].
  - apply (Hnan fills "X"%string
             [fill "X" "1" Fill.B 0 "0"; fill "X" "1" Fill.A 1000 "5.0"]
             (fill "X" "abc" Fill.B 2000 "0")
             [fill "X" "1" Fill.B 3000 "0"; fill "X" "1" Fill.A 4000 "2"]).
    + vm_compute. reflexivity.
    + vm_compute. reflexivity.
  - unfold EnUS.processCompletedTrades.
    rewrite (Hneg (fill "X" "-1" Fill.B 0 "0") (fill "X" "1" Fill.B 1000 "3")).
    + vm_compute. reflexivity.
    + reflexivity.
    + reflexivity.
    + vm_compute. reflexivity.
    + vm_compute. reflexivity.
    + vm_compute. reflexivity.
    + cbn. lia.
  - apply Hzero. vm_compute. reflexivity.
Defined.

(** C5. A fill that leaves the position of its coin open pushes no trade.
    - When no fill of [dangling] closes the position, scanned from where
      the fills [closed] before them leave the scan, the trades of the coin
      in the result are those of [closed] alone: the fills of [dangling]
      leave nothing in it.
    - When the position is not flat after the last fill of a coin (its
      absolute size is at least 0.0001), the fills of the coin do end with
      such a cycle: they split into fills after which no position is open
      and at least one fill after them, none of which closes the position;
      the trades of the coin in the result are those of the first part.
    - A single buy of size 1 gives no trade at all. *)
Theorem processCompletedTrades_dangling_position
    (toLocaleString : Z -> string) (getTime : string -> option Z) :
  (forall fills coin closed dangling,
     sort Reconstructor.byTime (coinFillsOf coin fills) = closed ++ dangling ->
     staysOpen
       (fst (fold_left (Reconstructor.scanFill toLocaleString coin) closed
                       (Reconstructor.flat, [])))
       dangling = true ->
     Permutation
       (filter (fun t => String.eqb (Trade.coin t) coin)
               (Reconstructor.processCompletedTrades toLocaleString getTime fills))
       (Reconstructor.processCompletedTrades toLocaleString getTime closed))
  /\
  (forall fills coin,
     (Reconstructor.epsilon
      <=? abs (Reconstructor.positionSize
                 (fst (fold_left (Reconstructor.scanFill toLocaleString coin)
                                 (sort Reconstructor.byTime (coinFillsOf coin fills))
                                 (Reconstructor.flat, [])))))%float = true ->
     exists closed dangling,
       sort Reconstructor.byTime (coinFillsOf coin fills) = closed ++ dangling /\
       dangling <> [] /\
       Reconstructor.openTime
         (fst (fold_left (Reconstructor.scanFill toLocaleString coin) closed
                         (Reconstructor.flat, []))) = None /\
       staysOpen
         (fst (fold_left (Reconstructor.scanFill toLocaleString coin) closed
                         (Reconstructor.flat, [])))
         dangling = true /\
       Permutation
         (filter (fun t => String.eqb (Trade.coin t) coin)
                 (Reconstructor.processCompletedTrades toLocaleString getTime fills))
         (Reconstructor.processCompletedTrades toLocaleString getTime closed))
  /\
  (forall buy,
     Fill.sz buy = "1"%string -> Fill.side buy = Fill.B -> Fill.time buy = 0 ->
     Fill.closedPnl buy = "0"%string ->
     Reconstructor.processCompletedTrades toLocaleString getTime [buy] = []).
Proof.
  assert (Hpart : forall fills coin closed dangling,
     sort Reconstructor.byTime (coinFillsOf coin fills) = closed ++ dangling ->
     staysOpen
       (fst (fold_left (Reconstructor.scanFill toLocaleString coin) closed
                       (Reconstructor.flat, [])))
       dangling = true ->
     Permutation
       (filter (fun t => String.eqb (Trade.coin t) coin)
               (Reconstructor.processCompletedTrades toLocaleString getTime fills))
       (Reconstructor.processCompletedTrades toLocaleString getTime closed)).
  { intros fills coin closed dangling Hsorted Hopen.
    apply (prefix_trades toLocaleString getTime fills coin closed dangling Hsorted).
    rewrite fold_left_app.
    destruct (fold_left _ closed _) as [p completedTrades]. cbn [fst snd] in *.
    now rewrite (scan_staysOpen toLocaleString coin dangling p completedTrades Hopen). }
  split; [exact Hpart|split].
  - intros fills coin Hend.
    destruct (scan_split toLocaleString coin
                (sort Reconstructor.byTime (coinFillsOf coin fills)))
      as (closed & dangling & Hsorted & Hflat & Hopen).
    exists closed, dangling. repeat split; try assumption.
    + intros ->. rewrite app_nil_r in Hsorted. rewrite Hsorted in Hend.
      destruct closed as [|f closed _] using rev_ind.
      * vm_compute in Hend. discriminate Hend.
      * rewrite fold_left_app in Hend, Hflat. cbn [fold_left] in Hend, Hflat.
        destruct (fold_left _ closed _) as [p completedTrades].
        destruct (Reconstructor.closes (Reconstructor.applyFill p f)) eqn:Ec.
        -- destruct (scanFill_close toLocaleString coin p completedTrades f Ec)
             as (openT & _ & Hs).
           rewrite Hs in Hend. cbn [fst cleared Reconstructor.positionSize] in Hend.
           apply leb_not_ltb in Hend.
           unfold Reconstructor.closes, Reconstructor.nearZero in Ec.
           destruct (Reconstructor.openTime (Reconstructor.applyFill p f));
             [|discriminate Ec].
           rewrite Hend in Ec. discriminate Ec.
        -- rewrite scanFill_open in Hend, Hflat by assumption. cbn [fst] in Hend, Hflat.
           clear Ec. revert Hend Hflat.
           unfold Reconstructor.applyFill.
           cbn [Reconstructor.openTime Reconstructor.positionSize].
           set (size := if match Fill.side f with Fill.B => true | Fill.A => false end
                        then _ else _).
           destruct (Reconstructor.openTime p); [discriminate|].
           destruct (size =? 0)%float eqn:Ez; [|discriminate].
           intros Hend _. apply nearZero_zero in Ez. apply leb_not_ltb in Hend.
           unfold Reconstructor.nearZero in Ez. rewrite Hend in Ez. discriminate Ez.
    + now apply (Hpart fills coin closed dangling).
  - intros buy Hsz Hside Htime Hpnl.
    rewrite (processCompletedTrades_agree toLocaleString getTime [buy]
               [fill (Fill.coin buy) "1" Fill.B 0 "0"])
      by (constructor; [unfold agree; cbn; auto|constructor]).
    unfold Reconstructor.processCompletedTrades, Reconstructor.groupByCoin.
    cbn [fold_left Reconstructor.mapPush Reconstructor.scanCoin sort fold_right insert].
    vm_compute. reflexivity.
Qed.

Lemma processCompletedTrades_dangling_position_witness :
  let fills := [fill "X" "2" Fill.A 2000 "0"; fill "Y" "1" Fill.B 500 "0";
                fill "X" "1" Fill.A 1000 "5.0"; fill "X" "1" Fill.B 0 "0";
                fill "X" "3" Fill.A 2500 "0.5"] in
  Permutation
    (filter (fun t => String.eqb (Trade.coin t) "X") (EnUS.processCompletedTrades fills))
    (EnUS.processCompletedTrades
       [fill "X" "1" Fill.B 0 "0"; fill "X" "1" Fill.A 1000 "5.0"])
  /\
  (exists closed dangling,
     sort Reconstructor.byTime (coinFillsOf "X" fills) = closed ++ dangling /\
     dangling <> [] /\
     Permutation
       (filter (fun t => String.eqb (Trade.coin t) "X") (EnUS.processCompletedTrades fills))
       (EnUS.processCompletedTrades closed))
  /\
  EnUS.processCompletedTrades [fill "X" "1" Fill.B 0 "0"] = [].
Proof.
  intros fills.
  destruct (processCompletedTrades_dangling_position EnUS.toLocaleString EnUS.getTime)
    as (Hpart & Hend & Hone).
  split; [|split].
  - apply (Hpart fills "X"%string
             [fill "X" "1" Fill.B 0 "0"; fill "X" "1" Fill.A 1000 "5.0"]
             [fill "X" "2" Fill.A 2000 "0"; fill "X" "3" Fill.A 2500 "0.5"]).
    + vm_compute. reflexivity.
    + vm_compute. reflexivity.
  - destruct (Hend fills "X"%string) as (closed & dangling & H1 & H2 & _ & _ & H3).
    + vm_compute. reflexivity.
    + exists closed, dangling. repeat split; assumption.
  - apply Hone; reflexivity.
Defined.

(** ** Further properties of [convertOrderBook] *)

Lemma formatOrdersFrom_firstn n : forall runningTotal orders,
  firstn n (OrderBook.formatOrdersFrom runningTotal orders)
  = OrderBook.formatOrdersFrom runningTotal (firstn n orders).
Proof.
  induction n as [|n IH]; intros runningTotal [|order rest]; try reflexivity.
  cbn [firstn OrderBook.formatOrdersFrom]. now rewrite IH.
Qed.

(** X10. The first [n] rows of each side, and the mid price when [n] is at
    least 1, are those of the snapshot cut to its first [n] levels a side:
    deeper levels change nothing above them. *)
Theorem convertOrderBook_top_levels coin time precision bids asks n :
  let full := OrderBook.convertOrderBook (Book.mk coin (bids, asks) time) precision in
  let cut :=
    OrderBook.convertOrderBook
      (Book.mk coin (firstn n bids, firstn n asks) time) precision in
  View.bids cut = firstn n (View.bids full) /\
  View.asks cut = firstn n (View.asks full) /\
  ((1 <= n)%nat -> View.midPrice cut = View.midPrice full).
Proof.
  cbv zeta. unfold OrderBook.convertOrderBook, OrderBook.formatOrders.
  cbn [Book.levels View.bids View.asks View.midPrice].
  rewrite !formatOrdersFrom_firstn. repeat split.
  intros Hn. destruct n as [|n]; [lia|].
  now destruct bids, asks.
Qed.

Lemma convertOrderBook_top_levels_witness :
  let bids := [Level.mk "29.400" "100.00"; Level.mk "29.399" "150.00";
               Level.mk "29.398" "200.00"] in
  let asks := [Level.mk "29.500" "100.00"; Level.mk "29.501" "150.00";
               Level.mk "29.502" "200.00"] in
  View.midPrice
    (OrderBook.convertOrderBook (Book.mk "AVAX" (firstn 1 bids, firstn 1 asks) 0) 3%float)
  = View.midPrice (OrderBook.convertOrderBook (Book.mk "AVAX" (bids, asks) 0) 3%float).
Proof.
  intros bids asks.
  apply (convertOrderBook_top_levels "AVAX" 0 3%float bids asks 1). lia.
Defined.

(** X11. A level whose size is not numeric gives a NaN total to its own row
    and to every row after it on that side. *)
Theorem formatOrders_non_numeric_size orders i level j row :
  nth_error orders i = Some level ->
  parseFloat (Level.sz level) = nan ->
  (i <= j)%nat ->
  nth_error (OrderBook.formatOrders orders) j = Some row ->
  Row.total row = nan.
Proof.
  intros Hi Hnan Hij Hj.
  destruct (nth_error orders j) as [level'|] eqn:Ej.
  - destruct (formatOrders_rows orders) as (_ & Hnth & _).
    rewrite (Hnth _ _ Ej) in Hj. injection Hj as <-. cbn [Row.total].
    unfold OrderBook.runningSum. apply fold_add_nan.
    exists level. split; [|assumption].
    rewrite <- (firstn_skipn (S j) orders) in Hi.
    rewrite nth_error_app1 in Hi.
    + eapply nth_error_In; eassumption.
    + rewrite length_firstn.
      assert (j < List.length orders)%nat by (apply nth_error_Some; congruence). lia.
  - apply nth_error_None in Ej.
    assert (Hsome : nth_error (OrderBook.formatOrders orders) j <> None) by congruence.
    apply nth_error_Some in Hsome.
    destruct (formatOrders_rows orders) as (Hlen & _). lia.
Qed.

Lemma formatOrders_non_numeric_size_witness :
  let orders := [Level.mk "29.500" "100.00"; Level.mk "29.501" "n/a";
                 Level.mk "29.502" "200.00"] in
  exists row,
    nth_error (OrderBook.formatOrders orders) 2 = Some row /\
    Row.size row = 200%float /\ Row.total row = nan.
Proof.
  intros orders. eexists. split; [reflexivity|]. split; [vm_compute; reflexivity|].
  apply (formatOrders_non_numeric_size orders 1 (Level.mk "29.501" "n/a") 2).
  - reflexivity.
  - vm_compute. reflexivity.
  - lia.
  - reflexivity.
Defined.

(** ** The sign of a difference of doubles *)

Module FloatOrder.

Local Abbreviation fexp64 := (fexp prec emax).

(** Rounding a positive mantissa never gives zero or NaN, and keeps the
    sign. *)
Lemma binary_round_aux_signed sx mz e1 :
  -1074 <= e1 -> e1 <= fexp64 (Zpos (digits2_pos mz) + e1) ->
  binary_round_aux prec emax sx (Zpos mz) e1 loc_Exact = S754_infinity sx \/
  exists mr er, binary_round_aux prec emax sx (Zpos mz) e1 loc_Exact = S754_finite sx mr er.
Proof.
  intros He1 He'. set (e' := fexp64 (Zpos (digits2_pos mz) + e1)) in *.
  unfold binary_round_aux.
  pose proof (shr_fexp_exact (Zpos mz) e1 ltac:(lia)) as [Hm1 Hx1].
  pose proof (shifted_mantissa_pos mz e1 He1) as Hpos1.
  cbn [Zdigits2] in Hm1, Hx1. fold e' in Hm1, Hx1, Hpos1.
  replace (Z.max (e' - e1) 0) with (e' - e1) in * by lia.
  destruct (shr_fexp prec emax (Zpos mz) e1 loc_Exact) as [mrs' e'0].
  cbn [fst snd] in Hm1, Hx1. subst e'0.
  replace (e1 + (e' - e1)) with e' by lia.
  pose proof (round_nearest_even_bounds (shr_m mrs') (loc_of_shr_record mrs')) as Hr.
  set (m'' := round_nearest_even (shr_m mrs') (loc_of_shr_record mrs')) in *.
  assert (He'min : -1074 <= e') by (unfold e'; rewrite fexp64_eq; lia).
  destruct m'' as [|q|q] eqn:Eq; try lia.
  pose proof (shr_fexp_exact (Zpos q) e' ltac:(lia)) as [Hm2 Hx2].
  pose proof (shifted_mantissa_pos q e' He'min) as Hpos2.
  cbn [Zdigits2] in Hm2, Hx2.
  set (n2 := Z.max (fexp64 (Zpos (digits2_pos q) + e') - e') 0) in *.
  destruct (shr_fexp prec emax (Zpos q) e' loc_Exact) as [mrs'' e''].
  cbn [fst snd] in Hm2, Hx2. rewrite Hm2. subst e''.
  destruct (Zpos q / 2 ^ n2) as [|mr|mr] eqn:Emr; try lia.
  destruct (e' + n2 <=? emax - prec); [right|left; reflexivity].
  now exists mr, (e' + n2).
Qed.

Lemma binary_round_signed sx m e :
  -1074 <= e ->
  binary_round prec emax sx m e = S754_infinity sx \/
  exists mr er, binary_round prec emax sx m e = S754_finite sx mr er.
Proof.
  intros He. unfold binary_round.
  set (t := fexp64 (Zpos (digits2_pos m) + e)).
  pose proof (shl_align_spec m e t) as (Hs & _ & Hd).
  destruct (shl_align m e t) as [mz e1]. cbn [fst snd] in Hs, Hd.
  assert (Ht : t = Z.max (Zpos (digits2_pos m) + e - 53) (-1074)) by reflexivity.
  apply binary_round_aux_signed; [lia|]. rewrite Hd. fold t. lia.
Qed.

Lemma switch_Eq_id c : Pos.switch_Eq Eq c = c.
Proof. now destruct c. Qed.

(** For numbers in canonical form, comparing exponents and then mantissas
    compares the values. *)
Lemma canonical_order mx ex my ey :
  valid_binary (S754_finite false mx ex) = true ->
  valid_binary (S754_finite false my ey) = true ->
  (Zpos mx * 2 ^ (ex - Z.min ex ey) ?= Zpos my * 2 ^ (ey - Z.min ex ey))
  = match ex ?= ey with
    | Lt => Lt
    | Gt => Gt
    | Eq => Pos.compare_cont Eq mx my
    end.
Proof.
  intros Vx Vy.
  apply valid_finite_inv in Vx as [Cx _]. apply valid_finite_inv in Vy as [Cy _].
  rewrite fexp64_eq in Cx, Cy.
  pose proof (digits2_pos_bounds mx) as [Hxl Hxu].
  pose proof (digits2_pos_bounds my) as [Hyl Hyu].
  assert (Hbig : forall m e e', Z.max (Zpos (digits2_pos m) + e - 53) (-1074) = e ->
                   -1074 <= e' < e -> 2 ^ 52 <= Zpos m).
  { intros m e e' C He.
    assert (Hd : Zpos (digits2_pos m) = 53) by lia.
    pose proof (digits2_pos_bounds m) as [Hl _]. rewrite Hd in Hl. exact Hl. }
  assert (Hsmall : forall m e, Z.max (Zpos (digits2_pos m) + e - 53) (-1074) = e ->
                     Zpos m < 2 ^ 53).
  { intros m e C. pose proof (digits2_pos_bounds m) as [_ Hu].
    eapply Z.lt_le_trans; [exact Hu|]. apply Z.pow_le_mono_r; lia. }
  assert (Hpow : forall k, 0 < k -> 2 <= 2 ^ k).
  { intros k Hk. change 2 with (2 ^ 1) at 1. apply Z.pow_le_mono_r; lia. }
  destruct (Z.compare_spec ex ey) as [Heq|Hlt|Hgt].
  - subst ey. rewrite Z.min_id, Z.sub_diag, !Z.mul_1_r.
    rewrite Pos.compare_cont_spec, switch_Eq_id. reflexivity.
  - replace (Z.min ex ey) with ex by lia. rewrite Z.sub_diag, Z.mul_1_r.
    apply Z.compare_lt_iff.
    pose proof (Hsmall mx ex Cx). pose proof (Hbig my ey ex Cy ltac:(lia)).
    pose proof (Hpow (ey - ex) ltac:(lia)). change (2 ^ 53) with (2 ^ 52 * 2) in *. nia.
  - replace (Z.min ex ey) with ey by lia. rewrite Z.sub_diag, Z.mul_1_r.
    apply Z.compare_gt_iff.
    pose proof (Hsmall my ey Cy). pose proof (Hbig mx ex ey Cx ltac:(lia)).
    pose proof (Hpow (ex - ey) ltac:(lia)). change (2 ^ 53) with (2 ^ 52 * 2) in *. nia.
Qed.

Lemma valid_sign s m e :
  valid_binary (S754_finite s m e) = valid_binary (S754_finite false m e).
Proof. reflexivity. Qed.

(** The difference of two finite doubles is positive exactly when the first
    is the greater. *)
Lemma SFsub_positive sx mx ex sy my ey :
  valid_binary (S754_finite sx mx ex) = true ->
  valid_binary (S754_finite sy my ey) = true ->
  SFltb (S754_zero false) (SF64sub (S754_finite sx mx ex) (S754_finite sy my ey))
  = SFltb (S754_finite sy my ey) (S754_finite sx mx ex).
Proof.
  intros Vx Vy. rewrite valid_sign in Vx, Vy.
  pose proof (canonical_order mx ex my ey Vx Vy) as Hord.
  pose proof (valid_finite_inv _ _ _ Vx) as [Cx _].
  pose proof (valid_finite_inv _ _ _ Vy) as [Cy _].
  rewrite fexp64_eq in Cx, Cy.
  unfold SF64sub, SFsub.
  set (ez := Z.min ex ey) in *.
  pose proof (shl_align_spec mx ex ez) as (_ & Hvx & _).
  pose proof (shl_align_spec my ey ez) as (_ & Hvy & _).
  replace (Z.min ex ez) with ez in Hvx by lia.
  replace (Z.min ey ez) with ez in Hvy by lia.
  set (mx' := Zpos (fst (shl_align mx ex ez))) in *.
  set (my' := Zpos (fst (shl_align my ey ez))) in *.
  assert (Hposx : 0 < mx') by (unfold mx'; lia).
  assert (Hposy : 0 < my') by (unfold my'; lia).
  rewrite <- Hvx, <- Hvy in Hord.
  assert (Hez : -1074 <= ez) by lia.
  assert (Hres : forall d,
            SFltb (S754_zero false) (binary_normalize prec emax d ez false)
            = (0 <? d)).
  { intros [|p|p]; cbn [binary_normalize].
    - reflexivity.
    - destruct (binary_round_signed false p ez Hez) as [-> | (mr & er & ->)]; reflexivity.
    - destruct (binary_round_signed true p ez Hez) as [-> | (mr & er & ->)]; reflexivity. }
  rewrite Hres. clear Hres Hvx Hvy. clearbody mx' my'. unfold SFltb, SFcompare.
  rewrite (Z.compare_antisym ex ey), (Pos.compare_cont_spec my mx),
          (Pos.compare_antisym mx my), switch_Eq_id.
  rewrite Pos.compare_cont_spec, switch_Eq_id in Hord.
  destruct sx, sy; cbn [cond_Zopp].
  - (* both negative *)
    destruct (ex ?= ey) eqn:Ee; cbn [CompOpp];
      [destruct (mx ?= my)%positive eqn:Em; cbn [CompOpp]| |];
      pose proof (Z.compare_spec mx' my') as Hs; rewrite Hord in Hs; inversion Hs;
      destruct (Z.ltb_spec 0 (- mx' - - my')); try reflexivity; exfalso; lia.
  - destruct (Z.ltb_spec 0 (- mx' - my')); [exfalso; lia|reflexivity].
  - destruct (Z.ltb_spec 0 (mx' - - my')); [reflexivity|exfalso; lia].
  - destruct (ex ?= ey) eqn:Ee; cbn [CompOpp];
      [destruct (mx ?= my)%positive eqn:Em; cbn [CompOpp]| |];
      pose proof (Z.compare_spec mx' my') as Hs; rewrite Hord in Hs; inversion Hs;
      destruct (Z.ltb_spec 0 (mx' - my')); try reflexivity; exfalso; lia.
Qed.

(** On doubles that are not NaN: [b - a] is positive exactly when [a < b]. *)
Lemma sub_positive (a b : float) :
  is_nan a = false -> is_nan b = false ->
  (0 <? b - a)%float = (a <? b)%float.
Proof.
  unfold is_nan. rewrite !eqb_spec, !ltb_spec, sub_spec.
  change (Prim2SF 0) with (S754_zero false).
  pose proof (Prim2SF_valid a) as Va. pose proof (Prim2SF_valid b) as Vb.
  destruct (Prim2SF a) as [sa|sa| |sa ma ea]; try discriminate;
    destruct (Prim2SF b) as [sb|sb| |sb mb eb]; try discriminate; intros _ _;
    try (destruct sa, sb; reflexivity);
    try (destruct sa; reflexivity); try (destruct sb; reflexivity).
  now apply SFsub_positive.
Qed.

(** Of two doubles that are not NaN, one is at most the other. *)
Lemma not_ltb_leb (a b : float) :
  is_nan a = false -> is_nan b = false ->
  (a <? b)%float = false -> (b <=? a)%float = true.
Proof.
  unfold is_nan. rewrite !eqb_spec, ltb_spec, leb_spec.
  unfold SFltb, SFleb, SFeqb.
  rewrite (SFcompare_antisym (Prim2SF a) (Prim2SF b)).
  destruct (Prim2SF a) as [sa|sa| |sa ma ea], (Prim2SF b) as [sb|sb| |sb mb eb];
    cbn [SFcompare option_map negb]; try discriminate;
    try (destruct sa; try destruct sb; cbn; congruence);
    try (destruct sb; cbn; congruence).
  intros _ _.
  destruct sa, sb; cbn [CompOpp]; try congruence;
    destruct (ea ?= eb); cbn [CompOpp]; try congruence;
    destruct (Pos.compare_cont Eq ma mb); cbn [CompOpp]; congruence.
Qed.

End FloatOrder.

Import FloatOrder.

Module BookPageFacts.
Import BookPage.

Lemma lex_compare (P e1 m1 e2 m2 : Z) :
  0 < m1 < P -> 0 < m2 < P ->
  (e1 * P + m1 ?= e2 * P + m2)
  = match e1 ?= e2 with Lt => Lt | Gt => Gt | Eq => m1 ?= m2 end.
Proof.
  intros H1 H2. destruct (Z.compare_spec e1 e2) as [->|Hlt|Hgt].
  - destruct (Z.compare_spec m1 m2) as [->|Hm|Hm].
    + apply Z.compare_refl.
    + apply Z.compare_lt_iff. lia.
    + apply Z.compare_gt_iff. lia.
  - apply Z.compare_lt_iff. nia.
  - apply Z.compare_gt_iff. nia.
Qed.

Lemma add_compare_r (a b c : Z) : (a + c ?= b + c) = (a ?= b).
Proof. rewrite !(Z.add_comm _ c). apply Z.add_compare_mono_l. Qed.

Lemma finite_rank_bounds s m e :
  valid_binary (S754_finite s m e) = true ->
  0 <= e + 1074 <= 2045 /\ 0 < Zpos m < 2 ^ 53.
Proof.
  intros V. apply valid_finite_inv in V as [C He]. rewrite fexp64_eq in C.
  pose proof (digits2_pos_bounds m) as [_ Hu].
  repeat split; try lia.
  eapply Z.lt_le_trans; [exact Hu|]. apply Z.pow_le_mono_r; lia.
Qed.

(** Doubles other than NaN compare as their ranks do. *)
Lemma SFcompare_rank X Y :
  valid_binary X = true -> valid_binary Y = true ->
  X <> S754_nan -> Y <> S754_nan ->
  SFcompare X Y = Some (rank X ?= rank Y).
Proof.
  intros VX VY NX NY.
  assert (Hbig : 2046 * 2 ^ 53 < 2 ^ 64) by reflexivity.
  destruct X as [sx|sx| |sx mx ex]; try congruence;
    destruct Y as [sy|sy| |sy my ey]; try congruence;
    cbn [SFcompare rank];
    try pose proof (finite_rank_bounds _ _ _ VX) as [Hex Hmx];
    try pose proof (finite_rank_bounds _ _ _ VY) as [Hey Hmy].
  - reflexivity.
  - destruct sy; reflexivity.
  - destruct sy; cbn [cond_Zopp]; f_equal; symmetry;
      [apply Z.compare_gt_iff|apply Z.compare_lt_iff]; nia.
  - destruct sx; reflexivity.
  - destruct sx, sy; reflexivity.
  - destruct sx, sy; cbn [cond_Zopp]; f_equal; symmetry;
      first [apply Z.compare_gt_iff; nia | apply Z.compare_lt_iff; nia].
  - destruct sx; cbn [cond_Zopp]; f_equal; symmetry;
      [apply Z.compare_lt_iff|apply Z.compare_gt_iff]; nia.
  - destruct sx, sy; cbn [cond_Zopp]; f_equal; symmetry;
      first [apply Z.compare_gt_iff; nia | apply Z.compare_lt_iff; nia].
  - rewrite Pos.compare_cont_spec, switch_Eq_id.
    change (mx ?= my)%positive with (Zpos mx ?= Zpos my).
    destruct sx, sy; cbn [cond_Zopp]; f_equal.
    + rewrite Z.compare_opp.
      rewrite (lex_compare (2 ^ 53) (ey + 1074) (Zpos my) (ex + 1074) (Zpos mx)) by lia.
      rewrite add_compare_r.
      rewrite (Z.compare_antisym ex ey), (Z.compare_antisym (Zpos mx) (Zpos my)).
      now destruct (ex ?= ey).
    + symmetry. apply Z.compare_lt_iff. nia.
    + symmetry. apply Z.compare_gt_iff. nia.
    + rewrite (lex_compare (2 ^ 53)) by lia.
      now rewrite add_compare_r.
Qed.

Lemma not_nan_spec (a : float) : is_nan a = false -> Prim2SF a <> S754_nan.
Proof.
  unfold is_nan. rewrite eqb_spec. intros H E. rewrite E in H. discriminate H.
Qed.

Lemma ltb_rank (a b : float) :
  is_nan a = false -> is_nan b = false ->
  (a <? b)%float = (rank (Prim2SF a) <? rank (Prim2SF b)).
Proof.
  intros Ha Hb. rewrite ltb_spec. unfold SFltb, Z.ltb.
  rewrite SFcompare_rank; auto using Prim2SF_valid, not_nan_spec.
Qed.

Lemma leb_rank (a b : float) :
  is_nan a = false -> is_nan b = false ->
  (a <=? b)%float = (rank (Prim2SF a) <=? rank (Prim2SF b)).
Proof.
  intros Ha Hb. rewrite leb_spec. unfold SFleb, Z.leb.
  rewrite SFcompare_rank; auto using Prim2SF_valid, not_nan_spec.
Qed.

(** On rows whose prices are numbers the comparator puts the dearer row
    first. *)
Lemma byPriceDesc_orders (a b : Row.Order) :
  is_nan (Row.price a) = false -> is_nan (Row.price b) = false ->
  (byPriceDesc a b <=? 0) = (priceKey a <=? priceKey b).
Proof.
  intros Ha Hb. unfold byPriceDesc, priceKey.
  rewrite (sub_positive _ _ Ha Hb), (ltb_rank _ _ Ha Hb).
  destruct (Z.ltb_spec (rank (Prim2SF (Row.price a))) (rank (Prim2SF (Row.price b)))).
  - symmetry. apply Z.leb_gt. lia.
  - transitivity true; [now destruct (_ <? 0)%float|].
    symmetry. apply Z.leb_le. lia.
Qed.

End BookPageFacts.

(** X18. The asks the page lists are the first ten ask rows of its state,
    reordered so that no row has a higher price than a row above it, as
    long as those prices are numbers. *)
Theorem displayedAsks_descending (orderBook : View.OrderBook) :
  (forall row, In row (firstn 10 (View.asks orderBook)) ->
               is_nan (Row.price row) = false) ->
  Permutation (BookPage.displayedAsks orderBook) (firstn 10 (View.asks orderBook)) /\
  StronglySorted (fun above below => (Row.price below <=? Row.price above)%float = true)
                 (BookPage.displayedAsks orderBook).
Proof.
  intros Hnum. unfold BookPage.displayedAsks.
  set (rows := firstn 10 (View.asks orderBook)) in *.
  split; [apply sort_perm|].
  assert (Hnum' : forall row, In row (sort BookPage.byPriceDesc rows) ->
                              is_nan (Row.price row) = false).
  { intros row Hrow. apply Hnum.
    eapply Permutation_in; [apply sort_perm|exact Hrow]. }
  apply (StronglySorted_impl_in
           (fun a b => BookPage.priceKey a <= BookPage.priceKey b)).
  - intros a b Ha Hb Hle. unfold BookPage.priceKey in Hle.
    rewrite BookPageFacts.leb_rank by auto. apply Z.leb_le. lia.
  - apply sort_sorted. intros a b Ha Hb.
    apply BookPageFacts.byPriceDesc_orders; auto.
Qed.

Lemma displayedAsks_descending_witness :
  let row p := Row.mk p 1%float 1%float in
  let orderBook :=
    View.mk [] [row 101%float; row 100.5%float; row 102%float] 0%float in
  BookPage.displayedAsks orderBook = [row 102%float; row 101%float; row 100.5%float] /\
  StronglySorted (fun above below => (Row.price below <=? Row.price above)%float = true)
                 (BookPage.displayedAsks orderBook).
Proof.
  intros row orderBook. split; [reflexivity|].
  apply (displayedAsks_descending orderBook).
  intros r [<-|[<-|[<-|[]]]]; reflexivity.
Defined.

(** ** The streaming connection *)

Module ConnectionFacts.
Import Connection.

Lemma update_length {T} (f : T -> T) l : forall n,
  List.length (update l n f) = List.length l.
Proof.
  induction l as [|x l IH]; intros [|n]; cbn; try reflexivity. now rewrite IH.
Qed.

Lemma update_nth_same {T} (f : T -> T) l : forall n,
  nth_error (update l n f) n = option_map f (nth_error l n).
Proof.
  induction l as [|x l IH]; intros [|n]; cbn; try reflexivity. apply IH.
Qed.

Lemma update_nth_other {T} (f : T -> T) l : forall n m,
  m <> n -> nth_error (update l n f) m = nth_error l m.
Proof.
  induction l as [|x l IH]; intros [|n] [|m] H; cbn; try reflexivity;
    try congruence.
  apply IH. congruence.
Qed.

Lemma run_snoc w events e : run w (events ++ [e]) = step (run w events) e.
Proof. unfold run. rewrite fold_left_app. reflexivity. Qed.

Lemma close_not_live s : live (close s) = false.
Proof.
  unfold close, live. destruct (readyState s) eqn:E; cbn; rewrite ?E; reflexivity.
Qed.

Lemma close_coin s : coin (close s) = coin s.
Proof. unfold close. now destruct (readyState s). Qed.

Ltac simp_world :=
  cbn [api ws sockets reconnectAttempts currentCoin timers log schedule emit] in *.

Lemma sendSubscription_frame c w :
  api (sendSubscription c w) = api w /\ sockets (sendSubscription c w) = sockets w.
Proof.
  unfold sendSubscription.
  destruct (ws (api w)) as [s|]; [destruct (readyStateOf w s) as [[| | |]|]|];
    destruct (isCurrentCoin (api w) c); split; reflexivity.
Qed.

Lemma invariant_frame w w' :
  api w' = api w -> sockets w' = sockets w -> invariant w -> invariant w'.
Proof. unfold invariant. intros -> ->. trivial. Qed.

Lemma connectWebSocket_invariant c cb w :
  invariant w -> invariant (connectWebSocket c cb w).
Proof.
  intros (Hatt & Hlive & Hws). unfold invariant, connectWebSocket, closeCurrent.
  simp_world.
  destruct (ws (api w)) as [s0|] eqn:E; simp_world.
  - split; [assumption|]. split.
    + intros s sock Hnth Hl. simp_world.
      destruct (Nat.lt_ge_cases s (List.length (update (sockets w) s0 close)))
        as [Hlt|Hge].
      * rewrite nth_error_app1 in Hnth by assumption. exfalso.
        destruct (Nat.eq_dec s s0) as [->|Hne].
        -- rewrite update_nth_same in Hnth.
           destruct (nth_error (sockets w) s0); [|discriminate].
           injection Hnth as <-. rewrite close_not_live in Hl. discriminate.
        -- rewrite update_nth_other in Hnth by assumption.
           specialize (Hlive _ _ Hnth Hl). congruence.
      * rewrite nth_error_app2 in Hnth by assumption.
        destruct (s - List.length (update (sockets w) s0 close))%nat as [|d] eqn:Ed.
        -- f_equal. lia.
        -- destruct d; discriminate.
    + intros s Hs. simp_world. injection Hs as <-.
      exists (mkSocket CONNECTING c cb).
      rewrite nth_error_app2, Nat.sub_diag by lia. split; reflexivity.
  - split; [assumption|]. split.
    + intros s sock Hnth Hl. simp_world.
      destruct (Nat.lt_ge_cases s (List.length (sockets w))) as [Hlt|Hge].
      * rewrite nth_error_app1 in Hnth by assumption.
        specialize (Hlive _ _ Hnth Hl). congruence.
      * rewrite nth_error_app2 in Hnth by assumption.
        destruct (s - List.length (sockets w))%nat as [|d] eqn:Ed.
        -- f_equal. lia.
        -- destruct d; discriminate.
    + intros s Hs. simp_world. injection Hs as <-.
      exists (mkSocket CONNECTING c cb).
      rewrite nth_error_app2, Nat.sub_diag by lia. split; reflexivity.
Qed.

Lemma step_invariant w e : invariant w -> invariant (step w e).
Proof.
  intros Hinv. pose proof Hinv as (Hatt & Hlive & Hws).
  destruct e as [c cb| |s|s m|s|s|k]; cbn [step].
  - now apply connectWebSocket_invariant.
  - unfold disconnect, closeCurrent.
    destruct (ws (api w)) as [s0|] eqn:E;
      unfold invariant; simp_world.
    + split; [assumption|]. split; [|intros s' Hs'; simp_world; congruence].
      intros s sock Hnth Hl. simp_world. exfalso.
      destruct (Nat.eq_dec s s0) as [->|Hne].
      * rewrite update_nth_same in Hnth.
        destruct (nth_error (sockets w) s0); [|discriminate].
        injection Hnth as <-. rewrite close_not_live in Hl. discriminate.
      * rewrite update_nth_other in Hnth by assumption.
        specialize (Hlive _ _ Hnth Hl). congruence.
    + split; [assumption|]. split; [|intros s' Hs'; simp_world; congruence].
      intros s sock Hnth Hl. simp_world. specialize (Hlive _ _ Hnth Hl). congruence.
  - destruct (nth_error (sockets w) s) as [sock|] eqn:E; [|assumption].
    destruct (readyState sock) eqn:Er; try assumption.
    unfold onopen.
    eapply invariant_frame; try apply sendSubscription_frame.
    unfold setSocketState, maxReconnectAttempts.
    unfold invariant; simp_world.
    split; [lia|]. split.
    + intros s' sock' Hnth Hl. simp_world.
      destruct (Nat.eq_dec s' s) as [->|Hne].
      * apply (Hlive s sock E). unfold live. now rewrite Er.
      * rewrite update_nth_other in Hnth by assumption. eauto.
    + intros s' Hs'. simp_world. destruct (Hws s' Hs') as (sock' & Hnth & Hc).
      destruct (Nat.eq_dec s' s) as [->|Hne].
      * rewrite update_nth_same, Hnth. cbn. eexists. split; [reflexivity|].
        exact Hc.
      * rewrite update_nth_other by assumption. eauto.
  - destruct (nth_error (sockets w) s) as [sock|]; [|assumption].
    destruct (readyState sock); try assumption.
    unfold onmessage. destruct m as [[ch [orderBook|]]|]; try assumption.
    destruct (_ && _); [|assumption].
    eapply invariant_frame; [| |exact Hinv]; reflexivity.
  - destruct (nth_error (sockets w) s) as [sock|]; [|assumption].
    unfold onerror. destruct (onError (callbacks sock)); [|assumption].
    eapply invariant_frame; [| |exact Hinv]; reflexivity.
  - destruct (nth_error (sockets w) s) as [sock|] eqn:E; [|assumption].
    assert (Hclosed : invariant (onclose sock (setSocketState s CLOSED w))).
    { unfold onclose, reconnect, setSocketState, maxReconnectAttempts in *.
      unfold invariant; simp_world.
      assert (Hl' : forall s' sock',
                nth_error (update (sockets w) s (setReadyState CLOSED)) s' = Some sock' ->
                live sock' = true -> ws (api w) = Some s').
      { intros s' sock' Hnth Hl. simp_world.
        destruct (Nat.eq_dec s' s) as [->|Hne].
        - rewrite update_nth_same, E in Hnth. injection Hnth as <-. discriminate.
        - rewrite update_nth_other in Hnth by assumption. eauto. }
      assert (Hw' : forall s', ws (api w) = Some s' ->
                exists sock', nth_error (update (sockets w) s (setReadyState CLOSED)) s'
                              = Some sock' /\ currentCoin (api w) = Some (coin sock')).
      { intros s' Hs'. simp_world. destruct (Hws s' Hs') as (sock' & Hnth & Hc).
        destruct (Nat.eq_dec s' s) as [->|Hne].
        - rewrite update_nth_same, Hnth. cbn. eexists. split; [reflexivity|]. exact Hc.
        - rewrite update_nth_other by assumption. eauto. }
      destruct (Z.ltb_spec (reconnectAttempts (api w)) 5);
        unfold invariant, maxReconnectAttempts; simp_world;
        (split; [lia|split; assumption]). }
    destruct (readyState sock); assumption.
  - destruct (nth_error (timers w) k) as [[[c cb d|c d]|]|]; try assumption.
    + apply connectWebSocket_invariant.
      eapply invariant_frame; [| |exact Hinv]; reflexivity.
    + eapply invariant_frame; try apply sendSubscription_frame.
      eapply invariant_frame; [| |exact Hinv]; reflexivity.
Qed.

Lemma run_invariant events : forall w, invariant w -> invariant (run w events).
Proof.
  induction events as [|e events IH]; intros w Hw; [assumption|].
  cbn [run fold_left]. apply IH. now apply step_invariant.
Qed.

Lemma initial_invariant : invariant initial.
Proof.
  unfold invariant, initial, maxReconnectAttempts. cbn. split; [lia|]. split.
  - intros [|s] sock H; discriminate.
  - discriminate.
Qed.

End ConnectionFacts.

Module ConnectionSpec.
Import Connection ConnectionFacts.

(** A socket that is connecting or open is the one [ws] holds, and its coin
    is [currentCoin]. *)
Lemma live_socket_is_current events s sock :
  let w := run initial events in
  nth_error (sockets w) s = Some sock -> live sock = true ->
  ws (api w) = Some s /\ currentCoin (api w) = Some (coin sock).
Proof.
  intros w Hnth Hl.
  destruct (run_invariant events initial initial_invariant) as (_ & Hlive & Hws).
  fold w in Hlive, Hws.
  pose proof (Hlive s sock Hnth Hl) as Hs.
  split; [assumption|]. destruct (Hws s Hs) as (sock' & Hnth' & Hc). congruence.
Qed.

(** X12. After any events there is at most one socket that is connecting
    or open: it is the socket [ws] holds, and it was created for
    [currentCoin]. *)
Theorem connection_one_live_socket events :
  let w := run initial events in
  (forall s sock,
     nth_error (sockets w) s = Some sock -> live sock = true ->
     ws (api w) = Some s /\ currentCoin (api w) = Some (coin sock)) /\
  (forall s s' sock sock',
     nth_error (sockets w) s = Some sock -> live sock = true ->
     nth_error (sockets w) s' = Some sock' -> live sock' = true ->
     s = s').
Proof.
  intros w.
  assert (H1 : forall s sock,
     nth_error (sockets w) s = Some sock -> live sock = true ->
     ws (api w) = Some s /\ currentCoin (api w) = Some (coin sock)).
  { intros s sock. apply live_socket_is_current. }
  split; [exact H1|].
  intros s s' sock sock' Hnth Hl Hnth' Hl'.
  destruct (H1 _ _ Hnth Hl) as [E _]. destruct (H1 _ _ Hnth' Hl') as [E' _].
  congruence.
Qed.

Lemma connection_one_live_socket_witness :
  let cb := mkCallbacks 0 (Some 1%nat) in
  let w := run initial [CallConnect "AVAX" cb; Opened 0; CallConnect "BTC" cb; Closed 0;
                        Opened 1; Fired 0] in
  map readyState (sockets w) = [CLOSED; CLOSING; CONNECTING] /\
  ws (api w) = Some 2%nat /\ currentCoin (api w) = Some "AVAX"%string.
Proof.
  intros cb w. split; [reflexivity|].
  destruct (connection_one_live_socket
              [CallConnect "AVAX" cb; Opened 0; CallConnect "BTC" cb; Closed 0;
               Opened 1; Fired 0]) as [H _].
  apply (H 2%nat (mkSocket CONNECTING "AVAX" cb)); reflexivity.
Defined.

Ltac unfold_handlers :=
  unfold connectWebSocket, disconnect, closeCurrent, onopen, onmessage, onerror,
         onclose, reconnect, sendSubscription, schedule, emit, setSocketState,
         clearTimer, readyStateOf in *.

Ltac split_cases :=
  repeat match goal with
         | |- context [match nth_error ?l ?n with _ => _ end] =>
             destruct (nth_error l n) eqn:?
         | |- context [match ?x with _ => _ end] => destruct x eqn:?
         | |- context [if ?b then _ else _] => destruct b eqn:?
         end.

(** The reconnections a step schedules, and what it does to the count of
    attempts. *)
Lemma step_reconnects w e :
  0 <= reconnectAttempts (api w) <= maxReconnectAttempts ->
  (filter isReconnect (log (step w e)) = filter isReconnect (log w) /\
   (isOpened e = false -> reconnectAttempts (api (step w e)) = reconnectAttempts (api w)))
  \/
  (exists c cb,
     filter isReconnect (log (step w e))
     = filter isReconnect (log w)
         ++ [Scheduled (Reconnect c cb (1000 * (reconnectAttempts (api w) + 1)))] /\
     reconnectAttempts (api w) < maxReconnectAttempts /\
     reconnectAttempts (api (step w e)) = reconnectAttempts (api w) + 1).
Proof.
  intros Hatt. unfold maxReconnectAttempts in *.
  destruct e as [c cb| |s|s m|s|s|k]; cbn [step]; unfold_handlers; cbn [option_map];
    split_cases; simp_world; cbn [option_map] in *;
    rewrite ?filter_app; cbn [filter isReconnect]; rewrite ?app_nil_r;
    try (left; split; [reflexivity|intros; try reflexivity; discriminate]);
    right; eexists _, _; (split; [reflexivity|split; [|reflexivity]]);
    match goal with H : (_ <? _) = true |- _ => apply Z.ltb_lt in H; exact H end.
Qed.

(** X13. After any events the count of reconnection attempts is between 0
    and 5; every reconnection was scheduled 1000, 2000, 3000, 4000 or 5000
    milliseconds ahead; and as long as no socket has opened, the number of
    reconnections scheduled so far is that count, so at most five. *)
Theorem reconnect_bounded events :
  let w := run initial events in
  0 <= reconnectAttempts (api w) <= maxReconnectAttempts /\
  (forall c cb d, In (Scheduled (Reconnect c cb d)) (log w) ->
                  exists k, 1 <= k <= 5 /\ d = 1000 * k) /\
  (forallb (fun e => negb (isOpened e)) events = true ->
   Z.of_nat (List.length (filter isReconnect (log w))) = reconnectAttempts (api w)).
Proof.
  induction events as [|e events IH] using rev_ind; intros w; subst w.
  - unfold maxReconnectAttempts. cbn. split; [lia|]. split; [intros c cb d []|reflexivity].
  - rewrite run_snoc. cbv zeta in IH. destruct IH as (Hatt & Hdelay & Hcount).
    set (w := run initial events) in *.
    pose proof (run_invariant (events ++ [e]) initial initial_invariant) as (Hatt' & _).
    rewrite run_snoc in Hatt'. fold w in Hatt'.
    split; [exact Hatt'|].
    assert (Hin : forall eff, isReconnect eff = true ->
                    (In eff (log (step w e)) <-> In eff (filter isReconnect (log (step w e))))).
    { intros eff Heff. rewrite filter_In. tauto. }
    assert (Hin0 : forall eff, In eff (filter isReconnect (log w)) -> In eff (log w)).
    { intros eff H. now apply filter_In in H. }
    destruct (step_reconnects w e Hatt) as [[Hlog Hsame] | (c0 & cb0 & Hlog & Hlt & Hplus)].
    + split.
      * intros c cb d Hd. apply (proj1 (Hin (Scheduled (Reconnect c cb d)) eq_refl)) in Hd.
        rewrite Hlog in Hd. apply (Hdelay c cb d). now apply Hin0.
      * rewrite forallb_app. cbn [forallb]. rewrite andb_true_r.
        intros Hno. apply andb_prop in Hno as [Hno He].
        apply negb_true_iff in He.
        rewrite Hlog, Hsame by assumption. now apply Hcount.
    + split.
      * intros c cb d Hd. apply (proj1 (Hin (Scheduled (Reconnect c cb d)) eq_refl)) in Hd.
        rewrite Hlog in Hd. apply in_app_or in Hd. destruct Hd as [Hd|Hd].
        -- apply (Hdelay c cb d). now apply Hin0.
        -- apply in_inv in Hd. destruct Hd as [Hd|[]].
           assert (Hd' : d = 1000 * (reconnectAttempts (api w) + 1)) by congruence.
           exists (reconnectAttempts (api w) + 1).
           unfold maxReconnectAttempts in *. split; [lia|exact Hd'].
      * rewrite forallb_app. cbn [forallb]. rewrite andb_true_r.
        intros Hno. apply andb_prop in Hno as [Hno He].
        rewrite Hlog, Hplus, length_app. cbn [List.length].
        specialize (Hcount Hno). lia.
Qed.

Lemma reconnect_bounded_witness :
  let cb := mkCallbacks 0 None in
  let w := run initial [CallConnect "AVAX" cb; Closed 0; Fired 0; Closed 1; Fired 1;
                        Closed 2; Fired 2; Closed 3; Fired 3; Closed 4; Fired 4;
                        Closed 5; Fired 5; Closed 6] in
  reconnectAttempts (api w) = 5 /\
  Z.of_nat (List.length (filter isReconnect (log w))) = 5 /\
  timers w = [None; None; None; None; None].
Proof.
  intros cb w.
  destruct (reconnect_bounded
              [CallConnect "AVAX" cb; Closed 0; Fired 0; Closed 1; Fired 1;
               Closed 2; Fired 2; Closed 3; Fired 3; Closed 4; Fired 4;
               Closed 5; Fired 5; Closed 6]) as (_ & _ & Hcount).
  fold w in Hcount. rewrite Hcount by reflexivity.
  repeat split; reflexivity.
Defined.

(** X14. When the browser opens a connecting socket, the handler sends the
    subscription for the coin of that socket at once, on that socket, resets
    the count of attempts, and [isConnectedTo] that coin holds; the retry
    every 50 ms is never needed. *)
Theorem opened_sends_subscription events s sock :
  let w := run initial events in
  nth_error (sockets w) s = Some sock ->
  readyState sock = CONNECTING ->
  let w' := step w (Opened s) in
  log w' = log w ++ [Sent s (coin sock)] /\
  timers w' = timers w /\
  reconnectAttempts (api w') = 0 /\
  isConnectedTo (coin sock) w' = true.
Proof.
  intros w Hnth Hr w'. subst w'.
  destruct (live_socket_is_current events s sock Hnth) as [Hws Hcoin];
    [unfold live; now rewrite Hr|].
  fold w in Hws, Hcoin. clearbody w. cbn [step]. rewrite Hnth, Hr.
  unfold onopen, sendSubscription, isConnectedTo, readyStateOf, setSocketState,
         isCurrentCoin, emit.
  simp_world. rewrite Hws, Hcoin, update_nth_same, Hnth.
  cbn [option_map setReadyState readyState]. rewrite String.eqb_refl.
  simp_world. rewrite update_nth_same, Hnth.
  cbn [option_map setReadyState readyState]. rewrite String.eqb_refl.
  repeat split.
Qed.

Lemma opened_sends_subscription_witness :
  let cb := mkCallbacks 0 None in
  log (run initial [CallConnect "AVAX" cb; Closed 0; Fired 0; Opened 1])
  = [Scheduled (Reconnect "AVAX" cb 1000); Sent 1 "AVAX"].
Proof.
  intros cb.
  change (run initial [CallConnect "AVAX" cb; Closed 0; Fired 0; Opened 1])
    with (step (run initial [CallConnect "AVAX" cb; Closed 0; Fired 0]) (Opened 1)).
  destruct (opened_sends_subscription [CallConnect "AVAX" cb; Closed 0; Fired 0]
              1%nat (mkSocket CONNECTING "AVAX" cb) eq_refl eq_refl) as (Hlog & _).
  rewrite Hlog. reflexivity.
Defined.

(** X15. A message on channel "l2Book" that carries data, delivered on an
    open socket, always reaches the [onOrderBookUpdate] of the call that
    created the socket: the coin of an open socket is [currentCoin], so the
    handler's coin test never drops it.  Nothing else a message can be
    reaches the callback. *)
Theorem received_reaches_callback events s sock m :
  let w := run initial events in
  nth_error (sockets w) s = Some sock ->
  readyState sock = OPEN ->
  log (step w (Received s m))
  = log w ++ match m with
             | Some (mkMessage ch (Some orderBook)) =>
                 if String.eqb ch "l2Book" then [Updated (callbacks sock) orderBook]
                 else []
             | _ => []
             end.
Proof.
  intros w Hnth Hr.
  destruct (live_socket_is_current events s sock Hnth) as [Hws Hcoin];
    [unfold live; now rewrite Hr|].
  fold w in Hws, Hcoin. clearbody w. cbn [step]. rewrite Hnth, Hr. unfold onmessage, isCurrentCoin, emit.
  destruct m as [[ch [orderBook|]]|]; try (now rewrite app_nil_r).
  rewrite Hcoin, String.eqb_refl, andb_true_r.
  destruct (String.eqb ch "l2Book"); [reflexivity|now rewrite app_nil_r].
Qed.

Lemma received_reaches_callback_witness :
  let cb := mkCallbacks 7 None in
  let book := Book.mk "AVAX" ([Level.mk "29.40" "1"], [Level.mk "29.50" "2"]) 0 in
  log (run initial [CallConnect "AVAX" cb; Opened 0;
                    Received 0 (Some (mkMessage "l2Book" (Some book)))])
  = [Sent 0 "AVAX"; Updated cb book].
Proof.
  intros cb book.
  change (run initial [CallConnect "AVAX" cb; Opened 0;
                       Received 0 (Some (mkMessage "l2Book" (Some book)))])
    with (step (run initial [CallConnect "AVAX" cb; Opened 0])
               (Received 0 (Some (mkMessage "l2Book" (Some book))))).
  rewrite (received_reaches_callback [CallConnect "AVAX" cb; Opened 0]
             0%nat (mkSocket OPEN "AVAX" cb)); reflexivity.
Defined.

(** X16. [disconnect] does not end the connection for good.  After it
    [isConnectedTo] fails for every coin; but when the close event of the
    socket it closed arrives, the handler schedules a reconnection
    (while fewer than five attempts are counted), and when that timer fires
    the instance is connecting again, to the coin it was told to leave. *)
Theorem disconnect_then_reconnects w s sock :
  ws (api w) = Some s ->
  nth_error (sockets w) s = Some sock ->
  live sock = true ->
  reconnectAttempts (api w) < maxReconnectAttempts ->
  (forall c, isConnectedTo c (step w CallDisconnect) = false) /\
  let w' := run w [CallDisconnect; Closed s; Fired (List.length (timers w))] in
  ws (api w') = Some (List.length (sockets w)) /\
  currentCoin (api w') = Some (coin sock) /\
  nth_error (sockets w') (List.length (sockets w))
  = Some (mkSocket CONNECTING (coin sock) (callbacks sock)) /\
  reconnectAttempts (api w') = reconnectAttempts (api w) + 1.
Proof.
  intros Hws Hnth Hl Hlt. split.
  - intros c. cbn [step]. unfold disconnect, closeCurrent, isConnectedTo.
    rewrite Hws. reflexivity.
  - unfold run. cbn [fold_left]. cbn [step].
    assert (Hclose : nth_error (sockets (disconnect w)) s = Some (close sock)).
    { unfold disconnect, closeCurrent. rewrite Hws. simp_world.
      now rewrite update_nth_same, Hnth. }
    rewrite Hclose.
    assert (Hst : readyState (close sock) = CLOSING).
    { unfold close, live in *. destruct (readyState sock); try discriminate; reflexivity. }
    rewrite Hst.
    assert (Hatt : reconnectAttempts (api (setSocketState s CLOSED (disconnect w)))
                   = reconnectAttempts (api w)).
    { unfold disconnect, closeCurrent, setSocketState. rewrite Hws. reflexivity. }
    unfold onclose, reconnect. rewrite Hatt.
    apply Z.ltb_lt in Hlt. rewrite Hlt. rewrite close_coin.
    assert (Hcb : callbacks (close sock) = callbacks sock).
    { unfold close. now destruct (readyState sock). }
    rewrite Hcb.
    unfold schedule, setSocketState, disconnect, closeCurrent. rewrite Hws. simp_world.
    assert (Hlast : forall T (l : list T) x, nth_error (l ++ [x]) (List.length l) = Some x).
    { intros T l x. rewrite nth_error_app2 by lia. now rewrite Nat.sub_diag. }
    rewrite Hlast.
    unfold connectWebSocket, clearTimer, closeCurrent. simp_world.
    assert (Hlen : List.length (update (update (sockets w) s close) s (setReadyState CLOSED))
                   = List.length (sockets w)) by now rewrite !update_length.
    split; [now rewrite Hlen|]. split; [reflexivity|]. split; [|reflexivity].
    rewrite <- Hlen. apply Hlast.
Qed.

Lemma disconnect_then_reconnects_witness :
  let cb := mkCallbacks 0 None in
  let w := run initial [CallConnect "AVAX" cb; Opened 0] in
  let w' := run w [CallDisconnect; Closed 0; Fired 0] in
  isConnectedTo "AVAX" w = true /\
  isConnectedTo "AVAX" (step w CallDisconnect) = false /\
  ws (api w') = Some 1%nat /\ currentCoin (api w') = Some "AVAX"%string.
Proof.
  intros cb w w'. split; [reflexivity|].
  destruct (disconnect_then_reconnects w 0%nat (mkSocket OPEN "AVAX" cb))
    as (Hoff & Hws & Hcoin & _); try reflexivity.
  split; [apply Hoff|]. split; assumption.
Defined.

End ConnectionSpec.

(** ** The trades page *)

Section TradesPageFacts.
Import TradesPage.
Variable toLocaleString : Z -> string.
Variable getTime : string -> option Z.

(** What keeps the "No Completed Trades Found" block hidden. *)
Local Abbreviation covered st :=
  (hasSearched st = true ->
   loading st = true \/ truthy (error st) = true \/ trades st <> []).

Lemma submitted_covered st k :
  covered st -> covered (fold_left set (firstn k (submitted st)) st).
Proof.
  intros H. unfold submitted. destruct (isBlank (userAddress st)).
  - destruct k as [|[|k]]; cbn; auto.
  - destruct k as [|[|[|[|[|k]]]]]; cbn; auto.
Qed.

Lemma settled_covered st o k :
  covered st -> covered (fold_left set (firstn k (settled toLocaleString getTime o)) st).
Proof.
  intros H. unfold settled. destruct o as [fills|message].
  - destruct (Reconstructor.processCompletedTrades toLocaleString getTime fills)
      as [|t ts].
    + destruct k as [|[|[|k]]]; cbn; auto.
    + destruct k as [|[|[|k]]]; cbn; auto;
        intros _; right; right; discriminate.
  - destruct k as [|[|[|k]]]; cbn; auto.
Qed.

Lemma reachable_covered st :
  reachable toLocaleString getTime st -> covered st.
Proof.
  induction 1 as [|st value _ IH|st k _ IH|st o k _ IH].
  - discriminate.
  - exact IH.
  - now apply submitted_covered.
  - now apply settled_covered.
Qed.

End TradesPageFacts.

(** X17. The block "No Completed Trades Found" is never rendered: in every
    state the page can be in, once a search has been made the page is
    loading, or holds an error, or holds trades.  A search that finds no
    completed trade sets the error instead. *)
Theorem no_trades_found_never_shown
    (toLocaleString : Z -> string) (getTime : string -> option Z) st :
  TradesPage.reachable toLocaleString getTime st ->
  TradesPage.showsNoTradesFound st = false.
Proof.
  intros Hr. pose proof (reachable_covered toLocaleString getTime st Hr) as Hc.
  unfold TradesPage.showsNoTradesFound.
  destruct (TradesPage.hasSearched st); [|now rewrite andb_false_r].
  destruct (Hc eq_refl) as [-> | [-> | Hne]]; try reflexivity.
  - now rewrite andb_false_r.
  - destruct (TradesPage.trades st); [contradiction|].
    cbn. now rewrite andb_false_r.
Qed.

Lemma no_trades_found_never_shown_witness :
  let searched :=
    fold_left TradesPage.set
      (firstn 4 (TradesPage.submitted
                   (TradesPage.set TradesPage.initial (TradesPage.SetUserAddress "0xabc"))))
      (TradesPage.set TradesPage.initial (TradesPage.SetUserAddress "0xabc")) in
  let st :=
    fold_left TradesPage.set
      (firstn 2 (TradesPage.settled EnUS.toLocaleString EnUS.getTime
                   (TradesPage.Fetched [fill "X" "1" Fill.B 0 "0"])))
      searched in
  TradesPage.hasSearched st = true /\ TradesPage.trades st = [] /\
  TradesPage.loading st = false /\ TradesPage.showsError st = true /\
  TradesPage.showsNoTradesFound st = false.
Proof.
  intros searched st. do 4 (split; [reflexivity|]).
  apply (no_trades_found_never_shown EnUS.toLocaleString EnUS.getTime).
  apply TradesPage.reach_settled, TradesPage.reach_submitted, TradesPage.reach_typed,
        TradesPage.reach_initial.
Defined.
